(** * hapi-doc-test: the dependency-driven test planner and runtime

  A shallow embedding of [hapi.js] and of the array helpers of
  [extensions.js] (the planner [Node.insertApi], the
  execution waterfall [RunContext.doRun], hook chains, serialization
  queues, variable substitution and action scanning) together with the
  properties of the natural-language specification that were checked
  against it.

  Conventions of the embedding.
  - JavaScript object identity is modelled by a number: an [Api] object
    carries its identity in the field [oid], a [Node] is its position in
    the node store, a [RunContext] is a number.
  - A JavaScript object used as a dictionary is a [gmap string _]; an array
    is a [list].
  - A function that throws returns a result type with a constructor for
    the exception; where the JavaScript mutates state before it throws, the
    mutated state travels with the exception.
  - Recursion that is not structural in the source (the planner) takes a
    fuel argument; running out of fuel is a result of its own and is never
    confused with a normal return.
  - An asynchronous stage is modelled by how it ends: the error or success
    its callback receives, or the exception it throws before it returns;
    an exception that nothing catches ends the run, and the state records
    it.  A user function of a hook calls back once, before or after it
    returns.  Only log output is left out. *)

From Stdlib Require Import ZArith Ascii.
From Stdlib Require String.
From stdpp Require Import base option list strings gmap pretty.

Local Open Scope Z_scope.
Local Open Scope nat_scope.

(* ===================================================================== *)
(** * Part I: the embedding                                               *)
(* ===================================================================== *)

(** ** Array helpers *)

Module JsArray.

(** The prototype extensions of [extensions.js] that the planner and the
    scanner use.  [Array.prototype.addUniq]: push [val] unless the array
    [includes] it. *)
Definition addUniq `{EqDecision A} (l : list A) (x : A) : list A :=
  if decide (x ∈ l) then l else l ++ [x].

(** [Array.prototype.addAllUniq]: [addUniq] for every element of [others],
    in order. *)
Definition addAllUniq `{EqDecision A} (l xs : list A) : list A :=
  foldl addUniq l xs.

(** [Array.prototype.pullAll] hands over to lodash's [pullAll], which
    removes from the array every occurrence of every value of [others]. *)
Definition pullAll `{EqDecision A} (l xs : list A) : list A :=
  filter (λ x, x ∉ xs) l.

(** [Array.prototype.indexOf]: the first position of [x], or [-1]. *)
Fixpoint indexOf_from `{EqDecision A} (i : Z) (l : list A) (x : A) : Z :=
  match l with
  | [] => (-1)%Z
  | y :: l' => if decide (y = x) then i else indexOf_from (i + 1)%Z l' x
  end.

Definition indexOf `{EqDecision A} (l : list A) (x : A) : Z :=
  indexOf_from 0%Z l x.

End JsArray.

(** ** Documentation generation: [Hapi.prototype.gendoc] *)

Module Gendoc.

(** What [gendoc] needs of a [MultiResponseApi]: whether it is private, and
    the exception [addDoc] throws for it, if any. *)
Record MultiResponseApi := {
  name : string;
  private : bool;
  addDoc : option string
}.

(** [info.swagger] present or not, and the exception of
    [fs.writeFileSync], if any. *)
Record VirtualHost := {
  vname : string;
  swagger : bool;
  mapis : list MultiResponseApi;
  writeFileSync : option string
}.

Record Hapi := {
  virtualHosts : list VirtualHost;
  errors : list string
}.

(** [VirtualHost.prototype.gendoc]: [inr msg] is a thrown exception;
    failures of [addDoc] are pushed on the shared [errors] array. *)
Definition vhost_gendoc (v : VirtualHost) (errs : list string)
  : (unit + string) * list string :=
  if swagger v then
    (inl tt,
     foldl (λ es m, if private m then es
                    else match addDoc m with
                         | Some e => es ++ ["Failure in " +:+ name m +:+ ": " +:+ e]
                         | None => es
                         end) errs (mapis v))
  else (inr ("no swagger info found for virtual host " +:+ vname v), errs).

(** The body of the [for] loop over the virtual hosts, with its
    [try]/[catch]. *)
Definition gendoc_step (st : Z * list string) (v : VirtualHost) : Z * list string :=
  let '(result, errs) := st in
  let failure e es :=
    (2%Z, es ++ ["failure generating " +:+ vname v +:+ " virtual host documentation: " +:+ e]) in
  match vhost_gendoc v errs with
  | (inr e, errs') => failure e errs'
  | (inl _, errs') =>
      match writeFileSync v with
      | Some e => failure e errs'
      | None => (result, errs')
      end
  end.

(** [Hapi.prototype.gendoc]: the exit code and the final [errors]. *)
Definition gendoc (h : Hapi) : Z * list string :=
  let '(result, errs) := foldl gendoc_step (0%Z, errors h) (virtualHosts h) in
  if decide (0 < length errs) then (3%Z, errs) else (result, errs).

End Gendoc.

(** ** The planner's data: concrete APIs and the corpus *)

Module Api.

(** The [var_new] link of a constructor API: the names of its getter and of
    its destructor. *)
Record VarNew := { get : string; delete : string }.

(** A concrete [Api] object, as far as the planner reads it.  [oid] stands
    for the identity of the JavaScript object (every [new Api] is a new
    object), so that [===] on [Api] objects is equality of records.
    [mapiVars] lists the keys of [mapi.vars] that carry a [value]. *)
Record t := {
  oid : nat;
  name : string;
  consumes : list string;
  produces : list string;
  deletes : list string;
  var_new : option VarNew;
  mapiVars : list string
}.

#[global] Instance VarNew_eq_dec : EqDecision VarNew.
Proof. solve_decision. Defined.

#[global] Instance eq_dec : EqDecision t.
Proof. solve_decision. Defined.

End Api.

Module Hapi.

(** [apis] is the corpus ([hapi.apis]), [referencedApis] the names
    registered by [scanActions] and [scanHook], [vars] the keys of
    [hapi.vars]. *)
Record t := {
  apis : list Api.t;
  referencedApis : list string;
  vars : list string
}.

(** [Hapi.prototype.isInsertableApi]; [name.startsWith(r)] is
    [String.prefix r name]. *)
Fixpoint isInsertable_loop (refs : list string) (name : string) : bool :=
  match refs with
  | [] => true
  | r :: refs' => if String.prefix r name then false else isInsertable_loop refs' name
  end.

Definition isInsertableApi (h : t) (a : Api.t) : bool :=
  isInsertable_loop (referencedApis h) (Api.name a).

(** [Hapi.prototype.findApi]: [None] stands for the thrown error. *)
Fixpoint findApi_loop (l : list Api.t) (name : string) : option Api.t :=
  match l with
  | [] => None
  | a :: l' => if decide (Api.name a = name) then Some a else findApi_loop l' name
  end.

Definition findApi (h : t) (name : string) : option Api.t :=
  findApi_loop (apis h) name.

(** [Hapi.prototype.getApiProducers]. *)
Definition getApiProducers (h : t) (varName : string) : list Api.t :=
  foldl (λ acc a, if decide (varName ∈ Api.produces a)
                  then JsArray.addUniq acc a else acc) [] (apis h).

(** [Api.prototype.getPredefinedVars], through
    [MultiResponseApi.prototype.getPredefinedVars]. *)
Definition getPredefinedVars (h : t) (a : Api.t) : list string :=
  vars h ++ Api.mapiVars a.

End Hapi.

(** ** The planner: [Node] and the test tree *)

Module Node.

(** A [Node] object.  [parent], [children], [preRun] and [postRun] refer to
    other nodes by their position in the store.  The fields [path], [depth],
    [indent] and [id] only feed the log and are left out. *)
Record t := {
  api : option Api.t;
  parent : option nat;
  children : list nat;
  produces : list string;
  subTreeProduces : list string;
  inserting : gmap string bool;
  preRun : option nat;
  postRun : option nat
}.

(** The heap of [Node] objects; [new Node] allocates at the end. *)
Abbreviation Store := (list t).

(** The result of a planner call: a normal return with the heap it leaves,
    an exception ([findApi]'s, or "There are no producers of the ...
    variable") with the heap as mutated so far, or exhausted fuel. *)
Inductive error :=
| NoProducers (varName : string)
| ApiNotFound (name : string).

Inductive result (A : Type) :=
| Ok (x : A) (st : Store)
| Throw (e : error) (st : Store)
| OutOfFuel.
Arguments Ok {A} x st.
Arguments Throw {A} e st.
Arguments OutOfFuel {A}.

Definition store_of {A} (r : result A) : option Store :=
  match r with
  | Ok _ st | Throw _ st => Some st
  | OutOfFuel => None
  end.

Definition set_children (f : list nat → list nat) (n : t) : t :=
  {| api := api n; parent := parent n; children := f (children n);
     produces := produces n; subTreeProduces := subTreeProduces n;
     inserting := inserting n; preRun := preRun n; postRun := postRun n |}.

Definition set_produces (f : list string → list string) (n : t) : t :=
  {| api := api n; parent := parent n; children := children n;
     produces := f (produces n); subTreeProduces := subTreeProduces n;
     inserting := inserting n; preRun := preRun n; postRun := postRun n |}.

Definition set_subTreeProduces (f : list string → list string) (n : t) : t :=
  {| api := api n; parent := parent n; children := children n;
     produces := produces n; subTreeProduces := f (subTreeProduces n);
     inserting := inserting n; preRun := preRun n; postRun := postRun n |}.

Definition set_inserting (name : string) (b : bool) (n : t) : t :=
  {| api := api n; parent := parent n; children := children n;
     produces := produces n; subTreeProduces := subTreeProduces n;
     inserting := <[name := b]> (inserting n);
     preRun := preRun n; postRun := postRun n |}.

Definition set_preRun (p : nat) (n : t) : t :=
  {| api := api n; parent := parent n; children := children n;
     produces := produces n; subTreeProduces := subTreeProduces n;
     inserting := inserting n; preRun := Some p; postRun := postRun n |}.

Definition set_postRun (p : nat) (n : t) : t :=
  {| api := api n; parent := parent n; children := children n;
     produces := produces n; subTreeProduces := subTreeProduces n;
     inserting := inserting n; preRun := preRun n; postRun := Some p |}.

(** Field reads through a reference. *)
Definition apiOf (st : Store) (n : nat) : option Api.t := st !! n ≫= api.
Definition parentOf (st : Store) (n : nat) : option nat := st !! n ≫= parent.
Definition childrenOf (st : Store) (n : nat) : list nat :=
  default [] (children <$> st !! n).
Definition subTreeProducesOf (st : Store) (n : nat) : list string :=
  default [] (subTreeProduces <$> st !! n).
Definition producesOf (st : Store) (n : nat) : list string :=
  default [] (produces <$> st !! n).
Definition isInserting (st : Store) (n : nat) (name : string) : bool :=
  match st !! n ≫= (λ nd, inserting nd !! name) with
  | Some true => true
  | _ => false
  end.

(** The nodes visited by [while (node) { ...; node = node.parent; }]
    starting at [n].  A node is allocated after its parent, so the walk
    from [n] takes at most [n + 1] steps. *)
Fixpoint chain_fuel (fuel : nat) (st : Store) (n : nat) : list nat :=
  match fuel with
  | 0 => []
  | S fuel' =>
      n :: match parentOf st n with
           | Some p => chain_fuel fuel' st p
           | None => []
           end
  end.

Definition chain (st : Store) (n : nat) : list nat := chain_fuel (S n) st n.

(** [Node.prototype.addProduces]: [varNames] is one array, pruned in place
    by [pullAll] at every level on the way up. *)
Fixpoint addProduces_walk (st : Store) (ns : list nat) (varNames : list string) : Store :=
  match ns with
  | [] => st
  | n :: ns' =>
      let varNames' :=
        match apiOf st n with
        | Some a => JsArray.pullAll varNames (Api.deletes a)
        | None => varNames
        end in
      addProduces_walk
        (alter (set_produces (λ ps, JsArray.addAllUniq ps varNames')) n st)
        ns' varNames'
  end.

Definition addProduces (st : Store) (n : nat) (varNames : list string) : Store :=
  addProduces_walk st (chain st n) varNames.

(** The constructor [new Node(hapi, api, parent)]: the new reference and the
    heap. *)
Definition newNode (st : Store) (a : option Api.t) (p : option nat) : nat * Store :=
  let id := length st in
  let st1 := st ++ [ {| api := a; parent := p; children := [];
                        produces := []; subTreeProduces := [];
                        inserting := ∅; preRun := None; postRun := None |} ] in
  match a with
  | Some a' =>
      let st2 := addProduces st1 id (Api.produces a') in
      (id, alter (set_subTreeProduces (λ s, JsArray.addAllUniq s (Api.produces a'))) id st2)
  | None => (id, st1)
  end.

(** [Node.prototype.usesApi]. *)
Definition usesApi (st : Store) (self : nat) (a : Api.t) : bool :=
  existsb (λ n, bool_decide (apiOf st n = Some a)) (chain st self).

(** [Node.prototype.producesVar]. *)
Definition producesVar (st : Store) (self : nat) (varNames : list string) : bool :=
  existsb (λ v, bool_decide (v ∈ subTreeProducesOf st self)) varNames.

(** [Node.prototype.getUndefinedVars]. *)
Definition getUndefinedVars (h : Hapi.t) (st : Store) (self : nat) (a : Api.t)
  : list string :=
  JsArray.pullAll
    (foldl (λ undefinedVars n,
              match apiOf st n with
              | Some b => JsArray.pullAll undefinedVars (Api.produces b)
              | None => undefinedVars
              end) (Api.consumes a) (chain st self))
    (Hapi.getPredefinedVars h a).

(** The first child of [self] that hosts [a] (the first loop of
    [addChild]). *)
Definition findChild (st : Store) (self : nat) (a : Api.t) : option nat :=
  snd <$> list_find (λ c, apiOf st c = Some a) (childrenOf st self).

(** [self.postRun && api === self.postRun.api]. *)
Definition isPostRunOf (st : Store) (self : nat) (a : Api.t) : option nat :=
  match st !! self ≫= postRun with
  | Some p => if decide (apiOf st p = Some a) then Some p else None
  | None => None
  end.

(** The tail of [addChild]: push the new node and add its
    [subTreeProduces] to every node from [self] up to the root. *)
Definition linkChild (st : Store) (self node : nat) : Store :=
  let st1 := alter (set_children (λ cs, cs ++ [node])) self st in
  foldl (λ s tmpNode,
           alter (set_subTreeProduces
                    (λ x, JsArray.addAllUniq x (subTreeProducesOf s node))) tmpNode s)
        st1 (chain st1 self).

(** [Node.prototype.addChild]. *)
Fixpoint addChild (fuel : nat) (h : Hapi.t) (st : Store) (self : nat) (a : Api.t)
  : result nat :=
  match fuel with
  | 0 => OutOfFuel
  | S fuel' =>
      match findChild st self a with
      | Some c => Ok c st
      | None =>
          match isPostRunOf st self a with
          | Some p => Ok p st
          | None =>
              let '(node, st1) := newNode st (Some a) (Some self) in
              match Api.var_new a with
              | None => Ok node (linkChild st1 self node)
              | Some vn =>
                  match Hapi.findApi h (Api.get vn) with
                  | None => Throw (ApiNotFound (Api.get vn)) st1
                  | Some getApi =>
                      match Hapi.findApi h (Api.delete vn) with
                      | None => Throw (ApiNotFound (Api.delete vn)) st1
                      | Some deleteApi =>
                          let '(pre, st2) := newNode st1 (Some getApi) (Some node) in
                          let st3 := alter (set_preRun pre) node st2 in
                          match addChild fuel' h st3 pre deleteApi with
                          | Ok _ st4 =>
                              let '(post, st5) :=
                                newNode st4 (Some deleteApi) (Some node) in
                              let st6 := alter (set_postRun post) node st5 in
                              Ok node (linkChild st6 self node)
                          | Throw e st4 => Throw e st4
                          | OutOfFuel => OutOfFuel
                          end
                      end
                  end
              end
          end
      end
  end.

(** The loop of [insertApi] over [self.children]: the index [i] and the
    flag [found] are its variables; [self.children] is read again at every
    turn. *)
Fixpoint forChildren (body : Store → nat → result unit) (k : nat)
    (undefinedVars : list string) (self : nat) (i : nat) (found : bool)
    (st : Store) : result bool :=
  match k with
  | 0 => OutOfFuel
  | S k' =>
      match childrenOf st self !! i with
      | None => Ok found st
      | Some child =>
          if producesVar st child undefinedVars then
            match body st child with
            | Ok _ st' => forChildren body k' undefinedVars self (S i) true st'
            | Throw e st' => Throw e st'
            | OutOfFuel => OutOfFuel
            end
          else forChildren body k' undefinedVars self (S i) found st
      end
  end.

(** The loop of [insertApi] over the producers of the first undefined
    variable. *)
Fixpoint forProducers (body : Store → Api.t → result unit)
    (producers : list Api.t) (st : Store) : result unit :=
  match producers with
  | [] => Ok tt st
  | p :: producers' =>
      match body st p with
      | Ok _ st' => forProducers body producers' st'
      | Throw e st' => Throw e st'
      | OutOfFuel => OutOfFuel
      end
  end.

(** [Node.prototype.insertApi]. *)
Fixpoint insertApi (fuel : nat) (h : Hapi.t) (st : Store) (self : nat) (a : Api.t)
  : result unit :=
  match fuel with
  | 0 => OutOfFuel
  | S fuel' =>
      if isInserting st self (Api.name a) then Ok tt st
      else
        let st := alter (set_inserting (Api.name a) true) self st in
        if negb (Hapi.isInsertableApi h a) then Ok tt st
        else if usesApi st self a then Ok tt st
        else
          let undefinedVars := getUndefinedVars h st self a in
          match undefinedVars with
          | [] =>
              match addChild fuel' h st self a with
              | Ok _ st' => Ok tt st'
              | Throw e st' => Throw e st'
              | OutOfFuel => OutOfFuel
              end
          | varName :: _ =>
              match forChildren (λ s child, insertApi fuel' h s child a)
                      fuel' undefinedVars self 0 false st with
              | Ok true st1 => Ok tt st1
              | Ok false st1 =>
                  match Hapi.getApiProducers h varName with
                  | [] => Throw (NoProducers varName) st1
                  | producers =>
                      match forProducers (λ s p, insertApi fuel' h s self p)
                              producers st1 with
                      | Ok _ st2 =>
                          insertApi fuel' h
                            (alter (set_inserting (Api.name a) false) self st2)
                            self a
                      | Throw e st2 => Throw e st2
                      | OutOfFuel => OutOfFuel
                      end
                  end
              | Throw e st1 => Throw e st1
              | OutOfFuel => OutOfFuel
              end
          end
  end.

(** The root of the plan, [new Node(hapi)], is the first node of the heap. *)
Definition root : nat := 0.

Definition emptyTree : Store := snd (newNode [] None None).

(** The second loop of [Hapi.prototype.compile]: insert every selected API
    at a fresh root, collecting the caught exceptions with the name of the
    API they belong to.  [None]: an insertion did not end within the fuel.
    An insertion that recurses without end exhausts the call stack of the
    program; [compile] catches that [RangeError] like any other exception
    and goes on, with a heap that depends on where the stack ran out.  Such
    a compile is not followed here: what is proved of [compile] below is
    about the compiles in which every insertion returns or throws. *)
Fixpoint compileLoop (fuel : nat) (h : Hapi.t) (apisToInsert : list Api.t)
    (st : Store) (errors : list (string * error))
  : option (Store * list (string * error)) :=
  match apisToInsert with
  | [] => Some (st, errors)
  | a :: rest =>
      match insertApi fuel h st root a with
      | Ok _ st' => compileLoop fuel h rest st' errors
      | Throw e st' => compileLoop fuel h rest st' (errors ++ [(Api.name a, e)])
      | OutOfFuel => None
      end
  end.

Definition compile (fuel : nat) (h : Hapi.t) (apisToInsert : list Api.t)
  : option (Store * list (string * error)) :=
  compileLoop fuel h apisToInsert emptyTree [].

End Node.

(** ** Hook chains: [RunContext.prototype.runHook2] *)

Module Hook.

(** When a user function reports how it went: before it returns (it calls
    its callback at once, or throws), or after it has returned. *)
Inductive When := AtOnce | Later.

(** A user function hook [(ctx, cb)], as far as the chain observes it: it
    may call [ctx.setBreak(true)], it may set [ctx.fatal], and it reports
    [callbackError] (by calling its callback with it or, before it returns,
    by throwing it) at the time [calls]. *)
Record UserFn := {
  setsBreak : bool;
  setsFatal : bool;
  callbackError : option string;
  calls : When
}.

(** The [hook] field: a function, a string naming an API, or a value that
    is neither. *)
Inductive HookFn :=
| Func (f : UserFn)
| ApiName (name : string)
| Invalid.

(** A hook in object form; a bare function or string is the object without
    a [quit] field. *)
Record t := {
  hook : HookFn;
  quit : option (list Z)
}.

(** [HookContext]; [index] is the position in the list the recursion below
    walks. *)
Record HookContext := {
  break : bool;
  ignore : bool;
  fatal : bool
}.

(** How the run of an API as a subtree ends.  [Passed] and [Failed]: the
    callback of [runCtx.run] is called after the request was answered, and
    so after the hook function has returned; [runCtx.statusCode] is only
    set when the status received is not the expected one.  [FailedAtOnce]:
    the run fails before a request is sent and calls back before
    [runCtx.run] returns.  [Threw]: [runCtx.run] throws ("no var
    combinations", "serial_vars ... does not have a value"). *)
Inductive RunOutcome :=
| Passed
| Failed (err : string) (statusCode : option Z)
| FailedAtOnce (err : string) (statusCode : option Z)
| Threw (ex : string).

(** What [runHook2] does in the end.  [Callback]: it calls [cb], with an
    error or without one.  [Thrown]: an exception leaves [runHook2], with
    the context as it is then.  [Uncaught]: an exception is raised after the
    hook function has returned, outside every handler, and [cb] is not
    called. *)
Inductive result :=
| Callback (err : option string) (ctx : HookContext)
| Thrown (msg : string) (ctx : HookContext)
| Uncaught (msg : string).

(** [hook.quit.indexOf(runCtx.statusCode)]; [undefined] is in no list of
    numbers. *)
Definition quitIndex (quitList : list Z) (statusCode : option Z) : Z :=
  match statusCode with
  | Some c => JsArray.indexOf quitList c
  | None => (-1)%Z
  end.

(** [ctx.setBreak(true)]. *)
Definition setBreak (ctx : HookContext) : HookContext :=
  {| break := true; ignore := ignore ctx; fatal := fatal ctx |}.

(** A callback called inside the [try] of [runHook2]: an exception that
    leaves the callback is caught, and the [catch] calls the callback again,
    with the exception if [ctx.fatal] is set. *)
Definition inTry (cb : option string → HookContext → result)
    (err : option string) (ctx : HookContext) : result :=
  match cb err ctx with
  | Thrown ex ctx' => cb (if fatal ctx' then Some ex else None) ctx'
  | r => r
  end.

(** A callback called after the hook function has returned: nothing
    catches an exception that leaves it. *)
Definition afterReturn (cb : option string → HookContext → result)
    (err : option string) (ctx : HookContext) : result :=
  match cb err ctx with
  | Thrown ex _ => Uncaught ex
  | r => r
  end.

Section Run.

(** [findApi] finds the API or throws; [runApi] is the outcome of
    [runCtx.run] for it. *)
Variable findApi : string → bool.
Variable runApi : string → RunOutcome.

(** The branch of [runHook2] for a hook that is not an array, with the
    callback [cb] it was given. *)
Definition runHook2_hook (cb : option string → HookContext → result)
    (h : t) (ctx : HookContext) : result :=
  let quitList :=
    match quit h with
    | Some q => q
    | None => if ignore ctx then [404%Z] else []
    end in
  match hook h with
  | ApiName name =>
      if findApi name then
        match runApi name with
        | Passed => afterReturn cb None ctx
        | Failed err statusCode =>
            if decide (quitIndex quitList statusCode ≠ 0%Z)
            then afterReturn cb None (setBreak ctx)
            else afterReturn cb (Some err) ctx
        | FailedAtOnce err statusCode =>
            if decide (quitIndex quitList statusCode ≠ 0%Z)
            then inTry cb None (setBreak ctx)
            else inTry cb (Some err) ctx
        | Threw ex => cb (if fatal ctx then Some ex else None) ctx
        end
      else Thrown ("findAPI: '" +:+ name +:+ "' was NOT found") ctx
  | Invalid => Thrown "'hook' field must be either a string or a function" ctx
  | Func f =>
      let ctx' := {| break := if setsBreak f then true else break ctx;
                     ignore := ignore ctx;
                     fatal := if setsFatal f then true else fatal ctx |} in
      match calls f, callbackError f with
      | AtOnce, None => inTry cb None ctx'
      | AtOnce, Some ex => cb (if fatal ctx' then Some ex else None) ctx'
      | Later, None => afterReturn cb None ctx'
      | Later, Some ex => Uncaught ex
      end
  end.

(** [runHook2] for a hook that is not an array: [cb] is the callback of
    the caller. *)
Definition runHook2_one (h : t) (ctx : HookContext) : result :=
  runHook2_hook Callback h ctx.

(** The branch of [runHook2] for an array of hooks, from [ctx.index] on:
    the callback handed on for [hook[idx]] passes an error to [cb], stops at
    a break, and otherwise goes on with the next index. *)
Fixpoint runHook2_array (hooks : list t) (ctx : HookContext) : result :=
  match hooks with
  | [] => Callback None ctx
  | h :: rest =>
      let ctx1 := {| break := break ctx;
                     ignore := bool_decide (rest ≠ []);
                     fatal := fatal ctx |} in
      runHook2_hook
        (λ err ctx2,
           match err with
           | Some e => Callback (Some e) ctx2
           | None => if break ctx2 then Callback None ctx2 else runHook2_array rest ctx2
           end)
        h ctx1
  end.

End Run.

(** [new HookContext(vars, runContext)]. *)
Definition newContext : HookContext :=
  {| break := false; ignore := false; fatal := false |}.

End Hook.

(** ** The execution waterfall: [RunContext.prototype.doRun] *)

Module Waterfall.

Inductive stage :=
| PreRun | OnBeforeRun | Before | Main | AfterApi
| Children | AfterAll | OnAfterRun | PostRun.

#[global] Instance stage_eq_dec : EqDecision stage.
Proof. solve_decision. Defined.

(** What a stage does when it is entered: it calls its callback, with an
    error or without one, or it throws instead ([run] throws "no var
    combinations" or "serial_vars ... does not have a value" for [preRun],
    a child or [postRun]; [runHook2] throws for a hook that names a missing
    API or is malformed; a hook function or [getOpts] throws). *)
Inductive Outcome :=
| Calls (err : option string)
| Throws (ex : string).

Definition Outcomes := stage → Outcome.

(** The variables [state] and [cbErr] of [doRun], the stages entered so
    far (oldest first), and the exception that has left a stage, if any:
    nothing in [doRun] catches it, so that the waterfall does not go on and
    the final callback is not called. *)
Record St := {
  state : nat;
  cbErr : option string;
  trace : list stage;
  uncaught : option string
}.

(** [doHook] and [sendRequest] run their stage inside a [try] and hand a
    caught exception to the callback. *)
Definition caught (oc : Outcome) : Outcome :=
  match oc with
  | Calls err => Calls err
  | Throws ex => Calls (Some ex)
  end.

(** [if (!err) state = n; else if (!cbErr) cbErr = err;] *)
Definition advance (oc : Outcome) (s : stage) (n : nat) (st : St) : St :=
  match oc with
  | Calls None =>
      {| state := n; cbErr := cbErr st; trace := trace st ++ [s];
         uncaught := uncaught st |}
  | Calls (Some err) =>
      {| state := state st;
         cbErr := match cbErr st with Some e => Some e | None => Some err end;
         trace := trace st ++ [s]; uncaught := uncaught st |}
  | Throws ex =>
      {| state := state st; cbErr := cbErr st; trace := trace st ++ [s];
         uncaught := Some ex |}
  end.

(** [if (!cbErr) cbErr = err;] *)
Definition remember (oc : Outcome) (s : stage) (st : St) : St :=
  match oc with
  | Calls err =>
      {| state := state st;
         cbErr := match cbErr st with Some e => Some e | None => err end;
         trace := trace st ++ [s]; uncaught := uncaught st |}
  | Throws ex =>
      {| state := state st; cbErr := cbErr st; trace := trace st ++ [s];
         uncaught := Some ex |}
  end.

(** A task of the waterfall is only called when no exception has left an
    earlier one. *)
Definition task (f : St → St) (st : St) : St :=
  match uncaught st with
  | Some _ => st
  | None => f st
  end.

Section Stages.

Variable hasPreRun hasPostRun : bool.
Variable o : Outcomes.

Definition stage1 : St → St :=
  task (λ st,
    if negb hasPreRun
    then {| state := 1; cbErr := cbErr st; trace := trace st; uncaught := uncaught st |}
    else advance (o PreRun) PreRun 1 st).

Definition stage2 : St → St :=
  task (λ st, if decide (state st < 1) then st
              else advance (caught (o OnBeforeRun)) OnBeforeRun 2 st).

Definition stage3 : St → St :=
  task (λ st, if decide (state st < 2) then st else advance (o Before) Before 3 st).

Definition stage4 : St → St :=
  task (λ st, if decide (state st < 3) then st else advance (caught (o Main)) Main 4 st).

Definition stage5 : St → St :=
  task (λ st, if decide (state st < 4) then st else advance (o AfterApi) AfterApi 5 st).

Definition stage6 : St → St :=
  task (λ st, if decide (state st < 5) then st else advance (o Children) Children 6 st).

Definition stage7 : St → St :=
  task (λ st, if decide (state st < 5) then st else remember (o AfterAll) AfterAll st).

Definition stage8 : St → St :=
  task (λ st, if decide (state st < 2) then st
              else remember (caught (o OnAfterRun)) OnAfterRun st).

Definition stage9 : St → St :=
  task (λ st, if negb hasPostRun || bool_decide (state st < 3) then st
              else remember (o PostRun) PostRun st).

(** The nine tasks of [async.waterfall], in order, from [state = 0] and an
    unset [cbErr]; unless an exception has left a stage, the final callback
    receives [cbErr]. *)
Definition doRun : St :=
  stage9 (stage8 (stage7 (stage6 (stage5 (stage4 (stage3 (stage2 (stage1
    {| state := 0; cbErr := None; trace := []; uncaught := None |})))))))).

End Stages.

(** The stages that run inside a [try] of their own. *)
Definition guarded (s : stage) : bool :=
  match s with
  | OnBeforeRun | Main | OnAfterRun => true
  | _ => false
  end.

(** The error that a stage hands to its callback, if it calls it with
    one. *)
Definition failure (o : Outcomes) (s : stage) : option string :=
  match o s with
  | Calls err => err
  | Throws ex => if guarded s then Some ex else None
  end.




End Waterfall.

(** ** JavaScript values *)

Module Js.

(** The values that requests, descriptors and the variable environment
    hold.  Numbers are the integers (printed in decimal, which is what
    JavaScript does below 10^21); a function is known by its identity only;
    the properties of an object are listed in insertion order, each key
    once.  Properties inherited from [Object.prototype] are not modelled. *)
#[warnings="-register-all"]
Inductive value :=
| Undefined
| Null
| Bool (b : bool)
| Num (z : Z)
| Str (s : string)
| Fun (id : nat)
| Arr (l : list value)
| Obj (props : list (string * value)).

(** [!v] is [negb (truthy v)]. *)
Definition truthy (v : value) : bool :=
  match v with
  | Undefined | Null => false
  | Bool b => b
  | Num z => negb (z =? 0)%Z
  | Str s => negb (bool_decide (s = ""))
  | Fun _ | Arr _ | Obj _ => true
  end.

Definition isString (v : value) : bool :=
  match v with Str _ => true | _ => false end.

Definition isArray (v : value) : bool :=
  match v with Arr _ => true | _ => false end.

(** [util.isObject]: [typeof v === 'object' && v !== null]; it is only ever
    asked after [isArray] said no. *)
Definition isObject (v : value) : bool :=
  match v with Arr _ | Obj _ => true | _ => false end.

(** Reading and writing a property of an object given by its list. *)
Fixpoint lookupProp (props : list (string * value)) (k : string) : option value :=
  match props with
  | [] => None
  | (k', v) :: props' => if decide (k' = k) then Some v else lookupProp props' k
  end.

Fixpoint setProp (props : list (string * value)) (k : string) (v : value)
  : list (string * value) :=
  match props with
  | [] => [(k, v)]
  | (k', v') :: props' =>
      if decide (k' = k) then (k, v) :: props' else (k', v') :: setProp props' k v
  end.

(** [o[k]] where [o] is an object, an array or a primitive other than
    [null] and [undefined]: a missing property reads as [undefined]. *)
Definition getProp (o : value) (k : string) : value :=
  match o with
  | Obj props => default Undefined (lookupProp props k)
  | _ => Undefined
  end.

(** [o.hasOwnProperty(k)] for the keys the descriptors use. *)
Definition hasOwnProperty (o : value) (k : string) : bool :=
  match o with
  | Obj props => bool_decide (is_Some (lookupProp props k))
  | _ => false
  end.

(** [String(v)], the text a value takes in a concatenation or as the
    replacement of [String.prototype.replace]; [None] for a function, whose
    text is its source. *)
Fixpoint toText (v : value) : option string :=
  match v with
  | Undefined => Some "undefined"
  | Null => Some "null"
  | Bool true => Some "true"
  | Bool false => Some "false"
  | Num z => Some (pretty z)
  | Str s => Some s
  | Fun _ => None
  | Arr l =>
      (fix join (first : bool) (l : list value) : option string :=
         match l with
         | [] => Some ""
         | x :: l' =>
             match (match x with
                    | Undefined | Null => Some ""
                    | _ => toText x
                    end), join false l' with
             | Some sx, Some sl => Some ((if first then "" else ",") +:+ sx +:+ sl)
             | _, _ => None
             end
         end) true l
  | Obj _ => Some "[object Object]"
  end.

(** [lodash.isEqual]: deep comparison; arrays element by element, objects
    as sets of properties whatever their order. *)
Fixpoint isEqual (a b : value) : bool :=
  match a, b with
  | Undefined, Undefined => true
  | Null, Null => true
  | Bool x, Bool y => bool_decide (x = y)
  | Num x, Num y => bool_decide (x = y)
  | Str x, Str y => bool_decide (x = y)
  | Fun x, Fun y => bool_decide (x = y)
  | Arr xs, Arr ys =>
      (fix all2 (xs ys : list value) : bool :=
         match xs, ys with
         | [], [] => true
         | x :: xs', y :: ys' => isEqual x y && all2 xs' ys'
         | _, _ => false
         end) xs ys
  | Obj ps, Obj qs =>
      bool_decide (length ps = length qs) &&
      (fix all (ps : list (string * value)) : bool :=
         match ps with
         | [] => true
         | (k, x) :: ps' =>
             match lookupProp qs k with
             | Some y => isEqual x y
             | None => false
             end && all ps'
         end) ps
  | _, _ => false
  end.

(** The variable environment ([vars]): a dictionary from names to values. *)
Abbreviation env := (gmap string value).

(** [vars[name]]. *)
Definition getVar (vars : env) (name : string) : value :=
  default Undefined (vars !! name).

(** [===] on values of the model (structural; for functions, identity). *)
#[global] Instance value_eq_dec : EqDecision value.
Proof.
  refine (fix go (a b : value) {struct a} : Decision (a = b) :=
    match a, b with
    | Undefined, Undefined => left _
    | Null, Null => left _
    | Bool x, Bool y => cast_if (decide (x = y))
    | Num x, Num y => cast_if (decide (x = y))
    | Str x, Str y => cast_if (decide (x = y))
    | Fun x, Fun y => cast_if (decide (x = y))
    | Arr xs, Arr ys => cast_if (@list_eq_dec _ go xs ys)
    | Obj ps, Obj qs => cast_if (@list_eq_dec _ (@prod_eq_dec _ _ _ go) ps qs)
    | _, _ => right _
    end); try congruence.
Defined.

End Js.

(** ** Serialization queues: the head and the tail of [doRun] *)

Module Serial.

(** What [getSerialQueueName] gives: [null], a name, or the exception
    "serial_vars ... does not have a value"; [QUnsupported] when a variable
    holds a function, whose text the model does not know. *)
Inductive queueName :=
| QNull
| QName (s : string)
| QThrow (varName : string)
| QUnsupported.

(** The loop of [getSerialQueueName] from index [i] on. *)
Fixpoint queueName_loop (vars : Js.env) (svars : list string) (first : bool)
    (acc : string) : queueName :=
  match svars with
  | [] => QName acc
  | varName :: svars' =>
      let acc := if first then acc else acc +:+ "," in
      let varVal := Js.getVar vars varName in
      if negb (Js.truthy varVal) then QThrow varName
      else match Js.toText varVal with
           | Some txt => queueName_loop vars svars' false (acc +:+ varName +:+ "=" +:+ txt)
           | None => QUnsupported
           end
  end.

(** [RunContext.prototype.getSerialQueueName] for a node that has an API
    whose [serial_vars] is [None] (undefined) or an array. *)
Definition getSerialQueueName (serial_vars : option (list string)) (vars : Js.env)
  : queueName :=
  match serial_vars with
  | None => QNull
  | Some svars => queueName_loop vars svars true ""
  end.

(** The process-wide [hapi.serialQueues] (a queue holds run contexts, each
    with the callback of its [doRun]), the contexts that are inside their
    waterfall, each with the value of its local variable [queue] (the name
    of the array it refers to, or [None] for [undefined]), and the contexts
    whose callback has been called, oldest first. *)
Record State := {
  serialQueues : gmap string (list nat);
  running : gmap nat (option string);
  called : list nat
}.

Definition init : State :=
  {| serialQueues := ∅; running := ∅; called := [] |}.

(** The head of [doRun(callback, proceed)] for context [ctx], up to the
    start of the waterfall; [name] is the queue name when it is a string. *)
Definition doRun (s : State) (ctx : nat) (name : option string) (proceed : bool)
  : State :=
  match name with
  | Some queueName =>
      if negb (bool_decide (queueName = "")) && negb proceed then
        let queue := default [] (serialQueues s !! queueName) ++ [ctx] in
        let queues := <[queueName := queue]> (serialQueues s) in
        if decide (1 < length queue)
        then {| serialQueues := queues; running := running s; called := called s |}
        else {| serialQueues := queues;
                running := <[ctx := Some queueName]> (running s);
                called := called s |}
      else {| serialQueues := serialQueues s;
              running := <[ctx := None]> (running s);
              called := called s |}
  | None => {| serialQueues := serialQueues s;
               running := <[ctx := None]> (running s);
               called := called s |}
  end.

(** The last task of the waterfall of [ctx] ("Check the serial queue"):
    [inr] is the exception "program error: ctx should equal self". *)
Definition finish (s : State) (ctx : nat) : State + string :=
  match running s !! ctx with
  | None => inl s
  | Some None =>
      inl {| serialQueues := serialQueues s;
             running := delete ctx (running s);
             called := called s ++ [ctx] |}
  | Some (Some queueName) =>
      match default [] (serialQueues s !! queueName) with
      | ele :: queue =>
          if decide (ele = ctx) then
            let queues := <[queueName := queue]> (serialQueues s) in
            let s1 := {| serialQueues := queues;
                         running := delete ctx (running s);
                         called := called s |} in
            let s2 := match queue with
                      | next :: _ => doRun s1 next (Some queueName) true
                      | [] => s1
                      end in
            inl {| serialQueues := serialQueues s2;
                   running := running s2;
                   called := called s2 ++ [ctx] |}
          else inr "program error: ctx should equal self"
      | [] => inr "program error: ctx should equal self"
      end
  end.

(** What happens to the queues over time: a context enters [doRun] from
    its parent ([Arrive], with its queue name), or the waterfall of a
    running context reaches its last task ([Complete]). *)
Inductive event :=
| Arrive (ctx : nat) (name : option string)
| Complete (ctx : nat).

Definition step (s : State) (e : event) : State + string :=
  match e with
  | Arrive ctx name => inl (doRun s ctx name false)
  | Complete ctx => finish s ctx
  end.

Fixpoint steps (s : State) (es : list event) : State + string :=
  match es with
  | [] => inl s
  | e :: es' =>
      match step s e with
      | inl s' => steps s' es'
      | inr msg => inr msg
      end
  end.

End Serial.

(** ** Variable combinations: [getVarCombinations] and [RunContext.run] *)

Module VarComb.

(** [getVarCombinationsRecurse]: the combinations, and what is left of the
    array [names], which [shift] empties from the front. *)
Fixpoint getVarCombinationsRecurse (varsArray : list Js.env) (names : list string)
  : list Js.env * list string :=
  match names with
  | [] => (varsArray, [])
  | name :: names' =>
      if bool_decide (name = "") then (varsArray, names')
      else
        getVarCombinationsRecurse
          (flat_map (λ vars : Js.env,
                       match Js.getVar vars name with
                       | Js.Arr val => map (λ x, <[name := x]> vars) val
                       | _ => [vars]
                       end) varsArray)
          names'
  end.

(** [getVarCombinations(vars, names)] for an array [names]. *)
Definition getVarCombinations (vars : Js.env) (names : list string)
  : list Js.env * list string :=
  getVarCombinationsRecurse [vars] names.

(** The arrays [api.consumes] of the [Api] objects, by the identity of the
    object: two nodes that host one API share its array. *)
Abbreviation Heap := (gmap nat (list string)).

(** What [RunContext.prototype.run] goes on to do: throw "no var
    combinations", call [doRun] on itself, or run one fresh context per
    combination in series. *)
Inductive plan :=
| NoCombinations
| Direct (vars : Js.env)
| Series (varsArray : list Js.env).

(** [RunContext.prototype.run] for a context whose node hosts the API
    object [api] ([None] for the root). *)
Definition run (heap : Heap) (api : option nat) (vars : Js.env) : plan * Heap :=
  match api with
  | None => (Direct vars, heap)
  | Some a =>
      let '(varsArray, names') :=
        getVarCombinations vars (default [] (heap !! a)) in
      let heap' := <[a := names']> heap in
      match varsArray with
      | [] => (NoCombinations, heap')
      | [_] => (Direct vars, heap')
      | _ => (Series varsArray, heap')
      end
  end.

End VarComb.

(** ** Variable substitution: [getMatches], [resolveStr], [resolve2], [resolve] *)

Module Subst.

(** The class [\w] of the regular expression. *)
Definition isWordChar (c : ascii) : bool :=
  let n := nat_of_ascii c in
  ((48 <=? n) && (n <=? 57)) || ((65 <=? n) && (n <=? 90))
  || ((97 <=? n) && (n <=? 122)) || (n =? 95).

(** The longest prefix made of [\w] characters, and the rest. *)
Fixpoint spanWord (s : string) : string * string :=
  match s with
  | String c s' =>
      if isWordChar c
      then let '(w, r) := spanWord s' in (String c w, r)
      else (EmptyString, s)
  | EmptyString => (EmptyString, EmptyString)
  end.

(** The match of the regular expression of [getMatches] (a dollar sign
    followed by a word in braces, or else by a word; the word may be empty)
    at a dollar sign, given the text after it:
    the first alternative when a brace, a word and a closing brace follow,
    else the second. *)
Definition matchAt (rest : string) : string :=
  match rest with
  | String "{"%char rest' =>
      let '(w, r) := spanWord rest' in
      match r with
      | String "}"%char _ => "${" +:+ w +:+ "}"
      | _ => "$"
      end
  | _ => "$" +:+ fst (spanWord rest)
  end.

(** [getMatches]: all matches from left to right; [skip]
    counts the characters of the last match still to pass. *)
Fixpoint getMatches_from (skip : nat) (s : string) : list string :=
  match s with
  | EmptyString => []
  | String c s' =>
      match skip with
      | S k => getMatches_from k s'
      | 0 =>
          if bool_decide (c = "$"%char)
          then let m := matchAt s' in
               m :: getMatches_from (String.length m - 1) s'
          else getMatches_from 0 s'
      end
  end.

Definition getMatches (str : string) : list string := getMatches_from 0 str.

(** [normalizeVar]. *)
Definition normalizeVar (str : string) : string :=
  if negb (String.prefix "$" str) then str
  else if String.prefix "${" str
       then String.substring 2 (String.length str - 3) str
       else String.substring 1 (String.length str - 1) str.

(** The replacement text of [String.prototype.replace] for a string
    pattern: ["$$"] is a dollar, ["$&"] the match, ["$`"] the text before
    it and ["$'"] the text after it; there are no capture groups. *)
Fixpoint expandReplacement (before matched after : string) (r : string) : string :=
  match r with
  | String "$"%char (String c r' as tl) =>
      if bool_decide (c = "$"%char) then "$" +:+ expandReplacement before matched after r'
      else if bool_decide (c = "&"%char) then matched +:+ expandReplacement before matched after r'
      else if bool_decide (c = "`"%char) then before +:+ expandReplacement before matched after r'
      else if bool_decide (c = "'"%char) then after +:+ expandReplacement before matched after r'
      else "$" +:+ expandReplacement before matched after tl
  | String c r' => String c (expandReplacement before matched after r')
  | EmptyString => EmptyString
  end.

(** [str.replace(pattern, replacement)] for strings: the first occurrence
    only. *)
Definition replace (str pattern replacement : string) : string :=
  match String.index 0 pattern str with
  | None => str
  | Some i =>
      let before := String.substring 0 i str in
      let stop := i + String.length pattern in
      let after := String.substring stop (String.length str - stop) str in
      before +:+ expandReplacement before pattern after replacement +:+ after
  end.

Inductive error :=
| NotDefined (varName : string)
| UnableToResolve (val : Js.value).

(** A returned value, a thrown error, or a variable that holds a function
    (as a replacement it would be called, which the model cannot do). *)
Inductive result (A : Type) :=
| Ok (x : A)
| Throw (e : error)
| Unsupported.
Arguments Ok {A} x.
Arguments Throw {A} e.
Arguments Unsupported {A}.

Definition bind {A B} (r : result A) (f : A → result B) : result B :=
  match r with
  | Ok x => f x
  | Throw e => Throw e
  | Unsupported => Unsupported
  end.

(** [resolveStr] with the resolver of [resolve2]: the matches are those of
    the string as it came in; every one is looked up and replaced in
    turn. *)
Fixpoint resolveStr_loop (vars : Js.env) (matches : list string) (str : string)
  : result string :=
  match matches with
  | [] => Ok str
  | varStr :: matches' =>
      let varName := normalizeVar varStr in
      match Js.getVar vars varName with
      | Js.Undefined => Throw (NotDefined varName)
      | varVal =>
          match Js.toText varVal with
          | Some txt => resolveStr_loop vars matches' (replace str varStr txt)
          | None => Unsupported
          end
      end
  end.

Definition resolveStr (vars : Js.env) (str : string) : result string :=
  resolveStr_loop vars (getMatches str) str.

(** [resolve2(toResolve, vars)] for an environment [vars] (which is an
    object, so [!vars] is false). *)
Fixpoint resolve2 (vars : Js.env) (toResolve : Js.value) : result Js.value :=
  match toResolve with
  | Js.Str s =>
      if bool_decide (s = "") then Ok toResolve
      else bind (resolveStr vars s) (λ s', Ok (Js.Str s'))
  | Js.Arr l =>
      bind ((fix each (l : list Js.value) : result (list Js.value) :=
               match l with
               | [] => Ok []
               | ele :: l' =>
                   bind (resolve2 vars ele) (λ ele',
                   bind (each l') (λ l'', Ok (ele' :: l'')))
               end) l)
           (λ list, Ok (Js.Arr list))
  | Js.Obj props =>
      bind ((fix each (props obj : list (string * Js.value))
               : result (list (string * Js.value)) :=
               match props with
               | [] => Ok obj
               | (key, val) :: props' =>
                   bind (if bool_decide (key = "") then Ok key else resolveStr vars key)
                     (λ key',
                   bind (resolve2 vars val) (λ val',
                   each props' (Js.setProp obj key' val')))
               end) props [])
           (λ obj, Ok (Js.Obj obj))
  | _ => Ok toResolve
  end.

(** The [for] loop of [resolve], with [n] turns left. *)
Fixpoint resolve_loop (n : nat) (vars : Js.env) (val1 : Js.value)
  : result Js.value :=
  match n with
  | 0 => Throw (UnableToResolve val1)
  | S n' =>
      match resolve2 vars val1 with
      | Ok val2 =>
          if Js.isEqual val1 val2 then Ok val1 else resolve_loop n' vars val2
      | Throw e => Throw e
      | Unsupported => Unsupported
      end
  end.

(** [resolve(toResolve, vars)]: [count] runs from 1 to 49. *)
Definition resolve (vars : Js.env) (toResolve : Js.value) : result Js.value :=
  match resolve2 vars toResolve with
  | Ok val1 => resolve_loop 49 vars val1
  | Throw e => Throw e
  | Unsupported => Unsupported
  end.


(** [scanForVars] and [getVarNames]. *)
Fixpoint scanForVars (input : Js.value) (varList : list string) : list string :=
  match input with
  | Js.Str s =>
      foldl (λ acc varStr, JsArray.addUniq acc (normalizeVar varStr)) varList (getMatches s)
  | Js.Arr l =>
      (fix each (l : list Js.value) (varList : list string) : list string :=
         match l with
         | [] => varList
         | ele :: l' => each l' (scanForVars ele varList)
         end) l varList
  | Js.Obj props =>
      (fix each (props : list (string * Js.value)) (varList : list string) : list string :=
         match props with
         | [] => varList
         | (_, val) :: props' => each props' (scanForVars val varList)
         end) props varList
  | _ => varList
  end.

Definition getVarNames (input : Js.value) : list string := scanForVars input [].

End Subst.

(** ** Action and hook scanning: the [Api] constructor *)

Module Scan.

Inductive error :=
| MissingField (action field : string)
| MultipleVarNew
| VarNewWithoutPath
| NeedsSerialVars
| VarSetWithoutPath
| TypeError
| MissingHook
| InvalidHook.

Inductive result (A : Type) :=
| Ok (x : A)
| Throw (e : error).
Arguments Ok {A} x.
Arguments Throw {A} e.

Definition bind {A B} (r : result A) (f : A → result B) : result B :=
  match r with
  | Ok x => f x
  | Throw e => Throw e
  end.

(** The fields of the [Api] under construction that scanning writes, and
    [hapi.referencedApis], which all APIs share.  [requestBodyVars] is the
    sixth argument of the constructor ([None]: not given).  The array
    [actions] is left out: nothing below reads it. *)
Record State := {
  requestBodyVars : option (list string);
  var_new : Js.value;
  serial_vars : Js.value;
  produces : list Js.value;
  deletes : list Js.value;
  referencedApis : list Js.value
}.

Definition set_var_new (v : Js.value) (st : State) : State :=
  {| requestBodyVars := requestBodyVars st; var_new := v;
     serial_vars := serial_vars st; produces := produces st;
     deletes := deletes st; referencedApis := referencedApis st |}.

Definition set_serial_vars (v : Js.value) (st : State) : State :=
  {| requestBodyVars := requestBodyVars st; var_new := var_new st;
     serial_vars := v; produces := produces st;
     deletes := deletes st; referencedApis := referencedApis st |}.

Definition push_produces (v : Js.value) (st : State) : State :=
  {| requestBodyVars := requestBodyVars st; var_new := var_new st;
     serial_vars := serial_vars st; produces := produces st ++ [v];
     deletes := deletes st; referencedApis := referencedApis st |}.

Definition push_deletes (v : Js.value) (st : State) : State :=
  {| requestBodyVars := requestBodyVars st; var_new := var_new st;
     serial_vars := serial_vars st; produces := produces st;
     deletes := deletes st ++ [v]; referencedApis := referencedApis st |}.

Definition addReferenced (v : Js.value) (st : State) : State :=
  {| requestBodyVars := requestBodyVars st; var_new := var_new st;
     serial_vars := serial_vars st; produces := produces st;
     deletes := deletes st;
     referencedApis := JsArray.addUniq (referencedApis st) v |}.

(** [Api.prototype.actionCheck] for a single field name; [action] is
    [toScan[name]]. *)
Definition actionCheck (action : Js.value) (name field : string) : result unit :=
  match action with
  | Js.Undefined | Js.Null => Throw TypeError
  | _ => if Js.hasOwnProperty action field then Ok tt
         else Throw (MissingField name field)
  end.

(** [!path || path.length === 0]. *)
Definition noPath (path : option string) : bool :=
  match path with
  | None => true
  | Some p => bool_decide (p = "")
  end.

(** [case 'var_new'] of the switch; [vn] is [toScan.var_new]. *)
Definition scan_var_new (vn : Js.value) (path : option string) (st : State)
  : result State :=
  bind (actionCheck vn "var_new" "name") (λ _,
  bind (actionCheck vn "var_new" "get") (λ _,
  bind (actionCheck vn "var_new" "delete") (λ _,
  if Js.truthy (var_new st) then Throw MultipleVarNew
  else
    bind (if negb (Js.truthy (Js.getProp vn "path"))
          then if noPath path then Throw VarNewWithoutPath
               else match vn, path with
                    | Js.Obj props, Some p => Ok (Js.Obj (Js.setProp props "path" (Js.Str p)))
                    | _, _ => Ok vn
                    end
          else Ok vn) (λ vn',
    let st1 := set_var_new vn' st in
    let st2 := push_produces (Js.getProp vn' "name") st1 in
    let st3 := addReferenced (Js.getProp vn' "get") st2 in
    let st4 := addReferenced (Js.getProp vn' "delete") st3 in
    if Js.truthy (Js.getProp vn' "serial_vars")
    then Ok (set_serial_vars (Js.getProp vn' "serial_vars") st4)
    else match requestBodyVars st4 with
         | Some vars => Ok (set_serial_vars (Js.Arr (Js.Str <$> vars)) st4)
         | None => Throw NeedsSerialVars
         end)))).

(** [case 'var_set']; [vs] is [toScan.var_set].  The file is in strict
    mode, where setting [path] on a number or a boolean throws. *)
Definition scan_var_set (vs : Js.value) (path : option string) (st : State)
  : result State :=
  match vs with
  | Js.Undefined | Js.Null => Throw TypeError
  | _ =>
      if negb (Js.truthy (Js.getProp vs "path")) && negb (Js.truthy (Js.getProp vs "fcn"))
      then if noPath path then Throw VarSetWithoutPath
           else match vs with
                | Js.Str name => Ok (push_produces (Js.Str name) st)
                | Js.Bool _ | Js.Num _ => Throw TypeError
                | _ => Ok (push_produces (Js.getProp vs "name") st)
                end
      else Ok (push_produces (Js.getProp vs "name") st)
  end.

(** [case 'var_rename']. *)
Definition scan_var_rename (vr : Js.value) (st : State) : result State :=
  bind (actionCheck vr "var_rename" "from") (λ _,
  bind (actionCheck vr "var_rename" "to") (λ _,
  Ok (push_produces (Js.getProp vr "to") (push_deletes (Js.getProp vr "from") st)))).

(** The switch on [key]; [x] is [toScan[key]].  [case 'var_delete'] stores
    into [hapi.varDeleteApis], which no code ever sets: a [TypeError]. *)
Definition scanKey (key : string) (x : Js.value) (path : option string) (st : State)
  : result State :=
  if decide (key = "var_new") then scan_var_new x path st
  else if decide (key = "var_set") then scan_var_set x path st
  else if decide (key = "var_rename") then scan_var_rename x st
  else if decide (key = "var_delete") then Throw TypeError
  else Ok st.

(** The path handed down for the value under [key]. *)
Definition childPath (path : option string) (key : string) : option string :=
  match path with
  | Some p =>
      if negb (bool_decide (key = "__"))
      then Some ((if bool_decide (p = "") then p else p +:+ ".") +:+ key)
      else if bool_decide (key = "body") then Some "" else path
  | None => if bool_decide (key = "body") then Some "" else None
  end.

(** The path handed down for the elements of an array. *)
Definition elementPath (path : option string) : option string :=
  match path with
  | Some p => if bool_decide (p = "") then None else Some (p +:+ "[]")
  | None => None
  end.

(** [Api.prototype.scanActions].  The values it writes back into [toScan]
    (a defaulted [path]) are strings, which scanning passes over, so the
    recursion may read the value as it came in. *)
Fixpoint scanActions (toScan : Js.value) (path : option string) (st : State)
  : result State :=
  match toScan with
  | Js.Arr l =>
      (fix each (l : list Js.value) (st : State) : result State :=
         match l with
         | [] => Ok st
         | ele :: l' => bind (scanActions ele (elementPath path) st) (each l')
         end) l st
  | Js.Obj props =>
      (fix each (props : list (string * Js.value)) (st : State) : result State :=
         match props with
         | [] => Ok st
         | (key, x) :: props' =>
             bind (scanKey key x path st) (λ st1,
             bind (scanActions x (childPath path key) st1) (each props'))
         end) props st
  | _ => Ok st
  end.

(** [Api.prototype.scanHook], on [hapi.referencedApis]. *)
Fixpoint scanHook (hook : Js.value) (refs : list Js.value) : result (list Js.value) :=
  match hook with
  | Js.Arr l =>
      (fix each (l : list Js.value) (refs : list Js.value) : result (list Js.value) :=
         match l with
         | [] => Ok refs
         | h :: l' => bind (scanHook h refs) (each l')
         end) l refs
  | Js.Obj props =>
      (fix field (props : list (string * Js.value)) : result (list Js.value) :=
         match props with
         | [] => Throw MissingHook
         | (k, v) :: props' =>
             if decide (k = "hook")
             then if Js.truthy v then scanHook v refs else Throw MissingHook
             else field props'
         end) props
  | Js.Str s => if bool_decide (s = "") then Ok refs else Ok (JsArray.addUniq refs hook)
  | Js.Fun _ => Ok refs
  | Js.Undefined | Js.Null => Ok refs
  | Js.Bool b => if b then Throw InvalidHook else Ok refs
  | Js.Num z => if (z =? 0)%Z then Ok refs else Throw InvalidHook
  end.

(** The scanning part of the constructor [Api(mapi, name, req, scode, test,
    requestBodyVars)]: [response] is the clone of [mapi.responses[scode]]. *)
Definition construct (refs : list Js.value) (response test : Js.value)
    (bodyVars : option (list string)) : result State :=
  let declared :=
    match Js.getProp test "produces" with
    | Js.Arr l => l
    | _ => []
    end in
  let st0 := {| requestBodyVars := bodyVars;
                var_new := Js.Undefined;
                serial_vars := Js.getProp response "serial_vars";
                produces := foldl JsArray.addUniq [] declared;
                deletes := [];
                referencedApis := refs |} in
  bind (scanActions (Js.getProp response "body") (Some "") st0) (λ st1,
  bind (scanActions test None st1) (λ st2,
  bind (scanHook (Js.getProp test "before") (referencedApis st2)) (λ r1,
  bind (scanHook (Js.getProp test "afterApi") r1) (λ r2,
  bind (scanHook (Js.getProp test "afterAll") r2) (λ r3,
  Ok {| requestBodyVars := requestBodyVars st2; var_new := var_new st2;
        serial_vars := serial_vars st2; produces := produces st2;
        deletes := deletes st2; referencedApis := r3 |}))))).

(** The call in [MultiResponseApi.prototype.getApis]: the sixth argument
    is [getVarNames(test.request.body)]. *)
Definition constructFromTest (refs : list Js.value) (response test : Js.value)
  : result State :=
  construct refs response test
    (Some (Subst.getVarNames (Js.getProp (Js.getProp test "request") "body"))).

End Scan.

(** ** The selection of the APIs to insert: the first loop of [Hapi.prototype.compile] *)

Module Select.

(** A [MultiResponseApi] as the loop sees it: its [groups] when [matches]
    is called, and the [Api] objects [getApis] returns for it. *)
Record Mapi := {
  groups : list string;
  getApis : list Api.t
}.

(** [MultiResponseApi.prototype.matches]; [names] is [None] when
    [testNames] is undefined. *)
Definition matches (m : Mapi) (names : option (list string)) : bool :=
  match names with
  | None => true
  | Some ns => existsb (λ group, existsb (λ name, String.prefix name group) ns) (groups m)
  end.

(** The loop over [k]: it runs while [match] is false, and leaves in
    [match] whether [api.name] starts with one of the test names. *)
Definition matchName (names : option (list string)) (match_ : bool) (a : Api.t) : bool :=
  match_ ||
  match names with
  | Some ns => existsb (λ name, String.prefix name (Api.name a)) ns
  | None => false
  end.

(** The loop over the APIs of one [mapi]; the variable [match] is the one
    of the enclosing loop and is not reset from one API to the next. *)
Fixpoint selectApis (names : option (list string)) (match_ : bool) (apis : list Api.t)
    (st : list Api.t * list Api.t) : list Api.t * list Api.t :=
  match apis with
  | [] => st
  | a :: apis' =>
      let '(allApis, apisToInsert) := st in
      let match' := matchName names match_ a in
      selectApis names match' apis'
        (allApis ++ [a], if match' then apisToInsert ++ [a] else apisToInsert)
  end.

(** The loop over [self.mapis]: [hapi.apis] and [apisToInsert] at its
    end. *)
Definition select (names : option (list string)) (mapis : list Mapi)
  : list Api.t * list Api.t :=
  foldl (λ st m, selectApis names (matches m names) (getApis m) st) ([], []) mapis.

End Select.

(** ** Variable references in the generated documentation *)

Module Doc.

(** [normalizeVarForDoc]. *)
Definition normalizeVarForDoc (str : string) : string :=
  if negb (String.prefix "$" str) then str
  else if String.prefix "${" str
       then String.substring 1 (String.length str - 1) str
       else "{" +:+ String.substring 1 (String.length str - 1) str +:+ "}".

(** [normalizePathForDoc]: the matches are those of the path as it came
    in; each is replaced in turn. *)
Definition normalizePathForDoc (path : string) : string :=
  foldl (λ p varStr, Subst.replace p varStr (normalizeVarForDoc varStr))
        path (Subst.getMatches path).

End Doc.

(** ** Merging descriptors: [merge] *)

Module Merge.

(** [merge(obj1, obj2, obj2HasPrecedence)]; the value returned is [obj1]
    after the updates.  With nothing to merge ([obj2] undefined or null)
    [obj1] is returned as it is.  A key that both objects have and whose
    two values are objects or arrays is merged by a call without the third
    argument.  [None]: an array takes part in the merge, or [obj1] is no
    object, which the embedding leaves out. *)
Fixpoint merge (obj2HasPrecedence : bool) (obj1 obj2 : Js.value) {struct obj2}
  : option Js.value :=
  match obj2 with
  | Js.Undefined | Js.Null => Some obj1
  | Js.Obj props2 =>
      match obj1 with
      | Js.Obj props1 =>
          Js.Obj <$>
          (fix each (props2 acc : list (string * Js.value))
             : option (list (string * Js.value)) :=
             match props2 with
             | [] => Some acc
             | (key, val2) :: rest =>
                 match Js.lookupProp acc key with
                 | Some val1 =>
                     if Js.isObject val1 && Js.isObject val2 then
                       match merge false val1 val2 with
                       | Some merged => each rest (Js.setProp acc key merged)
                       | None => None
                       end
                     else if obj2HasPrecedence then each rest (Js.setProp acc key val2)
                     else each rest acc
                 | None => each rest (Js.setProp acc key val2)
                 end
             end) props2 props1
      | _ => None
      end
  | _ => None
  end.

End Merge.

(** ** Reading a value at a path: [getVal] *)

Module GetVal.

(** The characters the regular expression of [getVal] looks for: a dot or
    a square bracket. *)
Definition isSep (c : ascii) : bool :=
  bool_decide (c = "."%char) || bool_decide (c = "["%char) || bool_decide (c = "]"%char).

(** The turns of the [while] loop: the [part] of each turn with the
    separator found after it ([None]: the end of the string was reached,
    [sep] is [null]).  The loop ends when nothing is left of [str], so a
    separator at the very end is followed by no turn. *)
Fixpoint turns (str : string) : list (string * option ascii) :=
  match str with
  | EmptyString => []
  | String c str' =>
      if isSep c then (EmptyString, Some c) :: turns str'
      else match turns str' with
           | (part, sep) :: rest => (String c part, sep) :: rest
           | [] => [(String c EmptyString, None)]
           end
  end.

(** [arr[part]] for an array: the element whose index has the decimal
    text [part] (digits without a leading zero). *)
Fixpoint element (i : nat) (l : list Js.value) (part : string) : Js.value :=
  match l with
  | [] => Js.Undefined
  | x :: l' => if bool_decide (part = pretty i) then x else element (S i) l' part
  end.

(** [obj[part]] for the values of a response body: an own property of an
    object; an element or the length of an array.  Properties inherited
    from a prototype are not modelled. *)
Definition member (obj : Js.value) (part : string) : Js.value :=
  match obj with
  | Js.Obj props => default Js.Undefined (Js.lookupProp props part)
  | Js.Arr l =>
      if bool_decide (part = "length") then Js.Num (Z.of_nat (length l))
      else element 0 l part
  | _ => Js.Undefined
  end.

Inductive error :=
| NotFound (path : string) (origObj : Js.value)
| EmptyArray (path : string) (origObj : Js.value)
| TypeError.

Inductive result :=
| Ok (v : Js.value)
| Throw (e : error)
| Unsupported.

(** The elements that the loop over [obj.length] visits, for a value that
    is neither [undefined] nor [null]; [None] for a value whose [length]
    the embedding does not know (a string, a function, an object with a
    property [length]). *)
Definition elements (obj : Js.value) : option (list Js.value) :=
  match obj with
  | Js.Arr l => Some l
  | Js.Obj props => if Js.hasOwnProperty obj "length" then None else Some []
  | Js.Str _ | Js.Fun _ => None
  | _ => Some []
  end.

(** All results, or the first that is not a value. *)
Fixpoint collect (rs : list result) : Js.value + result :=
  match rs with
  | [] => inl (Js.Arr [])
  | Ok v :: rs' =>
      match collect rs' with
      | inl (Js.Arr vs) => inl (Js.Arr (v :: vs))
      | other => other
      end
  | r :: _ => inr r
  end.

(** [sep] as the next turn finds it in [lastSep]. *)
Definition sepText (sep : option ascii) : string :=
  match sep with
  | Some c => String c EmptyString
  | None => EmptyString
  end.

(** The [while] loop of [getVal] from one of its turns on: [obj], [lastSep]
    (the separator of the turn before; the empty string at the start) and
    [path] are its variables. *)
Fixpoint loop (ts : list (string * option ascii)) (origObj obj : Js.value)
    (lastSep : string) (path : string) : result :=
  match ts with
  | [] => Ok obj
  | (part, sep) :: rest =>
      let path := path +:+ lastSep +:+ part in
      let path := if bool_decide (lastSep = "[") then path +:+ "]" else path in
      if bool_decide (part = "") then
        if bool_decide (lastSep = "[") && bool_decide (sep = Some "]"%char) then
          match obj with
          | Js.Undefined | Js.Null => Throw TypeError
          | _ =>
              match elements obj with
              | Some l =>
                  match collect (map (λ e, loop rest e e "" "") l) with
                  | inl (Js.Arr []) => Throw (EmptyArray path origObj)
                  | inl v => Ok v
                  | inr r => r
                  end
              | None => Unsupported
              end
          end
        else loop rest origObj obj (sepText sep) path
      else
        match obj with
        | Js.Undefined | Js.Null => Throw TypeError
        | Js.Str _ | Js.Fun _ => Unsupported
        | _ =>
            if Js.truthy (member obj part)
            then loop rest origObj (member obj part) (sepText sep) path
            else Throw (NotFound path origObj)
        end
  end.

(** [getVal(obj, str)]. *)
Definition getVal (obj : Js.value) (str : string) : result :=
  loop (turns str) obj obj "" "".

End GetVal.

(** ** Response actions: [performActions] *)

Module Actions.

Inductive error :=
| NoBody
| NotJson (contentType : string)
| FromGetVal (e : GetVal.error)
| FromResolve (e : Subst.error)
| NoValuePathFcn (action : Js.value)
| InvalidAction (action : Js.value).

(** The variables after the actions, an exception with the variables as
    the actions before it left them, or a step the embedding leaves out (a
    [fcn] to call, a name that is no string). *)
Inductive result :=
| Ok (vars : Js.env)
| Throw (e : error) (vars : Js.env)
| Unsupported.

(** [checkForJsonResponse(contentType, body)]: the error it throws, if
    any. *)
Definition checkForJsonResponse (contentType : string) : option error :=
  if bool_decide (contentType = "") then Some NoBody
  else if negb (String.prefix "application/json" contentType)
       then Some (NotJson contentType)
       else None.

(** [RunContext.prototype.setVar], [renameVar] and [delVar]. *)
Definition setVar (vars : Js.env) (name : string) (val : Js.value) : Js.env :=
  <[name := val]> vars.

Definition renameVar (vars : Js.env) (from to : string) : Js.env :=
  <[to := Js.getVar vars from]> (delete from vars).

Definition delVar (vars : Js.env) (name : string) : Js.env :=
  delete name vars.

(** The value of a [var_new] or [var_set] action: [inl] the value, [inr]
    what happens instead. *)
Definition actionValue (contentType : string) (body : Js.value) (vars : Js.env)
    (action : Js.value) : Js.value + result :=
  if Js.truthy (Js.getProp action "value") then
    match Subst.resolve vars (Js.getProp action "value") with
    | Subst.Ok v => inl v
    | Subst.Throw e => inr (Throw (FromResolve e) vars)
    | Subst.Unsupported => inr Unsupported
    end
  else if Js.truthy (Js.getProp action "path") then
    match checkForJsonResponse contentType with
    | Some e => inr (Throw e vars)
    | None =>
        match Js.getProp action "path" with
        | Js.Str path =>
            match GetVal.getVal body path with
            | GetVal.Ok v => inl v
            | GetVal.Throw e => inr (Throw (FromGetVal e) vars)
            | GetVal.Unsupported => inr Unsupported
            end
        | _ => inr Unsupported
        end
    end
  else if Js.truthy (Js.getProp action "fcn") then
    match checkForJsonResponse contentType with
    | Some e => inr (Throw e vars)
    | None => inr Unsupported
    end
  else inr (Throw (NoValuePathFcn action) vars).

(** One turn of the loop of [performActions]. *)
Definition performAction (contentType : string) (body : Js.value) (vars : Js.env)
    (action : Js.value) : result :=
  let var_new := Js.getProp action "var_new" in
  let var_set := Js.getProp action "var_set" in
  if Js.truthy var_new || Js.truthy var_set then
    let action' := if Js.truthy var_new then var_new else var_set in
    match actionValue contentType body vars action' with
    | inl value =>
        match Js.getProp action' "name" with
        | Js.Str name => Ok (setVar vars name value)
        | _ => Unsupported
        end
    | inr r => r
    end
  else if Js.truthy (Js.getProp action "var_rename") then
    let action' := Js.getProp action "var_rename" in
    match Js.getProp action' "from", Js.getProp action' "to" with
    | Js.Str from, Js.Str to => Ok (renameVar vars from to)
    | _, _ => Unsupported
    end
  else if Js.truthy (Js.getProp action "var_delete") then
    match Js.getProp (Js.getProp action "var_delete") "name" with
    | Js.Str name => Ok (delVar vars name)
    | _ => Unsupported
    end
  else Throw (InvalidAction action) vars.

(** [RunContext.prototype.performActions]. *)
Fixpoint performActions (contentType : string) (body : Js.value) (actions : list Js.value)
    (vars : Js.env) : result :=
  match actions with
  | [] => Ok vars
  | action :: rest =>
      match performAction contentType body vars action with
      | Ok vars' => performActions contentType body rest vars'
      | other => other
      end
  end.

End Actions.

(* ===================================================================== *)
(** * Part II: the vocabulary of the statements                           *)
(* ===================================================================== *)

(** ** Insertable APIs *)

(** The claim's wording: the name of the API is not a prefix of any
    referenced API name. *)
Definition claimedInsertable (h : Hapi.t) (a : Api.t) : Prop :=
  ∀ r, r ∈ Hapi.referencedApis h → String.prefix (Api.name a) r = false.

(** ** Constructors and [serial_vars] *)

(** What scanning keeps once the constructor has got the request body
    variables [vars]: they stay, and a [var_new] without a [serial_vars] of
    its own leaves [serial_vars] at [vars]. *)
Definition serialDefault (vars : list string) (st : Scan.State) : Prop :=
  Scan.requestBodyVars st = Some vars ∧
  (Js.truthy (Scan.var_new st) = true →
   Js.truthy (Js.getProp (Scan.var_new st) "serial_vars") = false →
   Scan.serial_vars st = Js.Arr (Js.Str <$> vars)).

(** ** Plans *)

Module Plan.
Import Node.

(** A field update that leaves [api], [parent] and [children] alone. *)
Definition keepsShape (f : t → t) : Prop :=
  ∀ x, api (f x) = api x ∧ parent (f x) = parent x ∧ children (f x) = children x.

(** Two heaps with the same nodes, as far as the tree goes. *)
Definition sameShape (st st' : Store) : Prop :=
  length st' = length st ∧
  ∀ n, apiOf st' n = apiOf st n ∧ parentOf st' n = parentOf st n ∧
       childrenOf st' n = childrenOf st n.

(** A heap that has grown: the nodes it had keep their API and their
    parent, and their list of children has at most grown at the end. *)
Definition grows (st st' : Store) : Prop :=
  length st ≤ length st' ∧
  ∀ n, n < length st →
       apiOf st' n = apiOf st n ∧ parentOf st' n = parentOf st n ∧
       childrenOf st n `prefix_of` childrenOf st' n.

(** Well-formed heaps: the root is there and hosts no API, a parent is
    older than its child, and children exist. *)
Definition wf (st : Store) : Prop :=
  0 < length st ∧ apiOf st root = None ∧
  (∀ n p, parentOf st n = Some p → p < n) ∧
  (∀ p c, c ∈ childrenOf st p → c < length st).

(** The nodes of the plan: the root and, from there, children of
    children. *)
Inductive inTree (st : Store) : nat → Prop :=
| inTree_root : inTree st root
| inTree_child p c : inTree st p → c ∈ childrenOf st p → inTree st c.

(** The nodes of the compiled tree, satellites included: the root and,
    from there, children and the [preRun] and [postRun] nodes. *)
Inductive inPlan (st : Store) : nat → Prop :=
| inPlan_root : inPlan st root
| inPlan_child p c : inPlan st p → c ∈ childrenOf st p → inPlan st c
| inPlan_preRun p c : inPlan st p → st !! p ≫= preRun = Some c → inPlan st c
| inPlan_postRun p c : inPlan st p → st !! p ≫= postRun = Some c → inPlan st c.

(** [m] is [n] or an ancestor of [n]. *)
Inductive ancestorOrSelf (st : Store) : nat → nat → Prop :=
| ancestorOrSelf_self n : ancestorOrSelf st n n
| ancestorOrSelf_parent n p m :
    parentOf st n = Some p → ancestorOrSelf st p m → ancestorOrSelf st n m.

(** What [addChild] may have done to the children of [self]: nothing, or
    one new node at the end, which hosts [a] and has no children. *)
Definition appended (st st' : Store) (self : nat) (a : Api.t) : Prop :=
  childrenOf st' self = childrenOf st self ∨
  ∃ c, childrenOf st' self = childrenOf st self ++ [c] ∧ length st ≤ c ∧
       apiOf st' c = Some a ∧ parentOf st' c = Some self ∧ childrenOf st' c = [].

(** Every node of the plan below the root was appended where its API had
    no undefined variable. *)
Definition treeOk (h : Hapi.t) (st : Store) : Prop :=
  ∀ p c, inTree st p → c ∈ childrenOf st p →
    ∃ a, apiOf st c = Some a ∧ parentOf st c = Some p ∧
         getUndefinedVars h st p a = [].

Definition planOk (h : Hapi.t) (st : Store) : Prop := wf st ∧ treeOk h st.

(** What a call of the planner at a node of the plan does to a plan that
    satisfies the invariant. *)
Definition keepsPlan (h : Hapi.t) (body : Store → nat → result unit) : Prop :=
  ∀ s n r s', body s n = r → store_of r = Some s' →
              planOk h s → inTree s n → planOk h s' ∧ grows s s'.

(** Every variable the API of node [n] consumes is produced by the API of
    [n] or of one of its ancestors, or is predefined. *)
Definition dependenciesMet (h : Hapi.t) (st : Store) (n : nat) : Prop :=
  ∀ a v, apiOf st n = Some a → v ∈ Api.consumes a →
    (∃ m b, ancestorOrSelf st n m ∧ apiOf st m = Some b ∧ v ∈ Api.produces b) ∨
    v ∈ Hapi.getPredefinedVars h a.

(** The corpus of the producer-seeding scenario: [useX] needs [x], and
    [makeX] is its only producer. *)
Definition makeX : Api.t :=
  {| Api.oid := 0; Api.name := "makeX"; Api.consumes := []; Api.produces := ["x"];
     Api.deletes := []; Api.var_new := None; Api.mapiVars := [] |}.
Definition useX : Api.t :=
  {| Api.oid := 1; Api.name := "useX"; Api.consumes := ["x"]; Api.produces := [];
     Api.deletes := []; Api.var_new := None; Api.mapiVars := [] |}.
Definition corpus : Hapi.t :=
  {| Hapi.apis := [makeX; useX]; Hapi.referencedApis := []; Hapi.vars := [] |}.
Definition seededPlan : Store :=
  match compile 10 corpus [useX] with
  | Some (st, _) => st
  | None => []
  end.

(** A constructor API with its getter and its destructor; the
    destructor needs a [token] that nothing produces. *)
Definition createApp : Api.t :=
  {| Api.oid := 0; Api.name := "createApp"; Api.consumes := [];
     Api.produces := ["appGuid"]; Api.deletes := [];
     Api.var_new := Some {| Api.get := "getApp"; Api.delete := "delApp" |};
     Api.mapiVars := [] |}.
Definition getApp : Api.t :=
  {| Api.oid := 1; Api.name := "getApp"; Api.consumes := ["appName"];
     Api.produces := ["appGuid"]; Api.deletes := []; Api.var_new := None;
     Api.mapiVars := [] |}.
Definition delApp : Api.t :=
  {| Api.oid := 2; Api.name := "delApp"; Api.consumes := ["appGuid"; "token"];
     Api.produces := []; Api.deletes := ["appGuid"]; Api.var_new := None;
     Api.mapiVars := [] |}.
Definition appCorpus : Hapi.t :=
  {| Hapi.apis := [createApp; getApp; delApp];
     Hapi.referencedApis := ["getApp"; "delApp"]; Hapi.vars := [] |}.
Definition appPlan : Store :=
  match compile 10 appCorpus [createApp; getApp; delApp] with
  | Some (st, _) => st
  | None => []
  end.

End Plan.

(** ** Further vocabulary *)

(** A virtual host whose documentation is generated and written without an
    error: it has swagger information, [addDoc] succeeds for every [mapi]
    that is not private, and the file is written. *)
Definition vhostClean (v : Gendoc.VirtualHost) : Prop :=
  Gendoc.swagger v = true ∧ Gendoc.writeFileSync v = None ∧
  Forall (λ m, Gendoc.private m = false → Gendoc.addDoc m = None) (Gendoc.mapis v).

(** A hook that is a user function that does not set [ctx.fatal]. *)
Definition quietFunction (h : Hook.t) : Prop :=
  ∃ f, Hook.hook h = Hook.Func f ∧ Hook.setsFatal f = false.

(** The error that a user function reports after it has returned. *)
Definition lateError (h : Hook.t) : option string :=
  match Hook.hook h with
  | Hook.Func f =>
      match Hook.calls f with
      | Hook.Later => Hook.callbackError f
      | Hook.AtOnce => None
      end
  | _ => None
  end.

(** How a chain of functions that leave [ctx.fatal] alone may end: its
    callback is called, without an error, and the break flag is set iff one
    of the functions set it; or a function has reported an error after it
    had returned, and the exception is uncaught. *)
Definition quietEnd (hooks : list Hook.t) (r : Hook.result) : Prop :=
  match r with
  | Hook.Callback err ctx' =>
      err = None ∧ Hook.fatal ctx' = false ∧
      (Hook.break ctx' = true ↔
       ∃ h f, h ∈ hooks ∧ Hook.hook h = Hook.Func f ∧ Hook.setsBreak f = true)
  | Hook.Uncaught ex => ∃ h, h ∈ hooks ∧ lateError h = Some ex
  | Hook.Thrown _ _ => False
  end.

(** A value that [getSerialQueueName] accepts: it is truthy and has a text
    the embedding knows. *)
Definition hasValue (vars : Js.env) (name : string) : Prop :=
  Js.truthy (Js.getVar vars name) = true ∧ is_Some (Js.toText (Js.getVar vars name)).

(** The number of values a variable offers: the length of its array, or one
    for a value that is no array. *)
Definition choices (vars : Js.env) (name : string) : nat :=
  match Js.getVar vars name with
  | Js.Arr val => length val
  | _ => 1
  end.


(** The APIs of a [mapi] from the first one on whose name starts with one
    of the test names. *)
Fixpoint fromFirstNamed (names : list string) (apis : list Api.t) : list Api.t :=
  match apis with
  | [] => []
  | a :: apis' =>
      if existsb (λ name, String.prefix name (Api.name a)) names then a :: apis'
      else fromFirstNamed names apis'
  end.

(** What [compile] selects of one [mapi]. *)
Definition selectedOf (names : option (list string)) (m : Select.Mapi) : list Api.t :=
  match names with
  | None => Select.getApis m
  | Some ns => if Select.matches m names then Select.getApis m
               else fromFirstNamed ns (Select.getApis m)
  end.

(** A word of the regular expression: letters, digits and underscores. *)
Fixpoint isWord (s : string) : bool :=
  match s with
  | EmptyString => true
  | String c s' => Subst.isWordChar c && isWord s'
  end.

(** The two forms of a variable reference with the name [w]. *)
Definition isReference (m w : string) : Prop :=
  isWord w = true ∧ (m = "$" +:+ w ∨ m = "${" +:+ w +:+ "}").

(** What [scanForVars] keeps of a list of names: no duplicates, and only
    words. *)
Definition namesOk (varList : list string) : Prop :=
  NoDup varList ∧ Forall (λ n, isWord n = true) varList.

(** The strings that a value holds as a value: the value itself, the
    elements of an array and the values of the properties of an object, at
    any depth; the keys of an object are not among them. *)
Fixpoint textsOf (x : Js.value) : list string :=
  match x with
  | Js.Str s => [s]
  | Js.Arr l => flat_map textsOf l
  | Js.Obj props =>
      (fix each (props : list (string * Js.value)) : list string :=
         match props with
         | [] => []
         | (_, val) :: props' => textsOf val ++ each props'
         end) props
  | _ => []
  end.

(** The variable [n] is referenced in the string [s]. *)
Definition referencedIn (s n : string) : Prop :=
  ∃ m, m ∈ Subst.getMatches s ∧ n = Subst.normalizeVar m.

(** No key of an object inside the value holds a variable reference. *)
Fixpoint keysPlain (x : Js.value) : bool :=
  match x with
  | Js.Arr l => forallb keysPlain l
  | Js.Obj props =>
      forallb (λ kv, match Subst.getMatches kv.1 with [] => keysPlain kv.2 | _ => false end)
              props
  | _ => true
  end.

(** A variable that substitution can use: it is defined, and its value has
    a text the embedding knows. *)
Definition defined (vars : Js.env) (n : string) : Prop :=
  Js.getVar vars n ≠ Js.Undefined ∧ is_Some (Js.toText (Js.getVar vars n)).

(** The value is an object with the key [key], or holds one at any depth
    that scanning reaches (scanning passes over what is falsy). *)
Fixpoint hasKeyDeep (key : string) (x : Js.value) : bool :=
  match x with
  | Js.Arr l => existsb (hasKeyDeep key) l
  | Js.Obj props => existsb (λ kv, bool_decide (kv.1 = key) || hasKeyDeep key kv.2) props
  | _ => false
  end.

(** The names of APIs in a hook: a string hook names one; an array holds
    hooks; an object holds a hook in its field [hook]. *)
Fixpoint hookNames (hook : Js.value) : list string :=
  match hook with
  | Js.Str s => if bool_decide (s = "") then [] else [s]
  | Js.Arr l => flat_map hookNames l
  | Js.Obj props =>
      (fix field (props : list (string * Js.value)) : list string :=
         match props with
         | [] => []
         | (k, v) :: props' => if decide (k = "hook") then hookNames v else field props'
         end) props
  | _ => []
  end.

(** What [merge] leaves under a key that has the value [v1] in [obj1] and
    [v2] in [obj2] ([None]: the key is missing). *)
Definition mergedAt (obj2HasPrecedence : bool) (v1 v2 : option Js.value)
  : option (option Js.value) :=
  match v1, v2 with
  | Some x1, Some x2 =>
      if Js.isObject x1 && Js.isObject x2 then Some <$> Merge.merge false x1 x2
      else if obj2HasPrecedence then Some (Some x2) else Some (Some x1)
  | Some x1, None => Some (Some x1)
  | None, Some x2 => Some (Some x2)
  | None, None => Some None
  end.

(** A key of a path: not empty, and without a dot or a square bracket. *)
Fixpoint plainKey (k : string) : bool :=
  match k with
  | EmptyString => false
  | String c EmptyString => negb (GetVal.isSep c)
  | String c k' => negb (GetVal.isSep c) && plainKey k'
  end.

(** An action that does not look at the response: a [var_new] or [var_set]
    with a truthy [value], a [var_rename], or a [var_delete]. *)
Definition needsNoBody (action : Js.value) : bool :=
  let var_new := Js.getProp action "var_new" in
  let var_set := Js.getProp action "var_set" in
  if Js.truthy var_new || Js.truthy var_set
  then Js.truthy (Js.getProp (if Js.truthy var_new then var_new else var_set) "value")
  else true.

(** An action that reads the response at its [path]: a [var_new] or
    [var_set] without a truthy [value] and with a [path]. *)
Definition readsPath (action : Js.value) : bool :=
  let var_new := Js.getProp action "var_new" in
  let var_set := Js.getProp action "var_set" in
  let action' := if Js.truthy var_new then var_new else var_set in
  (Js.truthy var_new || Js.truthy var_set)
  && negb (Js.truthy (Js.getProp action' "value"))
  && Js.truthy (Js.getProp action' "path").

(** An error of the planner is right about the corpus: no API produces the
    variable it names, or no API has the name it names. *)
Definition errorSound (h : Hapi.t) (e : Node.error) : Prop :=
  match e with
  | Node.NoProducers varName => ∀ a, a ∈ Hapi.apis h → varName ∉ Api.produces a
  | Node.ApiNotFound name => ∀ a, a ∈ Hapi.apis h → Api.name a ≠ name
  end.

Module Hosting.
Import Node Plan.

(** [a] passes the tests that [insertApi] makes at [p] before it appends:
    it is insertable, and neither [p] nor an ancestor of [p] hosts it. *)
Definition admitted (h : Hapi.t) (st : Store) (p : nat) (a : Api.t) : Prop :=
  Hapi.isInsertableApi h a = true ∧ usesApi st p a = false.

(** Every node of the plan below the root hosts an API that passed the
    tests at its parent. *)
Definition hostsAdmitted (h : Hapi.t) (st : Store) : Prop :=
  ∀ p c, inTree st p → c ∈ childrenOf st p →
    ∃ a, apiOf st c = Some a ∧ parentOf st c = Some p ∧ admitted h st p a.

End Hosting.

Module Satellites.
Import Node.

(** [node.preRun] and [node.postRun]. *)
Definition preRunOf (st : Store) (n : nat) : option nat := st !! n ≫= preRun.
Definition postRunOf (st : Store) (n : nat) : option nat := st !! n ≫= postRun.

(** A field update that leaves [preRun] and [postRun] alone. *)
Definition keepsSatellites (f : t → t) : Prop :=
  ∀ x, preRun (f x) = preRun x ∧ postRun (f x) = postRun x.

(** The heap has the same satellites. *)
Definition sameSatellites (st st' : Store) : Prop :=
  ∀ n, preRunOf st' n = preRunOf st n ∧ postRunOf st' n = postRunOf st n.

(** What the tree knows of a node: its API, its parent and its
    children. *)
Definition shapeOf (st : Store) (n : nat) : option Api.t * option nat * list nat :=
  (apiOf st n, parentOf st n, childrenOf st n).

End Satellites.

Module Seeding.
Import Node Plan.




(** What [addChild] may do to a node that exists: it leaves the API, the
    flags and [postRun], and [subTreeProduces] at most grows. *)
Definition updated (x x' : t) : Prop :=
  api x' = api x ∧ inserting x' = inserting x ∧ postRun x' = postRun x ∧
  ∀ v, v ∈ subTreeProduces x → v ∈ subTreeProduces x'.






(** The corpus in which the only producer of [x] is referenced. *)
Definition referencedCorpus : Hapi.t :=
  {| Hapi.apis := [makeX; useX]; Hapi.referencedApis := ["makeX"]; Hapi.vars := [] |}.

End Seeding.

(* ===================================================================== *)
(** * Part III: properties                                                *)
(* ===================================================================== *)

(** ** Exit code of [gendoc] *)

(** One turn of the loop over the virtual hosts keeps this: [result] is 0,
    or it is 2 and an error has been pushed. *)
Lemma gendoc_step_result (v : Gendoc.VirtualHost) (r : Z) (errs : list string) :
  r = 0%Z ∨ (r = 2%Z ∧ errs ≠ []) →
  (Gendoc.gendoc_step (r, errs) v).1 = 0%Z ∨
  ((Gendoc.gendoc_step (r, errs) v).1 = 2%Z ∧ (Gendoc.gendoc_step (r, errs) v).2 ≠ []).
Proof.
  intros Hinv. unfold Gendoc.gendoc_step.
  destruct (Gendoc.vhost_gendoc v errs) as [[u|e] errs'] eqn:Hv.
  - destruct (Gendoc.writeFileSync v) as [e|]; simpl.
    + right. split; [reflexivity|]. intros Habs. by apply app_eq_nil in Habs as [_ ?].
    + unfold Gendoc.vhost_gendoc in Hv. destruct (Gendoc.swagger v); [|discriminate].
      injection Hv as Hv. destruct Hinv as [->|[-> Hne]]; [by left|right].
      split; [reflexivity|]. subst errs'. revert errs Hne. generalize (Gendoc.mapis v).
      intros ms. induction ms as [|m ms IHm]; intros errs Hne; simpl; [exact Hne|].
      apply IHm. destruct (Gendoc.private m); [exact Hne|].
      destruct (Gendoc.addDoc m); [|exact Hne].
      intros Habs. by apply app_eq_nil in Habs as [_ ?].
  - simpl. right. split; [reflexivity|]. intros Habs. by apply app_eq_nil in Habs as [_ ?].
Qed.

Lemma gendoc_loop_result (vs : list Gendoc.VirtualHost) (r : Z) (errs : list string) :
  r = 0%Z ∨ (r = 2%Z ∧ errs ≠ []) →
  (foldl Gendoc.gendoc_step (r, errs) vs).1 = 0%Z ∨
  ((foldl Gendoc.gendoc_step (r, errs) vs).1 = 2%Z ∧
   (foldl Gendoc.gendoc_step (r, errs) vs).2 ≠ []).
Proof.
  revert r errs. induction vs as [|v vs IH]; intros r errs Hinv; [exact Hinv|].
  cbn [foldl]. pose proof (gendoc_step_result v r errs Hinv) as Hstep.
  destruct (Gendoc.gendoc_step (r, errs) v) as [r' errs']. by apply IH.
Qed.

(** [gendoc] returns 0 with no error recorded, or 3 with some: the value 2
    that the [catch] branch assigns never reaches the caller. *)
Lemma gendoc_returns_0_or_3 (h : Gendoc.Hapi) :
  ((Gendoc.gendoc h).1 = 0%Z ∧ (Gendoc.gendoc h).2 = []) ∨
  ((Gendoc.gendoc h).1 = 3%Z ∧ (Gendoc.gendoc h).2 ≠ []).
Proof.
  unfold Gendoc.gendoc.
  pose proof (gendoc_loop_result (Gendoc.virtualHosts h) 0%Z (Gendoc.errors h)
                (or_introl eq_refl)) as Hinv.
  destruct (foldl Gendoc.gendoc_step (0%Z, Gendoc.errors h) (Gendoc.virtualHosts h))
    as [r errs]. simpl in Hinv.
  destruct (decide (0 < length errs)) as [Hlen|Hlen]; simpl.
  - right. split; [reflexivity|]. intros ->. simpl in Hlen. lia.
  - destruct errs; [|simpl in Hlen; lia].
    destruct Hinv as [->|[_ Hne]]; [by left|done].
Qed.

(** C9 (the code departs from the claim): for a single virtual host whose
    manifest has no [swagger] section, documentation generation fails, and
    [gendoc] returns 3, not 2. *)
Theorem gendoc_generation_failure_returns_3 :
  Gendoc.gendoc
    {| Gendoc.virtualHosts :=
         [ {| Gendoc.vname := "service1"; Gendoc.swagger := false;
              Gendoc.mapis := []; Gendoc.writeFileSync := None |} ];
       Gendoc.errors := [] |}
  = (3%Z,
     ["failure generating service1 virtual host documentation: no swagger info found for virtual host service1"]).
Proof. reflexivity. Qed.

(** ** Insertable APIs *)

Lemma isInsertable_loop_spec (refs : list string) (name : string) :
  Hapi.isInsertable_loop refs name = true ↔
  ∀ r, r ∈ refs → String.prefix r name = false.
Proof.
  induction refs as [|r refs IH]; simpl.
  - split; [intros _ r Hr; by apply elem_of_nil in Hr|done].
  - destruct (String.prefix r name) eqn:Hp.
    + split; [done|]. intros H. specialize (H r (list_elem_of_here _ _)). congruence.
    + rewrite IH. split.
      * intros H r' Hr'. apply elem_of_cons in Hr' as [->|Hr']; auto.
      * intros H r' Hr'. apply H. by apply list_elem_of_further.
Qed.

(** C5, as the code has it: an API is insertable exactly when no referenced
    API name is a prefix of its name. *)
Theorem isInsertableApi_iff (h : Hapi.t) (a : Api.t) :
  Hapi.isInsertableApi h a = true ↔
  ∀ r, r ∈ Hapi.referencedApis h → String.prefix r (Api.name a) = false.
Proof. apply isInsertable_loop_spec. Qed.

(** C5, counterexample to the claim's direction of the prefix test: with
    the destructor [service1/delete-app-204] referenced, its second
    variable combination [service1/delete-app-204-1] is no prefix of a
    referenced name, yet it is not insertable. *)
Lemma isInsertableApi_not_claimed :
  let h := {| Hapi.apis := []; Hapi.referencedApis := ["service1/delete-app-204"];
              Hapi.vars := [] |} in
  let a := {| Api.oid := 0; Api.name := "service1/delete-app-204-1";
              Api.consumes := []; Api.produces := []; Api.deletes := [];
              Api.var_new := None; Api.mapiVars := [] |} in
  claimedInsertable h a ∧ Hapi.isInsertableApi h a = false.
Proof.
  split; [|reflexivity].
  intros r Hr. apply list_elem_of_singleton in Hr as ->. reflexivity.
Qed.

(** ** The [quit] list of a hook that names an API *)

(** When the API of a string hook is found and its run fails, the hook
    breaks the chain silently exactly when [indexOf] is not 0, that is,
    unless the status code is the first entry of the [quit] list. *)
Lemma api_hook_failure (findApi : string → bool) (runApi : string → Hook.RunOutcome)
    (name err : string) (statusCode : option Z) (q : list Z) (ctx : Hook.HookContext) :
  findApi name = true →
  runApi name = Hook.Failed err statusCode →
  Hook.runHook2_one findApi runApi {| Hook.hook := Hook.ApiName name; Hook.quit := Some q |} ctx
  = if decide (Hook.quitIndex q statusCode ≠ 0%Z)
    then Hook.Callback None {| Hook.break := true; Hook.ignore := Hook.ignore ctx;
                               Hook.fatal := Hook.fatal ctx |}
    else Hook.Callback (Some err) ctx.
Proof.
  intros Hf Hr. unfold Hook.runHook2_one, Hook.runHook2_hook. simpl. rewrite Hf, Hr.
  by destruct (decide (Hook.quitIndex q statusCode ≠ 0%Z)).
Qed.

(** A status code that is in no [quit] list at all ends the chain
    silently. *)
Lemma api_hook_unlisted_status_quits (q : list Z) (c : Z) :
  c ∉ q → Hook.quitIndex q (Some c) = (-1)%Z.
Proof.
  unfold Hook.quitIndex, JsArray.indexOf. generalize 0%Z.
  induction q as [|y q IH]; intros i Hc; simpl; [reflexivity|].
  destruct (decide (y = c)) as [->|Hne].
  - exfalso. apply Hc. apply list_elem_of_here.
  - apply IH. intros Hin. apply Hc. by apply list_elem_of_further.
Qed.

(** C4 (the code departs from the claim): in a chain of two hooks, the
    first naming an API with [quit: [404]], a run that fails with status
    404, which is listed, makes the chain fail with the error, and a run
    that fails with status 500, which is not listed, ends the chain
    silently. *)
Theorem quit_list_test_is_inverted :
  let chain :=
    [ {| Hook.hook := Hook.ApiName "service1/get-app-200"; Hook.quit := Some [404%Z] |};
      {| Hook.hook := Hook.ApiName "service1/delete-app-204"; Hook.quit := None |} ] in
  let fails (code : Z) (name : string) :=
    if decide (name = "service1/get-app-200")
    then Hook.Failed "invalid status code" (Some code) else Hook.Passed in
  Hook.runHook2_array (λ _, true) (fails 404%Z) chain Hook.newContext
  = Hook.Callback (Some "invalid status code")
      {| Hook.break := false; Hook.ignore := true; Hook.fatal := false |}
  ∧
  Hook.runHook2_array (λ _, true) (fails 500%Z) chain Hook.newContext
  = Hook.Callback None
      {| Hook.break := true; Hook.ignore := true; Hook.fatal := false |}.
Proof. split; reflexivity. Qed.

(** ** The execution waterfall *)







(** ** Serialization queues *)

(** A context that arrives at a queue that is not empty is appended and
    does not start. *)
Lemma arrive_waits (s : Serial.State) (ctx : nat) (queueName : string) (x : nat)
    (queue : list nat) :
  queueName ≠ "" →
  Serial.serialQueues s !! queueName = Some (x :: queue) →
  Serial.doRun s ctx (Some queueName) false
  = {| Serial.serialQueues := <[queueName := x :: queue ++ [ctx]]> (Serial.serialQueues s);
       Serial.running := Serial.running s;
       Serial.called := Serial.called s |}.
Proof.
  intros Hne Hq. unfold Serial.doRun. rewrite bool_decide_false by done. simpl.
  rewrite Hq. simpl. destruct (decide _) as [_|Hn]; [reflexivity|].
  exfalso. apply Hn. rewrite length_app. simpl. lia.
Qed.

(** A context that arrives at an empty queue enters it and starts, holding
    the queue in its local variable. *)
Lemma arrive_runs (s : Serial.State) (ctx : nat) (queueName : string) :
  queueName ≠ "" →
  default [] (Serial.serialQueues s !! queueName) = [] →
  Serial.doRun s ctx (Some queueName) false
  = {| Serial.serialQueues := <[queueName := [ctx]]> (Serial.serialQueues s);
       Serial.running := <[ctx := Some queueName]> (Serial.running s);
       Serial.called := Serial.called s |}.
Proof.
  intros Hne Hq. unfold Serial.doRun. rewrite bool_decide_false by done. simpl.
  rewrite Hq. reflexivity.
Qed.

(** A context resumed from a queue ([proceed] true) runs with its local
    variable [queue] unset. *)
Lemma resumed_has_no_queue (s : Serial.State) (ctx : nat) (name : option string) :
  Serial.running (Serial.doRun s ctx name true) !! ctx = Some None ∧
  Serial.serialQueues (Serial.doRun s ctx name true) = Serial.serialQueues s.
Proof.
  unfold Serial.doRun. destruct name as [queueName|]; simpl.
  - rewrite andb_false_r. simpl. by rewrite lookup_insert_eq.
  - by rewrite lookup_insert_eq.
Qed.

(** When such a context completes, the queues stay as they are: it is not
    removed from its queue, and no waiter is resumed. *)
Lemma resumed_never_pops (s : Serial.State) (ctx : nat) :
  Serial.running s !! ctx = Some None →
  Serial.finish s ctx
  = inl {| Serial.serialQueues := Serial.serialQueues s;
           Serial.running := delete ctx (Serial.running s);
           Serial.called := Serial.called s ++ [ctx] |}.
Proof. intros H. unfold Serial.finish. by rewrite H. Qed.

(** C2 (the code departs from the claim): three contexts with the queue
    key [appName=demo] arrive while the first runs.  When the first
    completes it leaves the queue and the second is resumed; when the
    second completes it stays at the head of the queue, and the third,
    still waiting behind it, is not resumed. *)
Theorem resumed_context_blocks_queue :
  let key := "appName=demo" in
  ∃ s, Serial.steps Serial.init
         [ Serial.Arrive 1 (Some key); Serial.Arrive 2 (Some key);
           Serial.Arrive 3 (Some key); Serial.Complete 1; Serial.Complete 2 ]
       = inl s
     ∧ Serial.serialQueues s !! key = Some [2; 3]
     ∧ Serial.running s !! 3 = None
     ∧ Serial.called s = [1; 2].
Proof.
  eexists. split; [reflexivity|]. split; [|split]; reflexivity.
Qed.

(** ** Variable combinations consume [api.consumes] *)


(** An empty name ends the recursion and leaves the names after it. *)
Lemma getVarCombinationsRecurse_empty_name (names : list string) (varsArray : list Js.env) :
  VarComb.getVarCombinationsRecurse varsArray ("" :: names) = (varsArray, names).
Proof. reflexivity. Qed.



(** ** Variable substitution *)

Lemma bind_Ok {A B} (r : Subst.result A) (f : A → Subst.result B) (y : B) :
  Subst.bind r f = Subst.Ok y ↔ ∃ x, r = Subst.Ok x ∧ f x = Subst.Ok y.
Proof.
  destruct r; simpl; split; try (intros [? [? ?]]); try discriminate; eauto.
  simplify_eq. done.
Qed.






(** C7 on concrete strings: a resolved request path; a variable defined in
    terms of itself, which never converges; a reference to an undefined
    variable. *)
Example resolve_examples :
  let vars : Js.env :=
    <["host" := Js.Str "https://api.$domain"]>
      (<["domain" := Js.Str "example.org"]>
         (<["app_guid" := Js.Num 42]>
            (<["loop" := Js.Str "$loop!"]> ∅))) in
  Subst.resolve vars (Js.Str "$host/v2/apps/${app_guid}")
  = Subst.Ok (Js.Str "https://api.example.org/v2/apps/42")
  ∧ (∃ v, Subst.resolve vars (Js.Str "$loop") = Subst.Throw (Subst.UnableToResolve v))
  ∧ Subst.resolve vars (Js.Str "$host/v2/spaces/$space_guid")
    = Subst.Throw (Subst.NotDefined "space_guid").
Proof. split; [|split]; [vm_compute; reflexivity|eexists; vm_compute; reflexivity|vm_compute; reflexivity]. Qed.

(** ** The default of [serial_vars] *)

(** Scanning keeps a property of the state that every case of the switch
    keeps. *)
Lemma scanActions_keeps (P : Scan.State → Prop) :
  (∀ key x path st st', P st → Scan.scanKey key x path st = Scan.Ok st' → P st') →
  ∀ toScan path st st', P st → Scan.scanActions toScan path st = Scan.Ok st' → P st'.
Proof.
  intros Hkey. fix IH 1. intros toScan path st st' HP H.
  destruct toScan as [| | | | | |l|props]; simpl in H;
    try (injection H as <-; exact HP).
  - revert st HP H. induction l as [|ele l IHl]; intros st HP H.
    + injection H as <-. exact HP.
    + destruct (Scan.scanActions ele (Scan.elementPath path) st) as [st1|e] eqn:H1;
        simpl in H; [|discriminate].
      exact (IHl st1 (IH _ _ _ _ HP H1) H).
  - revert st HP H. induction props as [|[key x] props IHp]; intros st HP H.
    + injection H as <-. exact HP.
    + destruct (Scan.scanKey key x path st) as [st1|e] eqn:H1; simpl in H; [|discriminate].
      destruct (Scan.scanActions x (Scan.childPath path key) st1) as [st2|e] eqn:H2;
        simpl in H; [|discriminate].
      exact (IHp st2 (IH _ _ _ _ (Hkey _ _ _ _ _ HP H1) H2) H).
Qed.

(** Scanning throws an error only if a case of the switch throws it. *)
Lemma scanActions_throws (P : Scan.State → Prop) (e : Scan.error) :
  (∀ key x path st st', P st → Scan.scanKey key x path st = Scan.Ok st' → P st') →
  (∀ key x path st, P st → Scan.scanKey key x path st ≠ Scan.Throw e) →
  ∀ toScan path st, P st → Scan.scanActions toScan path st ≠ Scan.Throw e.
Proof.
  intros Hkey Hthrow. fix IH 1. intros toScan path st HP H.
  destruct toScan as [| | | | | |l|props]; simpl in H; try discriminate.
  - revert st HP H. induction l as [|ele l IHl]; intros st HP H; [discriminate|].
    destruct (Scan.scanActions ele (Scan.elementPath path) st) as [st1|e1] eqn:H1;
      simpl in H.
    + exact (IHl st1 (scanActions_keeps P Hkey _ _ _ _ HP H1) H).
    + injection H as ->. exact (IH _ _ _ HP H1).
  - revert st HP H. induction props as [|[key x] props IHp]; intros st HP H; [discriminate|].
    destruct (Scan.scanKey key x path st) as [st1|e1] eqn:H1; simpl in H.
    + destruct (Scan.scanActions x (Scan.childPath path key) st1) as [st2|e2] eqn:H2;
        simpl in H.
      * exact (IHp st2 (scanActions_keeps P Hkey _ _ _ _ (Hkey _ _ _ _ _ HP H1) H2) H).
      * injection H as ->. exact (IH _ _ _ (Hkey _ _ _ _ _ HP H1) H2).
    + injection H as ->. exact (Hthrow _ _ _ _ HP H1).
Qed.

(** What a successful [case 'var_new'] leaves behind. *)
Lemma scan_var_new_Ok (vn : Js.value) (path : option string) (st st' : Scan.State) :
  Scan.scan_var_new vn path st = Scan.Ok st' →
  Js.truthy (Scan.var_new st) = false ∧
  Scan.requestBodyVars st' = Scan.requestBodyVars st ∧
  (if Js.truthy (Js.getProp (Scan.var_new st') "serial_vars")
   then Scan.serial_vars st' = Js.getProp (Scan.var_new st') "serial_vars"
   else ∃ vars, Scan.requestBodyVars st = Some vars ∧
                Scan.serial_vars st' = Js.Arr (Js.Str <$> vars)).
Proof.
  unfold Scan.scan_var_new, Scan.bind.
  destruct (Scan.actionCheck vn "var_new" "name"); [|discriminate].
  destruct (Scan.actionCheck vn "var_new" "get"); [|discriminate].
  destruct (Scan.actionCheck vn "var_new" "delete"); [|discriminate].
  destruct (Js.truthy (Scan.var_new st)); [discriminate|].
  match goal with
  | |- match ?c with Scan.Ok _ => _ | Scan.Throw _ => _ end = _ → _ =>
      destruct c as [vn'|]; [|discriminate]
  end.
  destruct (Js.truthy (Js.getProp vn' "serial_vars")) eqn:Hs.
  - intros H. injection H as <-. simpl. by rewrite Hs.
  - simpl. destruct (Scan.requestBodyVars st) as [vars|] eqn:Hv; [|discriminate].
    intros H. injection H as <-. simpl. rewrite Hs. eauto.
Qed.

(** With [requestBodyVars] given, [case 'var_new'] does not throw "needs a
    'serial_vars' field". *)
Lemma scan_var_new_has_default (vn : Js.value) (path : option string) (st : Scan.State) :
  is_Some (Scan.requestBodyVars st) →
  Scan.scan_var_new vn path st ≠ Scan.Throw Scan.NeedsSerialVars.
Proof.
  intros [vars Hv]. unfold Scan.scan_var_new, Scan.bind, Scan.actionCheck.
  destruct vn; try discriminate;
    repeat (destruct (Js.hasOwnProperty _ _); [|discriminate]);
    (destruct (Js.truthy (Scan.var_new st)); [discriminate|]);
    match goal with
    | |- match ?c with Scan.Ok _ => _ | Scan.Throw _ => _ end ≠ _ =>
        destruct c as [vn'|e] eqn:Hc
    end;
    try (destruct (Js.truthy (Js.getProp vn' "serial_vars")); [discriminate|];
         simpl; rewrite Hv; discriminate).
  all: repeat case_match; simplify_eq; discriminate.
Qed.

(** The other cases leave [var_new], [serial_vars] and [requestBodyVars]
    alone. *)
Lemma scan_var_set_frame (vs : Js.value) (path : option string) (st st' : Scan.State) :
  Scan.scan_var_set vs path st = Scan.Ok st' →
  Scan.var_new st' = Scan.var_new st ∧ Scan.serial_vars st' = Scan.serial_vars st ∧
  Scan.requestBodyVars st' = Scan.requestBodyVars st.
Proof.
  unfold Scan.scan_var_set. intros H.
  repeat case_match; simplify_eq; done.
Qed.

Lemma scan_var_rename_frame (vr : Js.value) (st st' : Scan.State) :
  Scan.scan_var_rename vr st = Scan.Ok st' →
  Scan.var_new st' = Scan.var_new st ∧ Scan.serial_vars st' = Scan.serial_vars st ∧
  Scan.requestBodyVars st' = Scan.requestBodyVars st.
Proof.
  unfold Scan.scan_var_rename, Scan.bind. intros H.
  destruct (Scan.actionCheck vr "var_rename" "from"); [|discriminate].
  destruct (Scan.actionCheck vr "var_rename" "to"); [|discriminate].
  injection H as <-. done.
Qed.

(** The switch by cases. *)
Lemma scanKey_cases (key : string) (x : Js.value) (path : option string)
    (st : Scan.State) (r : Scan.result Scan.State) :
  Scan.scanKey key x path st = r →
  (key = "var_new" ∧ r = Scan.scan_var_new x path st) ∨
  (key = "var_set" ∧ r = Scan.scan_var_set x path st) ∨
  (key = "var_rename" ∧ r = Scan.scan_var_rename x st) ∨
  (key = "var_delete" ∧ r = Scan.Throw Scan.TypeError) ∨
  r = Scan.Ok st.
Proof.
  unfold Scan.scanKey. intros <-. repeat case_decide; auto 6.
Qed.

(** No case of the switch changes [requestBodyVars]. *)
Lemma scanKey_requestBodyVars (vars : option (list string)) key x path st st' :
  Scan.requestBodyVars st = vars →
  Scan.scanKey key x path st = Scan.Ok st' →
  Scan.requestBodyVars st' = vars.
Proof.
  intros HP H. apply scanKey_cases in H as [[_ H]|[[_ H]|[[_ H]|[[_ H]|H]]]];
    try discriminate.
  - symmetry in H. apply scan_var_new_Ok in H as (_ & -> & _). exact HP.
  - symmetry in H. apply scan_var_set_frame in H as (_ & _ & ->). exact HP.
  - symmetry in H. apply scan_var_rename_frame in H as (_ & _ & ->). exact HP.
  - by injection H as <-.
Qed.

(** With [requestBodyVars] given, no case throws "needs a 'serial_vars'
    field". *)
Lemma scanKey_has_default key x path st :
  is_Some (Scan.requestBodyVars st) →
  Scan.scanKey key x path st ≠ Scan.Throw Scan.NeedsSerialVars.
Proof.
  intros HP H. apply scanKey_cases in H as [[_ H]|[[_ H]|[[_ H]|[[_ H]|H]]]];
    try discriminate.
  - symmetry in H. by apply scan_var_new_has_default in H.
  - unfold Scan.scan_var_set in H. repeat case_match; simplify_eq.
  - unfold Scan.scan_var_rename, Scan.bind, Scan.actionCheck in H.
    repeat case_match; simplify_eq.
Qed.

(** [scanHook] has errors of its own only. *)
Lemma scanHook_error (hook : Js.value) (refs : list Js.value) (e : Scan.error) :
  Scan.scanHook hook refs = Scan.Throw e → e = Scan.MissingHook ∨ e = Scan.InvalidHook.
Proof.
  revert hook refs. fix IH 1. intros hook refs H.
  destruct hook as [| |b|z|s|f|l|props]; simpl in H.
  - clear IH. discriminate.
  - clear IH. discriminate.
  - clear IH. destruct b; [right; congruence|discriminate].
  - clear IH. destruct (z =? 0)%Z; [discriminate|right; congruence].
  - clear IH. destruct (bool_decide (s = "")); discriminate.
  - clear IH. discriminate.
  - revert refs H. induction l as [|h l IHl]; intros refs H; [discriminate|].
    destruct (Scan.scanHook h refs) as [refs1|e1] eqn:H1; simpl in H.
    + exact (IHl refs1 H).
    + injection H as ->. exact (IH _ _ H1).
  - revert H. induction props as [|[k v] props IHp]; intros H; [left; congruence|].
    destruct (decide (k = "hook")); [|exact (IHp H)].
    destruct (Js.truthy v); [exact (IH _ _ H)|left; congruence].
Qed.

Lemma scanKey_serialDefault (vars : list string) key x path st st' :
  serialDefault vars st →
  Scan.scanKey key x path st = Scan.Ok st' →
  serialDefault vars st'.
Proof.
  intros [Hv Hd] H. split; [by eapply scanKey_requestBodyVars|].
  apply scanKey_cases in H as [[_ H]|[[_ H]|[[_ H]|[[_ H]|H]]]]; try discriminate.
  - symmetry in H. apply scan_var_new_Ok in H as (_ & _ & Hs).
    intros _ Hf. rewrite Hf in Hs. destruct Hs as (vars' & Hv' & ->). congruence.
  - symmetry in H. apply scan_var_set_frame in H as (-> & -> & _). exact Hd.
  - symmetry in H. apply scan_var_rename_frame in H as (-> & -> & _). exact Hd.
  - injection H as <-. exact Hd.
Qed.

(** The first half of C8 holds: an API built by [getApis] whose [var_new]
    has no [serial_vars] of its own serializes on the variable names of the
    request body. *)
Lemma serial_vars_default (refs : list Js.value) (response test : Js.value)
    (st : Scan.State) :
  Scan.constructFromTest refs response test = Scan.Ok st →
  Js.truthy (Scan.var_new st) = true →
  Js.truthy (Js.getProp (Scan.var_new st) "serial_vars") = false →
  Scan.serial_vars st
  = Js.Arr (Js.Str <$> Subst.getVarNames (Js.getProp (Js.getProp test "request") "body")).
Proof.
  unfold Scan.constructFromTest, Scan.construct.
  set (vars := Subst.getVarNames _). set (st0 := Scan.Build_State _ _ _ _ _ _).
  assert (H0 : serialDefault vars st0) by (split; [reflexivity|discriminate]).
  destruct (Scan.scanActions (Js.getProp response "body") (Some "") st0) as [st1|] eqn:H1;
    [|discriminate].
  pose proof (scanActions_keeps _ (scanKey_serialDefault vars) _ _ _ _ H0 H1) as HP1.
  simpl. destruct (Scan.scanActions test None st1) as [st2|] eqn:H2; [|discriminate].
  pose proof (scanActions_keeps _ (scanKey_serialDefault vars) _ _ _ _ HP1 H2) as [_ HP2].
  simpl. destruct (Scan.scanHook _ _); [|discriminate].
  simpl. destruct (Scan.scanHook _ _); [|discriminate].
  simpl. destruct (Scan.scanHook _ _); [|discriminate].
  simpl. intros H. injection H as <-. exact HP2.
Qed.

(** The second half does not: the constructor called by [getApis] never
    throws "needs a 'serial_vars' field", whatever the descriptor. *)
Lemma constructFromTest_never_needs_serial_vars (refs : list Js.value)
    (response test : Js.value) :
  Scan.constructFromTest refs response test ≠ Scan.Throw Scan.NeedsSerialVars.
Proof.
  unfold Scan.constructFromTest, Scan.construct.
  set (vars := Subst.getVarNames _). set (st0 := Scan.Build_State _ _ _ _ _ _).
  set (P := λ st, Scan.requestBodyVars st = Some vars).
  assert (Hkeep : ∀ key x path st st', P st → Scan.scanKey key x path st = Scan.Ok st' → P st').
  { intros key x path st st'. apply scanKey_requestBodyVars. }
  assert (Hthrow : ∀ key x path st, P st → Scan.scanKey key x path st ≠ Scan.Throw Scan.NeedsSerialVars).
  { intros key x path st HP. apply scanKey_has_default. rewrite HP. eauto. }
  assert (H0 : P st0) by reflexivity.
  destruct (Scan.scanActions (Js.getProp response "body") (Some "") st0) as [st1|e1] eqn:H1;
    simpl.
  2: { intros H. injection H as ->. exact (scanActions_throws P _ Hkeep Hthrow _ _ _ H0 H1). }
  pose proof (scanActions_keeps P Hkeep _ _ _ _ H0 H1) as HP1.
  destruct (Scan.scanActions test None st1) as [st2|e2] eqn:H2; simpl.
  2: { intros H. injection H as ->. exact (scanActions_throws P _ Hkeep Hthrow _ _ _ HP1 H2). }
  destruct (Scan.scanHook _ _) as [r1|e3] eqn:H3; simpl.
  2: { intros H. injection H as ->. apply scanHook_error in H3 as [?|?]; discriminate. }
  destruct (Scan.scanHook _ r1) as [r2|e4] eqn:H4; simpl.
  2: { intros H. injection H as ->. apply scanHook_error in H4 as [?|?]; discriminate. }
  destruct (Scan.scanHook _ r2) as [r3|e5] eqn:H5; simpl.
  2: { intros H. injection H as ->. apply scanHook_error in H5 as [?|?]; discriminate. }
  discriminate.
Qed.

(** C8 (the code departs from the claim): a constructor API whose request
    has no body and whose [var_new] names no [serial_vars] is accepted with
    an empty [serial_vars]; no error is raised, here or for any other
    descriptor. *)
Theorem var_new_without_body_is_accepted :
  let response :=
    Js.Obj [ ("description", Js.Str "The application was created");
             ("var_new", Js.Obj [ ("name", Js.Str "appGuid");
                                  ("path", Js.Str "metadata.guid");
                                  ("get", Js.Str "service1/get-app-200");
                                  ("delete", Js.Str "service1/delete-app-204") ]) ] in
  let test :=
    Js.Obj [ ("name", Js.Str "service1/create-app-201");
             ("request", Js.Obj [ ("method", Js.Str "POST");
                                  ("path", Js.Str "/v2/apps/$appName") ]);
             ("response", response) ] in
  (∃ st, Scan.constructFromTest [] response test = Scan.Ok st ∧
         Scan.serial_vars st = Js.Arr [] ∧
         Scan.produces st = [Js.Str "appGuid"] ∧
         Scan.referencedApis st
         = [Js.Str "service1/get-app-200"; Js.Str "service1/delete-app-204"]) ∧
  ∀ refs response' test',
    Scan.constructFromTest refs response' test' ≠ Scan.Throw Scan.NeedsSerialVars.
Proof.
  split.
  - eexists. split; [vm_compute; reflexivity|]. split; [|split]; reflexivity.
  - apply constructFromTest_never_needs_serial_vars.
Qed.

(** With a request body, the same descriptor serializes on the names in
    the body. *)
Example var_new_with_body_serializes_on_body_vars :
  let response :=
    Js.Obj [ ("var_new", Js.Obj [ ("name", Js.Str "appGuid");
                                  ("path", Js.Str "metadata.guid");
                                  ("get", Js.Str "service1/get-app-200");
                                  ("delete", Js.Str "service1/delete-app-204") ]) ] in
  let test :=
    Js.Obj [ ("name", Js.Str "service1/create-app-201");
             ("request",
              Js.Obj [ ("method", Js.Str "POST"); ("path", Js.Str "/v2/apps");
                       ("body", Js.Obj [ ("name", Js.Str "$appName");
                                         ("space_guid", Js.Str "${spaceGuid}") ]) ]);
             ("response", response) ] in
  ∃ st, Scan.constructFromTest [] response test = Scan.Ok st ∧
        Scan.serial_vars st = Js.Arr [Js.Str "appName"; Js.Str "spaceGuid"].
Proof. eexists. split; [vm_compute; reflexivity|reflexivity]. Qed.

(** ** The planner: what the heap operations keep *)

Section PlannerStore.
Import Node Plan.

#[local] Arguments newNode : simpl never.
#[local] Arguments linkChild : simpl never.
#[local] Arguments findChild : simpl never.
#[local] Arguments isPostRunOf : simpl never.
#[local] Arguments chain : simpl never.
#[local] Arguments getUndefinedVars : simpl never.
#[local] Arguments usesApi : simpl never.
#[local] Arguments isInserting : simpl never.

Lemma keepsShape_set_produces g : keepsShape (set_produces g).
Proof. done. Qed.
Lemma keepsShape_set_subTreeProduces g : keepsShape (set_subTreeProduces g).
Proof. done. Qed.
Lemma keepsShape_set_inserting name b : keepsShape (set_inserting name b).
Proof. done. Qed.
Lemma keepsShape_set_preRun p : keepsShape (set_preRun p).
Proof. done. Qed.
Lemma keepsShape_set_postRun p : keepsShape (set_postRun p).
Proof. done. Qed.

Lemma sameShape_refl st : sameShape st st.
Proof. done. Qed.

Lemma sameShape_trans st1 st2 st3 :
  sameShape st1 st2 → sameShape st2 st3 → sameShape st1 st3.
Proof.
  intros [Hl1 H1] [Hl2 H2]. split; [congruence|].
  intros n. destruct (H1 n) as (? & ? & ?), (H2 n) as (? & ? & ?).
  repeat split; congruence.
Qed.

Lemma sameShape_alter f i st : keepsShape f → sameShape st (alter f i st).
Proof.
  intros Hf. split; [apply length_alter|].
  intros n. unfold apiOf, parentOf, childrenOf. rewrite list_lookup_alter.
  destruct (decide (i = n)) as [->|]; [|done].
  destruct (st !! n) as [x|]; [|done]. simpl.
  destruct (Hf x) as (-> & -> & ->). done.
Qed.

Lemma sameShape_foldl_alter (f : Store → nat → t → t) (l : list nat) st :
  (∀ s x, keepsShape (f s x)) →
  sameShape st (foldl (λ s x, alter (f s x) x s) st l).
Proof.
  intros Hf. revert st. induction l as [|x l IH]; intros st; [apply sameShape_refl|].
  simpl. eapply sameShape_trans; [|apply IH]. by apply sameShape_alter.
Qed.

Lemma sameShape_addProduces_walk st ns varNames :
  sameShape st (addProduces_walk st ns varNames).
Proof.
  revert st varNames. induction ns as [|n ns IH]; intros st varNames; [apply sameShape_refl|].
  simpl. eapply sameShape_trans; [|apply IH].
  apply sameShape_alter, keepsShape_set_produces.
Qed.

(** [chain] reads parents only. *)
Lemma chain_fuel_sameShape st st' fuel n :
  sameShape st st' → chain_fuel fuel st' n = chain_fuel fuel st n.
Proof.
  intros [_ H]. revert n. induction fuel as [|fuel IH]; intros n; [done|].
  simpl. destruct (H n) as (_ & -> & _). destruct (parentOf st n); [by rewrite IH|done].
Qed.

Lemma chain_sameShape st st' n : sameShape st st' → chain st' n = chain st n.
Proof. apply chain_fuel_sameShape. Qed.

Lemma grows_refl st : grows st st.
Proof. done. Qed.

Lemma grows_trans st1 st2 st3 : grows st1 st2 → grows st2 st3 → grows st1 st3.
Proof.
  intros [Hl1 H1] [Hl2 H2]. split; [lia|].
  intros n Hn. destruct (H1 n Hn) as (? & ? & ?), (H2 n ltac:(lia)) as (? & ? & ?).
  repeat split; [congruence|congruence|by etrans].
Qed.

Lemma sameShape_grows st st' : sameShape st st' → grows st st'.
Proof.
  intros [Hl H]. split; [lia|]. intros n _. destruct (H n) as (-> & -> & ->). done.
Qed.

Lemma parentOf_lt st n p : parentOf st n = Some p → n < length st.
Proof.
  unfold parentOf. intros H. destruct (st !! n) eqn:Hn; [|done].
  by eapply lookup_lt_Some.
Qed.

Lemma childrenOf_lt st p c : c ∈ childrenOf st p → p < length st.
Proof.
  unfold childrenOf. intros H. destruct (st !! p) eqn:Hp.
  - by eapply lookup_lt_Some.
  - by apply elem_of_nil in H.
Qed.

Lemma wf_sameShape st st' : sameShape st st' → wf st → wf st'.
Proof.
  intros [Hl H] (H0 & Hr & Hp & Hc). repeat split.
  - lia.
  - by destruct (H root) as (-> & _).
  - intros n p. destruct (H n) as (_ & -> & _). apply Hp.
  - intros p c. destruct (H p) as (_ & _ & ->). rewrite Hl. apply Hc.
Qed.

Lemma inTree_lt st n : wf st → inTree st n → n < length st.
Proof.
  intros (H0 & _ & _ & Hc). induction 1 as [|p c _ _ Hin]; [exact H0|by eapply Hc].
Qed.

Lemma inTree_grows st st' n : wf st → grows st st' → inTree st n → inTree st' n.
Proof.
  intros Hwf [_ Hg]. induction 1 as [|p c Hp IH Hin]; [constructor|].
  apply (inTree_child _ p); [exact IH|].
  destruct (Hg p (inTree_lt _ _ Hwf Hp)) as (_ & _ & Hpre).
  destruct Hpre as [k ->]. apply elem_of_app. by left.
Qed.

Lemma chain_fuel_ancestor st fuel n m :
  m ∈ chain_fuel fuel st n → ancestorOrSelf st n m.
Proof.
  revert n. induction fuel as [|fuel IH]; intros n H; [by apply elem_of_nil in H|].
  simpl in H. apply elem_of_cons in H as [->|H]; [constructor|].
  destruct (parentOf st n) as [p|] eqn:Hp; [|by apply elem_of_nil in H].
  eapply ancestorOrSelf_parent; eauto.
Qed.

Lemma chain_fuel_le st fuel n m :
  wf st → m ∈ chain_fuel fuel st n → m ≤ n.
Proof.
  intros (_ & _ & Hp & _). revert n. induction fuel as [|fuel IH]; intros n H;
    [by apply elem_of_nil in H|].
  simpl in H. apply elem_of_cons in H as [->|H]; [lia|].
  destruct (parentOf st n) as [p|] eqn:Hpn; [|by apply elem_of_nil in H].
  specialize (IH _ H). specialize (Hp _ _ Hpn). lia.
Qed.

(** The walk to the root is complete: with a fuel above the node it ends at
    a node without parent. *)
Lemma chain_fuel_complete st fuel n :
  wf st → n < fuel →
  ∃ r, last (chain_fuel fuel st n) = Some r ∧ parentOf st r = None.
Proof.
  intros Hwf. revert n. induction fuel as [|fuel IH]; intros n Hn; [lia|].
  simpl. destruct (parentOf st n) as [p|] eqn:Hp.
  - destruct Hwf as (? & ? & Hpar & ?). pose proof (Hpar _ _ Hp).
    destruct (IH p ltac:(lia)) as [r [Hr Hnone]]. exists r. split; [|done].
    destruct (chain_fuel fuel st p) eqn:Hc; [done|]. by rewrite last_cons, Hr.
  - exists n. done.
Qed.

Lemma chain_fuel_grows st st' fuel n :
  wf st → grows st st' → n < length st →
  chain_fuel fuel st' n = chain_fuel fuel st n.
Proof.
  intros Hwf [_ Hg]. revert n. induction fuel as [|fuel IH]; intros n Hn; [done|].
  simpl. destruct (Hg n Hn) as (_ & -> & _).
  destruct (parentOf st n) as [p|] eqn:Hp; [|done].
  destruct Hwf as (_ & _ & Hpar & _). pose proof (Hpar _ _ Hp). rewrite IH; [done|lia].
Qed.

Lemma chain_grows st st' n :
  wf st → grows st st' → n < length st → chain st' n = chain st n.
Proof. apply chain_fuel_grows. Qed.

Lemma getUndefinedVars_grows h st st' n a :
  wf st → grows st st' → n < length st →
  getUndefinedVars h st' n a = getUndefinedVars h st n a.
Proof.
  intros Hwf Hg Hn. unfold getUndefinedVars. rewrite (chain_grows st st') by done.
  f_equal. assert (Hle : ∀ m, m ∈ chain st n → m < length st).
  { intros m Hm. pose proof (chain_fuel_le _ _ _ _ Hwf Hm). lia. }
  revert Hle. generalize (Api.consumes a). induction (chain st n) as [|m l IH];
    intros acc Hle; [done|].
  simpl. destruct Hg as [_ Hg]. destruct (Hg m) as (-> & _).
  { apply Hle. apply list_elem_of_here. }
  apply IH. intros m' Hm'. apply Hle. by apply list_elem_of_further.
Qed.

(** [new Node]: the new node is at the end; the old nodes are as they
    were. *)
Lemma newNode_spec st a p id st' :
  newNode st a p = (id, st') →
  id = length st ∧ length st' = S (length st) ∧
  (∀ n, n < length st →
        apiOf st' n = apiOf st n ∧ parentOf st' n = parentOf st n ∧
        childrenOf st' n = childrenOf st n) ∧
  apiOf st' id = a ∧ parentOf st' id = p ∧ childrenOf st' id = [].
Proof.
  unfold newNode. set (x := Build_t _ _ _ _ _ _ _ _). set (st1 := st ++ [x]).
  intros H.
  assert (Hs : sameShape st1 st' ∧ id = length st).
  { destruct a as [a'|]; injection H as <- <-; split; try done.
    eapply sameShape_trans; [apply sameShape_addProduces_walk|].
    apply sameShape_alter, keepsShape_set_subTreeProduces. }
  destruct Hs as [[Hl Hs] ->]. split; [done|]. split.
  { rewrite Hl. unfold st1. rewrite length_app. simpl. lia. }
  split.
  - intros n Hn. destruct (Hs n) as (-> & -> & ->).
    unfold apiOf, parentOf, childrenOf, st1. by rewrite lookup_app_l.
  - destruct (Hs (length st)) as (-> & -> & ->).
    unfold apiOf, parentOf, childrenOf, st1. by rewrite list_lookup_middle.
Qed.

Lemma newNode_wf st a p id st' :
  wf st → (∀ q, p = Some q → q < length st) →
  newNode st a p = (id, st') → wf st' ∧ grows st st'.
Proof.
  intros (H0 & Hr & Hp & Hc) Hq H.
  apply newNode_spec in H as (-> & Hl & Hold & Ha & Hpar & Hch).
  split; [repeat split|split].
  - lia.
  - by destruct (Hold root H0) as (-> & _).
  - intros n q Hn. pose proof (parentOf_lt _ _ _ Hn) as Hlt.
    destruct (decide (n = length st)) as [->|Hne].
    + rewrite Hpar in Hn. by apply Hq.
    + destruct (Hold n ltac:(lia)) as (_ & Hpn & _). rewrite Hpn in Hn. by eapply Hp.
  - intros q c Hin. pose proof (childrenOf_lt _ _ _ Hin) as Hlt.
    destruct (decide (q = length st)) as [->|Hne].
    + rewrite Hch in Hin. by apply elem_of_nil in Hin.
    + destruct (Hold q ltac:(lia)) as (_ & _ & Hcq). rewrite Hcq in Hin.
      specialize (Hc _ _ Hin). lia.
  - lia.
  - intros n Hn. destruct (Hold n Hn) as (-> & -> & ->). done.
Qed.

(** The end of [addChild]: only the list of children of [self] changes. *)
Lemma linkChild_spec st self node :
  self < length st →
  length (linkChild st self node) = length st ∧
  ∀ n, apiOf (linkChild st self node) n = apiOf st n ∧
       parentOf (linkChild st self node) n = parentOf st n ∧
       childrenOf (linkChild st self node) n
       = if decide (n = self) then childrenOf st self ++ [node] else childrenOf st n.
Proof.
  intros Hself. unfold linkChild.
  set (st1 := alter (set_children (λ cs, cs ++ [node])) self st).
  pose proof (sameShape_foldl_alter
                (λ s (tmpNode : nat), set_subTreeProduces
                   (λ x, JsArray.addAllUniq x (subTreeProducesOf s node)))
                (chain st1 self) st1
                (λ s x, keepsShape_set_subTreeProduces _)) as [Hl Hs].
  split; [rewrite Hl; apply length_alter|].
  intros n. destruct (Hs n) as (-> & -> & ->).
  unfold apiOf, parentOf, childrenOf, st1. rewrite list_lookup_alter.
  destruct (decide (self = n)) as [->|Hne].
  - rewrite decide_True by done.
    destruct (lookup_lt_is_Some_2 st n Hself) as [x ->]. done.
  - rewrite decide_False by done. done.
Qed.

Lemma linkChild_wf st self node :
  wf st → self < length st → node < length st →
  wf (linkChild st self node) ∧ grows st (linkChild st self node).
Proof.
  intros (H0 & Hr & Hp & Hc) Hself Hnode.
  destruct (linkChild_spec st self node Hself) as [Hl Hs].
  split; [repeat split|split].
  - lia.
  - by destruct (Hs root) as (-> & _).
  - intros n q. destruct (Hs n) as (_ & -> & _). apply Hp.
  - intros q c. destruct (Hs q) as (_ & _ & ->). rewrite Hl.
    destruct (decide (q = self)) as [->|]; [|apply Hc].
    intros Hin. apply elem_of_app in Hin as [Hin|Hin]; [by eapply Hc|].
    by apply list_elem_of_singleton in Hin as ->.
  - lia.
  - intros n _. destruct (Hs n) as (-> & -> & ->).
    destruct (decide (n = self)) as [->|]; [|done].
    repeat split. by apply prefix_app_r.
Qed.

(** The equation of [addChild] for a positive fuel. *)
Lemma addChild_S fuel h st self a :
  addChild (S fuel) h st self a =
  match findChild st self a with
  | Some c => Ok c st
  | None =>
      match isPostRunOf st self a with
      | Some p => Ok p st
      | None =>
          let '(node, st1) := newNode st (Some a) (Some self) in
          match Api.var_new a with
          | None => Ok node (linkChild st1 self node)
          | Some vn =>
              match Hapi.findApi h (Api.get vn) with
              | None => Throw (ApiNotFound (Api.get vn)) st1
              | Some getApi =>
                  match Hapi.findApi h (Api.delete vn) with
                  | None => Throw (ApiNotFound (Api.delete vn)) st1
                  | Some deleteApi =>
                      let '(pre, st2) := newNode st1 (Some getApi) (Some node) in
                      let st3 := alter (set_preRun pre) node st2 in
                      match addChild fuel h st3 pre deleteApi with
                      | Ok _ st4 =>
                          let '(post, st5) := newNode st4 (Some deleteApi) (Some node) in
                          let st6 := alter (set_postRun post) node st5 in
                          Ok node (linkChild st6 self node)
                      | Throw e st4 => Throw e st4
                      | OutOfFuel => OutOfFuel
                      end
                  end
              end
          end
      end
  end.
Proof. reflexivity. Qed.

Lemma addChild_spec fuel h st self a r st' :
  addChild fuel h st self a = r → store_of r = Some st' →
  wf st → self < length st →
  wf st' ∧ grows st st' ∧
  (∀ p, p < length st → p ≠ self → childrenOf st' p = childrenOf st p) ∧
  appended st st' self a.
Proof.
  revert st self a r st'. induction fuel as [|fuel IH]; intros st self a r st' Hr Hst Hwf Hself.
  { simpl in Hr. subst r. discriminate. }
  rewrite addChild_S in Hr.
  destruct (findChild st self a) as [c|].
  { subst r. injection Hst as <-.
    split; [done|]. split; [apply grows_refl|]. split; [done|]. by left. }
  destruct (isPostRunOf st self a) as [c|].
  { subst r. injection Hst as <-.
    split; [done|]. split; [apply grows_refl|]. split; [done|]. by left. }
  destruct (newNode st (Some a) (Some self)) as [node st1] eqn:Hn1.
  cbv beta iota zeta in Hr.
  assert (Hq1 : ∀ q, Some self = Some q → q < length st) by (intros q [= <-]; done).
  destruct (newNode_wf _ _ _ _ _ Hwf Hq1 Hn1) as [Hwf1 Hg1].
  apply newNode_spec in Hn1 as (-> & Hl1 & Hold1 & Ha1 & Hp1 & Hc1).
  assert (Hthrow : ∀ st2, wf st2 → grows st1 st2 →
            (∀ p, p < length st1 → childrenOf st2 p = childrenOf st1 p) →
            wf st2 ∧ grows st st2 ∧
            (∀ p, p < length st → p ≠ self → childrenOf st2 p = childrenOf st p) ∧
            appended st st2 self a).
  { intros st2 Hwf2 Hg2 Hsame. split; [done|]. split; [by eapply grows_trans|]. split.
    - intros p Hp _. rewrite Hsame by lia. by destruct (Hold1 p Hp) as (_ & _ & ->).
    - left. rewrite Hsame by lia. by destruct (Hold1 self Hself) as (_ & _ & ->). }
  assert (Hlink : ∀ st2, wf st2 → grows st1 st2 →
            (∀ p, p < length st1 → childrenOf st2 p = childrenOf st1 p) →
            let st3 := linkChild st2 self (length st) in
            wf st3 ∧ grows st st3 ∧
            (∀ p, p < length st → p ≠ self → childrenOf st3 p = childrenOf st p) ∧
            appended st st3 self a).
  { intros st2 Hwf2 Hg2 Hsame st3.
    assert (Hlen2 : length st1 ≤ length st2) by apply Hg2.
    destruct (linkChild_wf st2 self (length st) Hwf2 ltac:(lia) ltac:(lia)) as [Hwf3 Hg3].
    destruct (linkChild_spec st2 self (length st) ltac:(lia)) as [Hl3 Hs3].
    fold st3 in Hwf3, Hg3, Hl3, Hs3.
    split; [done|]. split; [eapply grows_trans; [exact Hg1|by eapply grows_trans]|].
    split.
    - intros p Hp Hne. destruct (Hs3 p) as (_ & _ & ->). rewrite decide_False by done.
      rewrite Hsame by lia. by destruct (Hold1 p Hp) as (_ & _ & ->).
    - right. exists (length st). destruct (Hs3 self) as (_ & _ & ->).
      rewrite decide_True by done. rewrite Hsame by lia.
      destruct (Hold1 self Hself) as (_ & _ & ->). split; [done|]. split; [done|].
      destruct (Hs3 (length st)) as (-> & -> & ->). rewrite decide_False by lia.
      destruct Hg2 as [_ Hg2]. destruct (Hg2 (length st) ltac:(lia)) as (-> & -> & _).
      rewrite Hsame by lia. repeat split; assumption. }
  destruct (Api.var_new a) as [vn|].
  2: { subst r. injection Hst as <-. apply Hlink; [done|apply grows_refl|done]. }
  destruct (Hapi.findApi h (Api.get vn)) as [getApi|].
  2: { subst r. injection Hst as <-. apply Hthrow; [done|apply grows_refl|done]. }
  destruct (Hapi.findApi h (Api.delete vn)) as [deleteApi|].
  2: { subst r. injection Hst as <-. apply Hthrow; [done|apply grows_refl|done]. }
  destruct (newNode st1 (Some getApi) (Some (length st))) as [pre st2] eqn:Hn2.
  cbv beta iota zeta in Hr.
  assert (Hq2 : ∀ q, Some (length st) = Some q → q < length st1)
    by (intros q [= <-]; lia).
  destruct (newNode_wf _ _ _ _ _ Hwf1 Hq2 Hn2) as [Hwf2 Hg2].
  apply newNode_spec in Hn2 as (-> & Hl2 & Hold2 & Ha2 & Hp2 & Hc2).
  set (st3 := alter (set_preRun (length st1)) (length st) st2) in *.
  pose proof (sameShape_alter (set_preRun (length st1)) (length st) st2
                (keepsShape_set_preRun _)) as Hs3. fold st3 in Hs3.
  pose proof (wf_sameShape _ _ Hs3 Hwf2) as Hwf3.
  pose proof (sameShape_grows _ _ Hs3) as Hg3.
  assert (Hl3 : length st3 = length st2) by apply Hs3.
  destruct (addChild fuel h st3 (length st1) deleteApi) as [c st4|e st4|] eqn:Hadd.
  3: { subst r. simpl in Hst. discriminate. }
  all: destruct (IH _ _ _ _ st4 Hadd eq_refl Hwf3 ltac:(lia)) as (Hwf4 & Hg4 & Hsame4 & _).
  all: assert (Hsame14 : ∀ p, p < length st1 → childrenOf st4 p = childrenOf st1 p).
  1, 3: intros p Hp; rewrite Hsame4 by lia;
        destruct Hs3 as [_ Hs3]; destruct (Hs3 p) as (_ & _ & ->);
        by destruct (Hold2 p Hp) as (_ & _ & ->).
  all: assert (Hg14 : grows st1 st4)
         by (eapply grows_trans; [exact Hg2|]; eapply grows_trans; [exact Hg3|exact Hg4]).
  2: { subst r. injection Hst as <-. by apply Hthrow. }
  destruct (newNode st4 (Some deleteApi) (Some (length st))) as [post st5] eqn:Hn5.
  cbv beta iota zeta in Hr.
  assert (Hlen4 : length st1 ≤ length st4) by apply Hg14.
  assert (Hq5 : ∀ q, Some (length st) = Some q → q < length st4)
    by (intros q [= <-]; lia).
  destruct (newNode_wf _ _ _ _ _ Hwf4 Hq5 Hn5) as [Hwf5 Hg5].
  apply newNode_spec in Hn5 as (-> & Hl5 & Hold5 & Ha5 & Hp5 & Hc5).
  set (st6 := alter (set_postRun (length st4)) (length st) st5) in *.
  pose proof (sameShape_alter (set_postRun (length st4)) (length st) st5
                (keepsShape_set_postRun _)) as Hs6. fold st6 in Hs6.
  subst r. injection Hst as <-. apply Hlink.
  - by eapply wf_sameShape.
  - eapply grows_trans; [exact Hg14|]. eapply grows_trans; [exact Hg5|].
    by apply sameShape_grows.
  - intros p Hp. destruct Hs6 as [_ Hs6]. destruct (Hs6 p) as (_ & _ & ->).
    destruct (Hold5 p ltac:(lia)) as (_ & _ & ->). by apply Hsame14.
Qed.

(** ** The planner: the invariant of the tree *)

(** The pairs of a node of the plan and a child in the grown heap are those
    of the old heap, or satisfy the invariant themselves. *)
Lemma treeOk_grows h st st' :
  planOk h st → grows st st' →
  (∀ p c, inTree st' p → c ∈ childrenOf st' p →
     (inTree st p ∧ c ∈ childrenOf st p) ∨
     ∃ a, apiOf st' c = Some a ∧ parentOf st' c = Some p ∧
          getUndefinedVars h st' p a = []) →
  treeOk h st'.
Proof.
  intros [Hwf Hok] Hg Hnew p c Hp Hc.
  destruct (Hnew p c Hp Hc) as [[Hp0 Hc0]|Hn]; [|exact Hn].
  destruct (Hok p c Hp0 Hc0) as (a & Ha & Hpar & Hu). exists a.
  assert (Hclt : c < length st) by (by eapply Hwf).
  assert (Hplt : p < length st) by (by eapply inTree_lt).
  destruct Hg as [Hl Hg']. destruct (Hg' c Hclt) as (-> & -> & _).
  split; [done|]. split; [done|].
  rewrite (getUndefinedVars_grows h st st') by done. exact Hu.
Qed.

Lemma inTree_sameShape st st' n : sameShape st st' → inTree st' n → inTree st n.
Proof.
  intros [_ Hs]. induction 1 as [|p c Hp IH Hin]; [constructor|].
  apply (inTree_child _ p); [exact IH|]. by destruct (Hs p) as (_ & _ & <-).
Qed.

Lemma planOk_sameShape h st st' : sameShape st st' → planOk h st → planOk h st'.
Proof.
  intros Hs Hok. split; [eapply wf_sameShape; [exact Hs|apply Hok]|].
  apply (treeOk_grows h st); [done|by apply sameShape_grows|].
  intros p c Hp Hc. left. split; [by eapply inTree_sameShape|].
  destruct Hs as [_ Hs]. by destruct (Hs p) as (_ & _ & <-).
Qed.

(** Appending where nothing is undefined keeps the invariant. *)
Lemma addChild_planOk fuel h st self a r st' :
  addChild fuel h st self a = r → store_of r = Some st' →
  planOk h st → inTree st self → getUndefinedVars h st self a = [] →
  planOk h st' ∧ grows st st'.
Proof.
  intros Hr Hst Hok Hself Hu.
  assert (Hslt : self < length st) by (eapply inTree_lt; [apply Hok|done]).
  destruct (addChild_spec _ _ _ _ _ _ _ Hr Hst (proj1 Hok) Hslt)
    as (Hwf' & Hg & Hsame & Happ).
  split; [|exact Hg]. split; [exact Hwf'|].
  assert (Htree : ∀ p, inTree st' p →
            inTree st p ∨
            (childrenOf st' p = [] ∧ childrenOf st' self = childrenOf st self ++ [p] ∧
             apiOf st' p = Some a ∧ parentOf st' p = Some self)).
  { induction 1 as [|q c Hq IH Hin]; [left; constructor|].
    destruct IH as [IH|(Hnil & _)]; [|rewrite Hnil in Hin; by apply elem_of_nil in Hin].
    assert (Hqlt : q < length st) by (eapply inTree_lt; [apply Hok|done]).
    destruct (decide (q = self)) as [->|Hne].
    - destruct Happ as [Heq|(c0 & Heq & Hc0 & Ha0 & Hp0 & Hn0)]; rewrite Heq in Hin.
      + left. by eapply inTree_child.
      + apply elem_of_app in Hin as [Hin|Hin]; [left; by eapply inTree_child|].
        apply list_elem_of_singleton in Hin as ->. right. done.
    - rewrite Hsame in Hin by done. left. by eapply inTree_child. }
  apply (treeOk_grows h st); [done|done|].
  intros p c Hp Hc. destruct (Htree p Hp) as [Hp0|(Hnil & _)];
    [|rewrite Hnil in Hc; by apply elem_of_nil in Hc].
  assert (Hplt : p < length st) by (eapply inTree_lt; [apply Hok|done]).
  destruct (decide (p = self)) as [->|Hne].
  - destruct Happ as [Heq|(c0 & Heq & Hc0 & Ha0 & Hp0' & Hn0)]; rewrite Heq in Hc.
    + by left.
    + apply elem_of_app in Hc as [Hc|Hc]; [by left|].
      apply list_elem_of_singleton in Hc as ->. right. exists a.
      split; [done|]. split; [done|].
      rewrite (getUndefinedVars_grows h st st') by (done || apply Hok). exact Hu.
  - rewrite Hsame in Hc by done. by left.
Qed.

(** The equation of [insertApi] for a positive fuel. *)
Lemma insertApi_S fuel h st self a :
  insertApi (S fuel) h st self a =
  if isInserting st self (Api.name a) then Ok tt st
  else
    let st := alter (set_inserting (Api.name a) true) self st in
    if negb (Hapi.isInsertableApi h a) then Ok tt st
    else if usesApi st self a then Ok tt st
    else
      let undefinedVars := getUndefinedVars h st self a in
      match undefinedVars with
      | [] =>
          match addChild fuel h st self a with
          | Ok _ st' => Ok tt st'
          | Throw e st' => Throw e st'
          | OutOfFuel => OutOfFuel
          end
      | varName :: _ =>
          match forChildren (λ s child, insertApi fuel h s child a)
                  fuel undefinedVars self 0 false st with
          | Ok true st1 => Ok tt st1
          | Ok false st1 =>
              match Hapi.getApiProducers h varName with
              | [] => Throw (NoProducers varName) st1
              | producers =>
                  match forProducers (λ s p, insertApi fuel h s self p)
                          producers st1 with
                  | Ok _ st2 =>
                      insertApi fuel h
                        (alter (set_inserting (Api.name a) false) self st2)
                        self a
                  | Throw e st2 => Throw e st2
                  | OutOfFuel => OutOfFuel
                  end
              end
          | Throw e st1 => Throw e st1
          | OutOfFuel => OutOfFuel
          end
      end.
Proof. reflexivity. Qed.

Lemma forChildren_planOk h body k undefinedVars self i found st r st' :
  keepsPlan h body →
  forChildren body k undefinedVars self i found st = r → store_of r = Some st' →
  planOk h st → inTree st self → planOk h st' ∧ grows st st'.
Proof.
  intros Hbody. revert i found st r.
  induction k as [|k IH]; intros i found st r Hr Hst Hok Hself.
  { simpl in Hr. subst r. discriminate. }
  simpl in Hr. destruct (childrenOf st self !! i) as [child|] eqn:Hchild.
  2: { subst r. injection Hst as <-. split; [done|apply grows_refl]. }
  destruct (producesVar st child undefinedVars); [|by eapply IH].
  assert (Hin : inTree st child).
  { eapply inTree_child; [exact Hself|]. by eapply list_elem_of_lookup_2. }
  destruct (body st child) as [u st1|e st1|] eqn:Hb.
  - destruct (Hbody _ _ _ st1 Hb eq_refl Hok Hin) as [Hok1 Hg1].
    destruct (IH _ _ _ _ Hr Hst Hok1) as [Hok' Hg'].
    { eapply inTree_grows; [apply Hok|done|done]. }
    split; [done|by eapply grows_trans].
  - subst r. injection Hst as <-. by eapply Hbody.
  - subst r. discriminate.
Qed.

Lemma forProducers_planOk h (body : Store → Api.t → result unit) self producers st r st' :
  (∀ s p r s', body s p = r → store_of r = Some s' →
               planOk h s → inTree s self → planOk h s' ∧ grows s s') →
  forProducers body producers st = r → store_of r = Some st' →
  planOk h st → inTree st self → planOk h st' ∧ grows st st'.
Proof.
  intros Hbody. revert st r.
  induction producers as [|p producers IH]; intros st r Hr Hst Hok Hself; simpl in Hr.
  { subst r. injection Hst as <-. split; [done|apply grows_refl]. }
  destruct (body st p) as [u st1|e st1|] eqn:Hb.
  - destruct (Hbody _ _ _ st1 Hb eq_refl Hok Hself) as [Hok1 Hg1].
    destruct (IH _ _ Hr Hst Hok1) as [Hok' Hg'].
    { eapply inTree_grows; [apply Hok|done|done]. }
    split; [done|by eapply grows_trans].
  - subst r. injection Hst as <-. by eapply Hbody.
  - subst r. discriminate.
Qed.

(** [insertApi] at a node of the plan keeps the invariant, whether it
    returns or throws. *)
Lemma insertApi_planOk fuel h st self a r st' :
  insertApi fuel h st self a = r → store_of r = Some st' →
  planOk h st → inTree st self → planOk h st' ∧ grows st st'.
Proof.
  revert st self a r st'.
  induction fuel as [|fuel IH]; intros st self a r st' Hr Hst Hok Hself.
  { simpl in Hr. subst r. discriminate. }
  rewrite insertApi_S in Hr.
  destruct (isInserting st self (Api.name a)).
  { subst r. injection Hst as <-. split; [done|apply grows_refl]. }
  cbv zeta in Hr.
  set (st1 := alter (set_inserting (Api.name a) true) self st) in *.
  pose proof (sameShape_alter (set_inserting (Api.name a) true) self st
                (keepsShape_set_inserting _ _)) as Hs1. fold st1 in Hs1.
  pose proof (planOk_sameShape h _ _ Hs1 Hok) as Hok1.
  pose proof (sameShape_grows _ _ Hs1) as Hg1.
  assert (Hself1 : inTree st1 self) by (eapply inTree_grows; [apply Hok|done|done]).
  destruct (negb (Hapi.isInsertableApi h a)).
  { subst r. by injection Hst as <-. }
  destruct (usesApi st1 self a).
  { subst r. by injection Hst as <-. }
  destruct (getUndefinedVars h st1 self a) as [|varName rest] eqn:Hu.
  { destruct (addChild fuel h st1 self a) as [c st2|e st2|] eqn:Hadd;
      [| |subst r; discriminate].
    all: subst r; injection Hst as <-.
    all: destruct (addChild_planOk _ _ _ _ _ _ st2 Hadd eq_refl Hok1 Hself1 Hu) as [Hok2 Hg2].
    all: split; [done|by eapply grows_trans]. }
  destruct (forChildren _ fuel (varName :: rest) self 0 false st1)
    as [found st2|e st2|] eqn:Hloop; [| |subst r; discriminate].
  all: destruct (forChildren_planOk h _ _ _ _ _ _ _ _ st2
                   (λ s n r s', IH s n a r s') Hloop eq_refl Hok1 Hself1) as [Hok2 Hg2].
  2: { subst r. injection Hst as <-. split; [done|by eapply grows_trans]. }
  assert (Hg02 : grows st st2) by (by eapply grows_trans).
  destruct found.
  { subst r. by injection Hst as <-. }
  assert (Hself2 : inTree st2 self) by (eapply inTree_grows; [apply Hok1|done|done]).
  destruct (Hapi.getApiProducers h varName) as [|p producers].
  { subst r. by injection Hst as <-. }
  destruct (forProducers _ (p :: producers) st2) as [u st3|e st3|] eqn:Hprod;
    [| |subst r; discriminate].
  all: destruct (forProducers_planOk h _ self _ _ _ st3
                   (λ s p r s', IH s self p r s') Hprod eq_refl Hok2 Hself2) as [Hok3 Hg3].
  2: { subst r. injection Hst as <-. split; [done|by eapply grows_trans]. }
  set (st4 := alter (set_inserting (Api.name a) false) self st3) in *.
  pose proof (sameShape_alter (set_inserting (Api.name a) false) self st3
                (keepsShape_set_inserting _ _)) as Hs4. fold st4 in Hs4.
  pose proof (planOk_sameShape h _ _ Hs4 Hok3) as Hok4.
  pose proof (sameShape_grows _ _ Hs4) as Hg4.
  assert (Hself3 : inTree st3 self) by (eapply inTree_grows; [apply Hok2|done|done]).
  assert (Hself4 : inTree st4 self) by (eapply inTree_grows; [apply Hok3|done|done]).
  destruct (IH _ _ _ _ _ Hr Hst Hok4 Hself4) as [Hok' Hg'].
  split; [done|].
  eapply grows_trans; [exact Hg02|]. eapply grows_trans; [exact Hg3|].
  by eapply grows_trans.
Qed.

Lemma planOk_emptyTree h : planOk h emptyTree.
Proof.
  split.
  - repeat split; [simpl; lia|..].
    + intros n p. by destruct n as [|[|n]].
    + intros p c. destruct p as [|[|p]]; intros Hc; by apply elem_of_nil in Hc.
  - intros p c Hp Hc. exfalso.
    assert (Hnil : ∀ q, childrenOf emptyTree q = []) by (by intros [|[|q]]).
    rewrite Hnil in Hc. by apply elem_of_nil in Hc.
Qed.

Lemma compileLoop_planOk fuel h apisToInsert st errors st' errors' :
  compileLoop fuel h apisToInsert st errors = Some (st', errors') →
  planOk h st → planOk h st'.
Proof.
  revert st errors. induction apisToInsert as [|a rest IH]; intros st errors H Hok;
    simpl in H.
  { by injection H as <- _. }
  assert (Hroot : inTree st root) by constructor.
  destruct (insertApi fuel h st root a) as [u st1|e st1|] eqn:Hi; [| |discriminate].
  all: destruct (insertApi_planOk _ _ _ _ _ _ st1 Hi eq_refl Hok Hroot) as [Hok1 _].
  all: by eapply IH.
Qed.

(** ** Dependency completeness *)

Lemma elem_of_pullAll (l xs : list string) (v : string) :
  v ∈ JsArray.pullAll l xs ↔ v ∈ l ∧ v ∉ xs.
Proof. unfold JsArray.pullAll. rewrite list_elem_of_filter. tauto. Qed.

(** A consumed variable that no API on the way to the root produces and
    that is not predefined is among the undefined variables. *)
Lemma getUndefinedVars_nil h st self a v :
  getUndefinedVars h st self a = [] → v ∈ Api.consumes a →
  (∃ m b, m ∈ chain st self ∧ apiOf st m = Some b ∧ v ∈ Api.produces b) ∨
  v ∈ Hapi.getPredefinedVars h a.
Proof.
  unfold getUndefinedVars. intros Hnil Hv.
  destruct (decide (v ∈ Hapi.getPredefinedVars h a)) as [|Hpre]; [by right|left].
  assert (Hout : v ∉ foldl (λ undefinedVars n,
             match apiOf st n with
             | Some b => JsArray.pullAll undefinedVars (Api.produces b)
             | None => undefinedVars
             end) (Api.consumes a) (chain st self)).
  { intros Hin. assert (Hin' : v ∈ JsArray.pullAll
        (foldl (λ undefinedVars n,
             match apiOf st n with
             | Some b => JsArray.pullAll undefinedVars (Api.produces b)
             | None => undefinedVars
             end) (Api.consumes a) (chain st self)) (Hapi.getPredefinedVars h a))
      by (by apply elem_of_pullAll).
    rewrite Hnil in Hin'. by apply elem_of_nil in Hin'. }
  clear Hnil. revert Hv Hout. generalize (Api.consumes a).
  induction (chain st self) as [|m l IH]; intros acc Hv Hout; [done|].
  simpl in Hout. destruct (apiOf st m) as [b|] eqn:Hb.
  - destruct (decide (v ∈ Api.produces b)) as [Hp|Hp].
    + exists m, b. split; [apply list_elem_of_here|done].
    + destruct (IH (JsArray.pullAll acc (Api.produces b))) as (m' & b' & Hm' & Hb' & Hv');
        [by apply elem_of_pullAll|done|].
      exists m', b'. split; [by apply list_elem_of_further|done].
  - destruct (IH acc Hv Hout) as (m' & b' & Hm' & Hb' & Hv').
    exists m', b'. split; [by apply list_elem_of_further|done].
Qed.

Lemma planOk_dependenciesMet h st n :
  planOk h st → inTree st n → dependenciesMet h st n.
Proof.
  intros [Hwf Hok] Hn a v Ha Hv. destruct Hn as [|p c Hp Hc].
  - destruct Hwf as (_ & Hroot & _). congruence.
  - destruct (Hok p c Hp Hc) as (a' & Ha' & Hpar & Hu).
    assert (a' = a) as -> by congruence.
    destruct (getUndefinedVars_nil _ _ _ _ v Hu Hv) as [(m & b & Hm & Hb & Hvb)|Hpre];
      [left|by right].
    exists m, b. split; [|done].
    eapply ancestorOrSelf_parent; [exact Hpar|]. by eapply chain_fuel_ancestor.
Qed.

(** C1, as the code has it: in the tree a compile returns (with or without
    collected errors),
    every node reachable from the root through [children] has its
    dependencies met: each variable its API consumes is produced by the API
    of the node or of one of its ancestors, or is predefined.  And every
    such node below the root is a child of its parent whose API had no
    undefined variable there: [insertApi] appends only where
    [getUndefinedVars] is empty.  (The [preRun] and [postRun] satellites
    are not in [children], and nothing is checked for them: the example
    after this theorem shows one.) *)
Theorem compile_dependency_completeness fuel h apisToInsert st errs :
  compile fuel h apisToInsert = Some (st, errs) →
  ∀ n, inTree st n →
    dependenciesMet h st n ∧
    ∀ p, parentOf st n = Some p →
      n ∈ childrenOf st p ∧
      ∃ a, apiOf st n = Some a ∧ getUndefinedVars h st p a = [].
Proof.
  intros Hc n Hn.
  assert (Hok : planOk h st).
  { eapply compileLoop_planOk; [exact Hc|apply planOk_emptyTree]. }
  split; [by apply planOk_dependenciesMet|].
  intros p Hp. destruct Hn as [|p' c Hp' Hc'].
  - destruct Hok as [(_ & _ & Hlt & _) _]. apply Hlt in Hp. unfold root in Hp. lia.
  - destruct Hok as [_ Ht]. destruct (Ht p' c Hp' Hc') as (a & Ha & Hpar & Hu).
    assert (p' = p) as -> by congruence. split; [done|]. by exists a.
Qed.

(** C1, counterexample to the claim for every node of the compiled tree:
    the compile of the constructor [createApp] with its getter and its
    destructor succeeds without an error, and the [postRun] node of the
    node of [createApp] hosts [delApp], which consumes [token]: no API on
    the way to the root produces it, and it is not predefined. *)
Lemma satellite_dependencies_not_met :
  compile 10 appCorpus [createApp; getApp; delApp] = Some (appPlan, []) ∧
  inPlan appPlan 4 ∧ apiOf appPlan 4 = Some delApp ∧
  ¬ dependenciesMet appCorpus appPlan 4.
Proof.
  split; [vm_compute; reflexivity|]. split; [|split; [vm_compute; reflexivity|]].
  - apply (inPlan_postRun _ 1); [|vm_compute; reflexivity].
    apply (inPlan_child _ 0); [apply inPlan_root|].
    apply (bool_decide_unpack _); vm_compute; exact I.
  - intros Hmet.
    destruct (Hmet delApp "token" eq_refl) as [(m & b & Hanc & Hb & Hv)|Hpre].
    + apply (bool_decide_unpack _); vm_compute; exact I.
    + assert (Hm : m = 4 ∨ m = 1 ∨ m = 0).
      { inversion Hanc as [|n p m' Hp Hrest]; subst; [by left|right].
        vm_compute in Hp. injection Hp as <-.
        inversion Hrest as [|n p m' Hp Hrest']; subst; [by left|right].
        vm_compute in Hp. injection Hp as <-.
        inversion Hrest' as [|n p m' Hp Hrest'']; subst; [done|].
        vm_compute in Hp. discriminate. }
      destruct Hm as [->|[->| ->]]; vm_compute in Hb; [| |discriminate];
        injection Hb as <-; revert Hv; apply (bool_decide_unpack _); vm_compute; exact I.
    + revert Hpre. apply (bool_decide_unpack _); vm_compute; exact I.
Qed.

(** ** The re-entrancy flag and the producers of a variable *)

Lemma lookup_set_inserting name b (self : nat) (st : Store) (n : nat) :
  alter (set_inserting name b) self st !! n
  = (if decide (self = n) then set_inserting name b else id) <$> st !! n.
Proof.
  destruct (decide (self = n)) as [->|Hne].
  - apply list_lookup_alter_eq.
  - rewrite list_lookup_alter_ne by done. by destruct (st !! n).
Qed.

Lemma subTreeProducesOf_set_inserting name b (self : nat) (st : Store) (n : nat) :
  subTreeProducesOf (alter (set_inserting name b) self st) n = subTreeProducesOf st n.
Proof.
  unfold subTreeProducesOf. rewrite lookup_set_inserting.
  destruct (st !! n); [|done]. by destruct (decide (self = n)).
Qed.

Lemma producesVar_set_inserting name b (self : nat) (st : Store) (n : nat) varNames :
  producesVar (alter (set_inserting name b) self st) n varNames = producesVar st n varNames.
Proof. unfold producesVar. by rewrite subTreeProducesOf_set_inserting. Qed.

Lemma usesApi_sameShape st st' self a :
  sameShape st st' → usesApi st' self a = usesApi st self a.
Proof.
  intros Hs. unfold usesApi. rewrite (chain_sameShape _ _ _ Hs).
  destruct Hs as [_ Hs]. induction (chain st self) as [|n l IH]; [done|].
  simpl. destruct (Hs n) as (-> & _ & _). by rewrite IH.
Qed.

Lemma getUndefinedVars_sameShape h st st' self a :
  sameShape st st' → getUndefinedVars h st' self a = getUndefinedVars h st self a.
Proof.
  intros Hs. unfold getUndefinedVars. rewrite (chain_sameShape _ _ _ Hs).
  destruct Hs as [_ Hs]. f_equal. generalize (Api.consumes a).
  induction (chain st self) as [|n l IH]; intros acc; [done|].
  simpl. destruct (Hs n) as (-> & _ & _). apply IH.
Qed.


(** The producers of a variable are the APIs of the corpus whose
    [produces] lists it. *)
Lemma getApiProducers_spec h varName p :
  p ∈ Hapi.getApiProducers h varName ↔ p ∈ Hapi.apis h ∧ varName ∈ Api.produces p.
Proof.
  unfold Hapi.getApiProducers.
  assert (Hgen : ∀ l acc,
    p ∈ foldl (λ acc a, if decide (varName ∈ Api.produces a)
                        then JsArray.addUniq acc a else acc) acc l
    ↔ p ∈ acc ∨ (p ∈ l ∧ varName ∈ Api.produces p)).
  { induction l as [|a l IH]; intros acc; simpl.
    - split; [by left|]. intros [?|[H _]]; [done|by apply elem_of_nil in H].
    - rewrite IH. rewrite elem_of_cons. unfold JsArray.addUniq.
      destruct (decide (varName ∈ Api.produces a)) as [Hv|Hv].
      + destruct (decide (a ∈ acc)) as [Ha|Ha].
        * split; [tauto|]. intros [?|[[->|?] ?]]; tauto.
        * rewrite elem_of_app, list_elem_of_singleton.
          split; [intros [[?| ->]|?]; tauto|]. intros [?|[[->|?] ?]]; tauto.
      + split; [tauto|]. intros [?|[[->|?] ?]]; tauto. }
  rewrite Hgen. split; [|tauto]. intros [H|?]; [by apply elem_of_nil in H|done].
Qed.

(** C1 at the plan of the producer-seeding scenario: the node of [useX]. *)
Lemma compile_dependency_completeness_witness :
  compile 10 corpus [useX] = Some (seededPlan, []) ∧
  inTree seededPlan 2 ∧
  dependenciesMet corpus seededPlan 2 ∧
  ∀ p, parentOf seededPlan 2 = Some p →
    2 ∈ childrenOf seededPlan p ∧
    ∃ a, apiOf seededPlan 2 = Some a ∧ getUndefinedVars corpus seededPlan p a = [].
Proof.
  assert (Hc : compile 10 corpus [useX] = Some (seededPlan, [])) by (vm_compute; reflexivity).
  assert (Hn : inTree seededPlan 2).
  { apply (inTree_child _ 1); [apply (inTree_child _ 0); [apply inTree_root|]|];
      apply (bool_decide_unpack _); vm_compute; exact I. }
  split; [exact Hc|]. split; [exact Hn|].
  exact (compile_dependency_completeness 10 corpus [useX] seededPlan [] Hc 2 Hn).
Defined.

(** Without [makeX] in the corpus, [compile] collects the error that names
    [x] for [useX]. *)
Example compile_reports_missing_producer :
  let h := {| Hapi.apis := [useX]; Hapi.referencedApis := []; Hapi.vars := [] |} in
  snd <$> compile 10 h [useX] = Some [("useX", NoProducers "x")].
Proof. vm_compute. reflexivity. Qed.

(** The satellites of a constructor are created by [addChild] without a
    look at their variables: the [postRun] node of [createApp] hosts
    [delApp] although [token] is undefined there, and [compile] reports no
    error. *)
Example satellites_are_not_checked :
  snd <$> compile 10 appCorpus [createApp; getApp; delApp] = Some [] ∧
  childrenOf appPlan root = [1] ∧ apiOf appPlan 1 = Some createApp ∧
  childrenOf appPlan 1 = [] ∧
  postRun <$> appPlan !! 1 = Some (Some 4) ∧
  apiOf appPlan 4 = Some delApp ∧ parentOf appPlan 4 = Some 1 ∧
  getUndefinedVars appCorpus appPlan 1 delApp = ["token"].
Proof. vm_compute. repeat split. Qed.

End PlannerStore.

(* ===================================================================== *)
(** * Part IV: further properties                                         *)
(* ===================================================================== *)

(** ** When [gendoc] succeeds *)

Lemma vhost_gendoc_errors (v : Gendoc.VirtualHost) (errs : list string) :
  ∃ more, (Gendoc.vhost_gendoc v errs).2 = errs ++ more ∧
          (Forall (λ m, Gendoc.private m = false → Gendoc.addDoc m = None) (Gendoc.mapis v)
           ∨ Gendoc.swagger v = false → more = []) ∧
          (more = [] → Gendoc.swagger v = true →
           Forall (λ m, Gendoc.private m = false → Gendoc.addDoc m = None) (Gendoc.mapis v)).
Proof.
  unfold Gendoc.vhost_gendoc. destruct (Gendoc.swagger v) eqn:Hs; simpl.
  2: { exists []. rewrite app_nil_r. split; [done|]. split; [done|]. discriminate. }
  generalize (Gendoc.mapis v) errs. clear.
  induction l as [|m l IH]; intros errs; simpl.
  { exists []. rewrite app_nil_r. split; [done|]. split; [done|]. intros _ _. constructor. }
  destruct (Gendoc.private m) eqn:Hp.
  { destruct (IH errs) as (more & Heq & H1 & H2). exists more. split; [done|]. split.
    - intros [H|H]; [|done]. apply H1. left. by inversion H.
    - intros Hm Ht. constructor; [rewrite Hp; discriminate|by apply H2]. }
  destruct (Gendoc.addDoc m) as [e|] eqn:Ha.
  - destruct (IH (errs ++ ["Failure in " +:+ Gendoc.name m +:+ ": " +:+ e]))
      as (more & Heq & _ & _).
    exists (("Failure in " +:+ Gendoc.name m +:+ ": " +:+ e) :: more).
    split; [by rewrite Heq, <- app_assoc|]. split.
    + intros [H|H]; [|done]. inversion H as [|? ? Hm _]; subst. specialize (Hm Hp). congruence.
    + discriminate.
  - destruct (IH errs) as (more & Heq & H1 & H2). exists more. split; [done|]. split.
    + intros [H|H]; [|done]. apply H1. left. by inversion H.
    + intros Hm Ht. constructor; [done|by apply H2].
Qed.

Lemma gendoc_step_errors (v : Gendoc.VirtualHost) (r : Z) (errs : list string) :
  ∃ more, (Gendoc.gendoc_step (r, errs) v).2 = errs ++ more ∧
          (vhostClean v → more = [] ∧ (Gendoc.gendoc_step (r, errs) v).1 = r) ∧
          (more = [] → vhostClean v).
Proof.
  destruct (vhost_gendoc_errors v errs) as (more & Heq & H1 & H2).
  unfold Gendoc.gendoc_step, vhostClean.
  destruct (Gendoc.vhost_gendoc v errs) as [[[]|e] errs'] eqn:Hv; simpl in Heq; subst errs'.
  - assert (Hsw : Gendoc.swagger v = true).
    { unfold Gendoc.vhost_gendoc in Hv. by destruct (Gendoc.swagger v). }
    destruct (Gendoc.writeFileSync v) as [e|] eqn:Hw; simpl.
    + eexists. split; [by rewrite <- app_assoc|]. split.
      * intros (_ & ? & _). congruence.
      * intros H. by destruct more.
    + exists more. split; [done|]. split.
      * intros (_ & _ & Hm). split; [|done]. apply H1. by left.
      * intros Hm. split; [done|]. split; [done|]. by apply H2.
  - assert (Hsw : Gendoc.swagger v = false).
    { unfold Gendoc.vhost_gendoc in Hv. by destruct (Gendoc.swagger v). }
    simpl. eexists. split; [by rewrite <- app_assoc|]. split.
    + intros (? & _). congruence.
    + intros H. by destruct more.
Qed.

Lemma gendoc_loop_errors (vs : list Gendoc.VirtualHost) (r : Z) (errs : list string) :
  ∃ more, (foldl Gendoc.gendoc_step (r, errs) vs).2 = errs ++ more ∧
          (Forall vhostClean vs → more = [] ∧ (foldl Gendoc.gendoc_step (r, errs) vs).1 = r) ∧
          (more = [] → Forall vhostClean vs).
Proof.
  revert r errs. induction vs as [|v vs IH]; intros r errs; cbn [foldl].
  { exists []. rewrite app_nil_r. split; [done|]. split; [done|]. constructor. }
  destruct (gendoc_step_errors v r errs) as (more1 & Heq1 & Hc1 & Hn1).
  destruct (Gendoc.gendoc_step (r, errs) v) as [r1 errs1]. simpl in Heq1, Hc1. subst errs1.
  destruct (IH r1 (errs ++ more1)) as (more2 & Heq2 & Hc2 & Hn2).
  exists (more1 ++ more2). split; [by rewrite Heq2, <- app_assoc|]. split.
  - intros H. inversion H as [|? ? Hv Hvs]; subst.
    destruct (Hc1 Hv) as [-> ->]. destruct (Hc2 Hvs) as [-> ->]. done.
  - intros H. apply app_eq_nil in H as [-> ->]. constructor; [by apply Hn1|by apply Hn2].
Qed.

(** [gendoc] returns 0 exactly when no error was on record before it ran
    and every virtual host is generated and written without an error; an
    error left over from loading makes it return 3 although the
    documentation was generated. *)
Theorem gendoc_returns_0_iff (h : Gendoc.Hapi) :
  (Gendoc.gendoc h).1 = 0%Z ↔
  Gendoc.errors h = [] ∧ Forall vhostClean (Gendoc.virtualHosts h).
Proof.
  unfold Gendoc.gendoc.
  destruct (gendoc_loop_errors (Gendoc.virtualHosts h) 0%Z (Gendoc.errors h))
    as (more & Heq & Hc & Hn).
  destruct (foldl Gendoc.gendoc_step (0%Z, Gendoc.errors h) (Gendoc.virtualHosts h))
    as [r errs]. simpl in Heq, Hc. subst errs.
  destruct (decide (0 < length (Gendoc.errors h ++ more))) as [Hlen|Hlen]; simpl.
  - split; [discriminate|]. intros [He Hv]. destruct (Hc Hv) as [-> _].
    rewrite He in Hlen. simpl in Hlen. lia.
  - assert (Hnil : Gendoc.errors h ++ more = []).
    { destruct (Gendoc.errors h ++ more); [done|simpl in Hlen; lia]. }
    apply app_eq_nil in Hnil as [He ->]. split.
    + intros _. split; [done|by apply Hn].
    + intros [_ Hv]. by destruct (Hc Hv) as [_ ->].
Qed.

(** ** The critical path of the waterfall *)


(** ** Hook chains of user functions *)

Lemma quietEnd_cons h hooks r :
  quietEnd hooks r →
  (∀ ctx', r = Hook.Callback None ctx' → Hook.break ctx' = false →
           ∀ f, Hook.hook h = Hook.Func f → Hook.setsBreak f = false) →
  quietEnd (h :: hooks) r.
Proof.
  destruct r as [err ctx'|msg ctx'|ex]; simpl; [|done|].
  - intros (-> & Hf & Hb) Hh. split; [done|]. split; [done|]. split.
    + intros Hbreak. apply Hb in Hbreak as (h' & f' & Hin & Hrest).
      exists h', f'. split; [by apply list_elem_of_further|exact Hrest].
    + intros (h' & f' & Hin & Hh' & Hs'). apply elem_of_cons in Hin as [->|Hin].
      * destruct (Hook.break ctx') eqn:Hbc; [done|].
        rewrite (Hh ctx' eq_refl Hbc f' Hh') in Hs'. discriminate.
      * apply Hb. by exists h', f'.
  - intros (h' & Hin & He) _. exists h'. split; [by apply list_elem_of_further|done].
Qed.

(** In a chain of user functions that leave [ctx.fatal] alone, started
    with [fatal] and [break] unset, an error that a function reports before
    it returns (it throws, or calls back at once) is dropped and the chain
    goes on; an error that a function reports after it has returned is
    thrown outside the [try]: the exception is uncaught and the callback of
    the chain is not called.  When the callback is called, it is called
    without an error, and the break flag is set exactly when one of the
    functions set it; and it is called when no function reports an error
    after it has returned. *)
Theorem function_hook_errors_need_fatal (findApi : string → bool)
    (runApi : string → Hook.RunOutcome) (hooks : list Hook.t) (ctx : Hook.HookContext) :
  Forall quietFunction hooks →
  Hook.fatal ctx = false →
  Hook.break ctx = false →
  quietEnd hooks (Hook.runHook2_array findApi runApi hooks ctx) ∧
  (Forall (λ h, lateError h = None) hooks →
   ∃ ctx', Hook.runHook2_array findApi runApi hooks ctx = Hook.Callback None ctx').
Proof.
  intros Hq. revert ctx. induction Hq as [|h rest (f & Hf & Hfatal) Hrest IH];
    intros ctx Hfat Hbrk.
  { split; [|by eexists]. simpl. split; [done|]. split; [done|]. rewrite Hbrk.
    split; [done|]. intros (h & f & Hin & _). by apply elem_of_nil in Hin. }
  cbn [Hook.runHook2_array]. unfold Hook.runHook2_hook. rewrite Hf. cbn.
  rewrite Hfatal, Hfat, Hbrk.
  set (ctx' := Hook.Build_HookContext _ _ _).
  set (k := λ (err : option string) (ctx2 : Hook.HookContext), _).
  assert (Hk : quietEnd (h :: rest) (k None ctx') ∧
               (Forall (λ h, lateError h = None) rest →
                ∃ c, k None ctx' = Hook.Callback None c)).
  { unfold k. destruct (Hook.break ctx') eqn:Hb.
    - split; [|by eexists]. simpl. split; [done|]. split; [done|].
      split; [|done]. intros _. exists h, f. split; [apply list_elem_of_here|].
      split; [done|]. unfold ctx' in Hb. simpl in Hb. by destruct (Hook.setsBreak f).
    - destruct (IH ctx' eq_refl Hb) as [Hend Hok]. split; [|exact Hok].
      apply quietEnd_cons; [done|]. intros c _ _ f' Hf'. rewrite Hf in Hf'.
      injection Hf' as <-. unfold ctx' in Hb. simpl in Hb.
      by destruct (Hook.setsBreak f). }
  destruct Hk as [Hend Hok].
  split.
  - destruct (Hook.calls f) eqn:Hc, (Hook.callbackError f) as [ex|] eqn:He.
    + exact Hend.
    + unfold Hook.inTry. by destruct (k None ctx').
    + simpl. exists h. split; [apply list_elem_of_here|].
      unfold lateError. by rewrite Hf, Hc.
    + unfold Hook.afterReturn. by destruct (k None ctx').
  - intros Hlate. apply Forall_cons in Hlate as [Hl Hlate].
    destruct (Hok Hlate) as [c Hc]. exists c.
    unfold lateError in Hl. rewrite Hf in Hl.
    destruct (Hook.calls f) eqn:Hcalls, (Hook.callbackError f) as [ex|] eqn:He;
      try discriminate.
    + exact Hc.
    + unfold Hook.inTry. by rewrite Hc.
    + unfold Hook.afterReturn. by rewrite Hc.
Qed.

Lemma function_hook_errors_need_fatal_witness :
  let fn e w b :=
    {| Hook.hook := Hook.Func {| Hook.setsBreak := b; Hook.setsFatal := false;
                                 Hook.callbackError := e; Hook.calls := w |};
       Hook.quit := None |} in
  (∃ ctx', Hook.runHook2_array (λ _, false) (λ _, Hook.Passed)
             [fn (Some "boom") Hook.AtOnce false; fn None Hook.Later true;
              fn None Hook.AtOnce false] Hook.newContext
           = Hook.Callback None ctx') ∧
  Hook.runHook2_array (λ _, false) (λ _, Hook.Passed)
    [fn (Some "boom") Hook.AtOnce false; fn (Some "late") Hook.Later false;
     fn None Hook.AtOnce false] Hook.newContext
  = Hook.Uncaught "late".
Proof.
  intros fn. split; [|reflexivity].
  apply (function_hook_errors_need_fatal (λ _, false) (λ _, Hook.Passed)
           [fn (Some "boom") Hook.AtOnce false; fn None Hook.Later true;
            fn None Hook.AtOnce false] Hook.newContext).
  - repeat constructor; eexists; (split; [reflexivity|reflexivity]).
  - reflexivity.
  - reflexivity.
  - repeat constructor.
Defined.

(** ** The name of the serialization queue *)

Lemma queueName_loop_throws (vars : Js.env) (pre : list string) (v : string)
    (post : list string) (first : bool) (acc : string) :
  Forall (hasValue vars) pre →
  Js.truthy (Js.getVar vars v) = false →
  Serial.queueName_loop vars (pre ++ v :: post) first acc = Serial.QThrow v.
Proof.
  intros Hpre Hv. revert first acc.
  induction Hpre as [|n pre [Ht [txt Htxt]] _ IH]; intros first acc; simpl.
  - by rewrite Hv.
  - rewrite Ht, Htxt. simpl. apply IH.
Qed.

(** [getSerialQueueName] throws "serial_vars ... does not have a value" for
    the first serialization variable whose value is falsy: not only an
    undefined variable, also one that holds 0, [false], [null] or the empty
    string. *)
Theorem getSerialQueueName_needs_truthy_values (vars : Js.env) (pre : list string)
    (v : string) (post : list string) :
  Forall (hasValue vars) pre →
  Js.truthy (Js.getVar vars v) = false →
  Serial.getSerialQueueName (Some (pre ++ v :: post)) vars = Serial.QThrow v.
Proof. intros Hpre Hv. by apply queueName_loop_throws. Qed.

Lemma getSerialQueueName_needs_truthy_values_witness :
  Serial.getSerialQueueName (Some (["appName"] ++ "instances" :: ["space"]))
    (<["appName" := Js.Str "demo"]> (<["instances" := Js.Num 0]> ∅))
  = Serial.QThrow "instances".
Proof.
  apply getSerialQueueName_needs_truthy_values.
  - repeat constructor. by eexists.
  - reflexivity.
Defined.


(** ** Variable combinations *)

Lemma getVar_insert_ne (vars : Js.env) (k n : string) (x : Js.value) :
  k ≠ n → Js.getVar (<[k := x]> vars) n = Js.getVar vars n.
Proof. intros H. unfold Js.getVar. by rewrite lookup_insert_ne. Qed.

Lemma length_flat_map_const {A B} (f : A → list B) (l : list A) (n : nat) :
  Forall (λ x, length (f x) = n) l → length (flat_map f l) = length l * n.
Proof.
  induction 1 as [|x l Hx _ IH]; [done|]. simpl. rewrite length_app, Hx, IH. lia.
Qed.

Lemma getVarCombinationsRecurse_length (vars : Js.env) (names : list string)
    (varsArray : list Js.env) :
  NoDup names → Forall (λ n, n ≠ "") names →
  Forall (λ v, ∀ n, n ∈ names → Js.getVar v n = Js.getVar vars n) varsArray →
  length (VarComb.getVarCombinationsRecurse varsArray names).1
  = length varsArray * foldr (λ n acc, choices vars n * acc) 1 names.
Proof.
  intros Hnd Hne. revert varsArray.
  induction Hnd as [|name names Hnotin Hnd IH]; intros varsArray Hagree.
  { simpl. lia. }
  apply Forall_cons in Hne as [Hname Hne].
  cbn [VarComb.getVarCombinationsRecurse foldr]. rewrite bool_decide_false by done.
  rewrite (IH Hne).
  - rewrite (length_flat_map_const _ _ (choices vars name)); [lia|].
    eapply Forall_impl; [exact Hagree|]. intros v Hv. simpl.
    unfold choices. rewrite <- (Hv name (list_elem_of_here _ _)).
    destruct (Js.getVar v name); try done. by rewrite length_map.
  - apply Forall_flat_map. eapply Forall_impl; [exact Hagree|]. intros v Hv. simpl.
    assert (Hrest : ∀ n, n ∈ names → Js.getVar v n = Js.getVar vars n).
    { intros n Hn. apply Hv. by apply list_elem_of_further. }
    destruct (Js.getVar v name); try (by repeat constructor).
    apply Forall_map, Forall_forall. intros x _ n Hn. simpl.
    rewrite getVar_insert_ne; [by apply Hrest|]. intros ->. done.
Qed.

(** The number of combinations is the product of the numbers of values of
    the names. *)
Theorem getVarCombinations_count (vars : Js.env) (names : list string) :
  NoDup names → Forall (λ n, n ≠ "") names →
  length (VarComb.getVarCombinations vars names).1
  = foldr (λ n acc, choices vars n * acc) 1 names.
Proof.
  intros Hnd Hne. unfold VarComb.getVarCombinations.
  rewrite (getVarCombinationsRecurse_length vars) by (try done; by repeat constructor).
  simpl. lia.
Qed.

Lemma getVarCombinations_count_witness :
  let vars : Js.env :=
    <["authHdr" := Js.Arr [Js.Str "$basicAuthHdr"; Js.Str "$tokenAuthHdr"]]>
      (<["grantType" := Js.Arr [Js.Str "password"; Js.Str "client_credentials"]]>
         (<["org" := Js.Str "acme"]> ∅)) in
  length (VarComb.getVarCombinations vars ["authHdr"; "org"; "grantType"]).1 = 4.
Proof.
  intros vars.
  rewrite (getVarCombinations_count vars ["authHdr"; "org"; "grantType"]).
  - reflexivity.
  - apply (bool_decide_unpack _). vm_compute. exact I.
  - repeat constructor; discriminate.
Defined.




Lemma product_zero (vars : Js.env) (names : list string) :
  foldr (λ n acc, choices vars n * acc) 1 names = 0 ↔
  ∃ n, n ∈ names ∧ Js.getVar vars n = Js.Arr [].
Proof.
  induction names as [|name names IH]; simpl.
  { split; [lia|]. intros (n & Hn & _). by apply elem_of_nil in Hn. }
  rewrite Nat.eq_mul_0, IH. split.
  - intros [Hc|(n & Hn & Hv)].
    + exists name. split; [apply list_elem_of_here|]. unfold choices in Hc.
      destruct (Js.getVar vars name) as [| | | | | |val|]; try lia. by destruct val.
    + exists n. split; [by apply list_elem_of_further|done].
  - intros (n & Hn & Hv). apply elem_of_cons in Hn as [->|Hn].
    + left. unfold choices. by rewrite Hv.
    + right. by exists n.
Qed.

(** [RunContext.run] throws "no var combinations" exactly when one of the
    consumed variables holds an empty array. *)
Theorem run_no_combinations_iff (heap : VarComb.Heap) (a : nat) (names : list string)
    (vars : Js.env) :
  heap !! a = Some names →
  NoDup names → Forall (λ n, n ≠ "") names →
  (VarComb.run heap (Some a) vars).1 = VarComb.NoCombinations ↔
  ∃ n, n ∈ names ∧ Js.getVar vars n = Js.Arr [].
Proof.
  intros Ha Hnd Hne. rewrite <- product_zero.
  assert (Hlen : length (VarComb.getVarCombinations vars names).1
                 = foldr (λ n acc, choices vars n * acc) 1 names).
  { unfold VarComb.getVarCombinations.
    rewrite (getVarCombinationsRecurse_length vars) by (try done; by repeat constructor).
    simpl. lia. }
  rewrite <- Hlen. unfold VarComb.run. rewrite Ha. simpl.
  destruct (VarComb.getVarCombinations vars names) as [varsArray names']. simpl.
  destruct varsArray as [|v1 [|v2 rest]]; simpl; split; try done; lia.
Qed.

Lemma run_no_combinations_iff_witness :
  let vars : Js.env := <["space" := Js.Arr []]> (<["org" := Js.Str "acme"]> ∅) in
  (VarComb.run (<[3 := ["org"; "space"]]> ∅) (Some 3) vars).1 = VarComb.NoCombinations.
Proof.
  intros vars.
  apply (run_no_combinations_iff (<[3 := ["org"; "space"]]> ∅) 3 ["org"; "space"] vars).
  - reflexivity.
  - apply (bool_decide_unpack _). vm_compute. exact I.
  - repeat constructor; discriminate.
  - exists "space". split; [apply list_elem_of_further, list_elem_of_here|reflexivity].
Defined.

(** ** The APIs that [compile] selects *)

Lemma selectApis_true names apis allApis apisToInsert :
  Select.selectApis names true apis (allApis, apisToInsert)
  = (allApis ++ apis, apisToInsert ++ apis).
Proof.
  revert allApis apisToInsert. induction apis as [|a apis IH]; intros allApis apisToInsert.
  { by rewrite !app_nil_r. }
  simpl. rewrite IH. by rewrite <- !app_assoc.
Qed.

Lemma selectApis_false ns apis allApis apisToInsert :
  Select.selectApis (Some ns) false apis (allApis, apisToInsert)
  = (allApis ++ apis, apisToInsert ++ fromFirstNamed ns apis).
Proof.
  revert allApis apisToInsert. induction apis as [|a apis IH]; intros allApis apisToInsert.
  { by rewrite !app_nil_r. }
  simpl. destruct (existsb _ ns) eqn:Hex.
  - rewrite selectApis_true. by rewrite <- !app_assoc.
  - rewrite IH. by rewrite <- !app_assoc.
Qed.

Lemma selectApis_spec names m allApis apisToInsert :
  Select.selectApis names (Select.matches m names) (Select.getApis m) (allApis, apisToInsert)
  = (allApis ++ Select.getApis m, apisToInsert ++ selectedOf names m).
Proof.
  unfold selectedOf. destruct names as [ns|].
  - destruct (Select.matches m (Some ns)); [apply selectApis_true|apply selectApis_false].
  - apply selectApis_true.
Qed.

Lemma select_loop names mapis allApis apisToInsert :
  foldl (λ st m, Select.selectApis names (Select.matches m names) (Select.getApis m) st)
    (allApis, apisToInsert) mapis
  = (allApis ++ flat_map Select.getApis mapis,
     apisToInsert ++ flat_map (selectedOf names) mapis).
Proof.
  revert allApis apisToInsert. induction mapis as [|m mapis IH]; intros allApis apisToInsert.
  { simpl. by rewrite !app_nil_r. }
  cbn [foldl flat_map]. rewrite selectApis_spec, IH. by rewrite <- !app_assoc.
Qed.

(** The corpus [hapi.apis] holds the APIs of every [mapi], in order.  Of a
    [mapi] one of whose groups starts with a test name every API is
    selected; of another, the APIs from the first one on whose name starts
    with a test name, whatever the names of the later ones.  Without test
    names every API is selected. *)
Theorem compile_selection (names : option (list string)) (mapis : list Select.Mapi) :
  Select.select names mapis
  = (flat_map Select.getApis mapis, flat_map (selectedOf names) mapis) ∧
  Select.select None mapis
  = (flat_map Select.getApis mapis, flat_map Select.getApis mapis).
Proof. split; apply select_loop. Qed.

(** A selected API is one of the corpus, and every API whose own name
    starts with a test name is selected. *)
Theorem compile_selection_sound (ns : list string) (mapis : list Select.Mapi) (a : Api.t) :
  (a ∈ (Select.select (Some ns) mapis).2 → a ∈ (Select.select (Some ns) mapis).1) ∧
  (a ∈ (Select.select (Some ns) mapis).1 →
   existsb (λ name, String.prefix name (Api.name a)) ns = true →
   a ∈ (Select.select (Some ns) mapis).2).
Proof.
  unfold Select.select. rewrite select_loop. simpl.
  assert (Hsub : ∀ apis, a ∈ fromFirstNamed ns apis → a ∈ apis).
  { induction apis as [|b apis IH]; simpl; [done|].
    destruct (existsb (λ name, String.prefix name (Api.name b)) ns); [done|].
    intros H. by apply list_elem_of_further, IH. }
  assert (Hhit : ∀ apis, a ∈ apis →
            existsb (λ name, String.prefix name (Api.name a)) ns = true →
            a ∈ fromFirstNamed ns apis).
  { induction apis as [|b apis IH]; simpl; [intros H; by apply elem_of_nil in H|].
    intros Hin Ha.
    destruct (existsb (λ name, String.prefix name (Api.name b)) ns) eqn:Hb; [done|].
    apply elem_of_cons in Hin as [->|Hin]; [congruence|by apply IH]. }
  split.
  - rewrite !list_elem_of_In, !in_flat_map. intros (m & Hm & Hin). exists m. split; [done|].
    apply list_elem_of_In. apply list_elem_of_In in Hin. unfold selectedOf in Hin.
    destruct (Select.matches m (Some ns)); [done|by apply Hsub].
  - rewrite !list_elem_of_In, !in_flat_map. intros (m & Hm & Hin) Ha. exists m. split; [done|].
    apply list_elem_of_In. apply list_elem_of_In in Hin. unfold selectedOf.
    destruct (Select.matches m (Some ns)); [done|by apply Hhit].
Qed.

(** ** The forms of a variable reference *)

Lemma spanWord_spec (s : string) :
  isWord (Subst.spanWord s).1 = true ∧ s = (Subst.spanWord s).1 +:+ (Subst.spanWord s).2.
Proof.
  induction s as [|c s IH]; [done|]. simpl.
  destruct (Subst.isWordChar c) eqn:Hc; [|done].
  destruct (Subst.spanWord s) as [w r]. simpl in *. rewrite Hc. destruct IH as [-> ->]. done.
Qed.

Lemma matchAt_reference (rest : string) :
  ∃ w, isReference (Subst.matchAt rest) w.
Proof.
  unfold Subst.matchAt, isReference.
  destruct rest as [|c rest].
  { exists "". split; [done|by left]. }
  destruct (decide (c = "{"%char)) as [->|Hc].
  - destruct (spanWord_spec rest) as [Hw _].
    destruct (Subst.spanWord rest) as [w r]. simpl in Hw.
    destruct r as [|c' r'].
    { exists "". split; [done|by left]. }
    destruct (decide (c' = "}"%char)) as [->|Hc'].
    + exists w. split; [done|by right].
    + exists "". split; [done|]. left.
      destruct c' as [[] [] [] [] [] [] [] []]; try done.
  - destruct (spanWord_spec (String c rest)) as [Hw _].
    exists (Subst.spanWord (String c rest)).1. split; [done|]. left.
    destruct c as [[] [] [] [] [] [] [] []]; try done.
Qed.

Lemma getMatches_from_reference (s : string) (skip : nat) (m : string) :
  m ∈ Subst.getMatches_from skip s → ∃ w, isReference m w.
Proof.
  revert skip. induction s as [|c s IH]; intros skip Hm; simpl in Hm.
  { by apply elem_of_nil in Hm. }
  destruct skip as [|k]; [|by eapply IH].
  destruct (bool_decide (c = "$"%char)); [|by eapply IH].
  apply elem_of_cons in Hm as [->|Hm]; [apply matchAt_reference|by eapply IH].
Qed.

Lemma substring_all (s : string) : String.substring 0 (String.length s) s = s.
Proof. induction s as [|c s IH]; [done|]. simpl. by rewrite IH. Qed.

Lemma substring_prefix (w r : string) :
  String.substring 0 (String.length w) (w +:+ r) = w.
Proof. induction w as [|c w IH]; simpl; [by destruct r|by rewrite IH]. Qed.

Lemma length_append (a b : string) :
  String.length (a +:+ b) = String.length a + String.length b.
Proof. induction a as [|c a IH]; simpl; [done|by rewrite IH]. Qed.

Lemma isWord_no_brace (w : string) :
  isWord w = true → String.prefix "{" w = false.
Proof.
  destruct w as [|c w]; [done|]. simpl. intros H. apply andb_true_iff in H as [Hc _].
  destruct c as [[] [] [] [] [] [] [] []]; try done; by destruct w.
Qed.

Lemma reference_normalized (m w : string) :
  isReference m w →
  Subst.normalizeVar m = w ∧ Doc.normalizeVarForDoc m = "{" +:+ w +:+ "}".
Proof.
  intros [Hw [->| ->]].
  - unfold Subst.normalizeVar, Doc.normalizeVarForDoc.
    assert (Hp : String.prefix "$" ("$" +:+ w) = true) by (simpl; by destruct w).
    assert (Hb : String.prefix "${" ("$" +:+ w) = false).
    { pose proof (isWord_no_brace w Hw) as Hn. simpl in *. destruct w as [|c w]; [done|].
      destruct (ascii_dec "{" c); [|done]. subst c. simpl in Hn. by destruct w. }
    rewrite Hp, Hb. simpl. rewrite ?Nat.sub_0_r, substring_all. done.
  - unfold Subst.normalizeVar, Doc.normalizeVarForDoc.
    assert (Hp : String.prefix "$" ("${" +:+ w +:+ "}") = true) by done.
    assert (Hb : String.prefix "${" ("${" +:+ w +:+ "}") = true).
    { simpl. by destruct (w +:+ "}"). }
    rewrite Hp, Hb. simpl. rewrite ?Nat.sub_0_r, substring_all.
    split; [|done].
    change ("" +:+ w +:+ "}") with (w +:+ "}").
    replace (String.length (w +:+ "}") - 1) with (String.length w)
      by (rewrite length_append; simpl; lia).
    apply (substring_prefix w "}").
Qed.

(** Every match of [getMatches] is a reference [$w] or [${w}] to a word
    [w]; [normalizeVar] gives the word, and [normalizeVarForDoc] gives it in
    braces in both cases. *)
Theorem getMatches_normalized (s m : string) :
  m ∈ Subst.getMatches s →
  isWord (Subst.normalizeVar m) = true ∧
  isReference m (Subst.normalizeVar m) ∧
  Doc.normalizeVarForDoc m = "{" +:+ Subst.normalizeVar m +:+ "}".
Proof.
  intros Hm. destruct (getMatches_from_reference s 0 m Hm) as [w Hw].
  destruct (reference_normalized m w Hw) as [-> ->]. split; [apply Hw|done].
Qed.

Lemma getMatches_normalized_witness :
  "${appGuid}" ∈ Subst.getMatches "/v2/apps/${appGuid}/routes/$route_id?q=1" ∧
  isWord (Subst.normalizeVar "${appGuid}") = true ∧
  isReference "${appGuid}" (Subst.normalizeVar "${appGuid}") ∧
  Doc.normalizeVarForDoc "${appGuid}" = "{" +:+ Subst.normalizeVar "${appGuid}" +:+ "}".
Proof.
  assert (H : "${appGuid}" ∈ Subst.getMatches "/v2/apps/${appGuid}/routes/$route_id?q=1").
  { apply (bool_decide_unpack _). vm_compute. exact I. }
  split; [exact H|].
  exact (getMatches_normalized "/v2/apps/${appGuid}/routes/$route_id?q=1" "${appGuid}" H).
Defined.

(** ** The variable names of a request *)

Lemma addUniq_NoDup {A} `{EqDecision A} (l : list A) (x : A) :
  NoDup l → NoDup (JsArray.addUniq l x).
Proof.
  intros Hl. unfold JsArray.addUniq. destruct (decide (x ∈ l)); [done|].
  apply NoDup_app. split; [done|]. split; [|apply NoDup_singleton].
  intros y Hy Hx. apply list_elem_of_singleton in Hx as ->. done.
Qed.

Lemma elem_of_addUniq {A} `{EqDecision A} (l : list A) (x y : A) :
  y ∈ JsArray.addUniq l x ↔ y ∈ l ∨ y = x.
Proof.
  unfold JsArray.addUniq. destruct (decide (x ∈ l)).
  - split; [by left|]. intros [?| ->]; done.
  - rewrite elem_of_app, list_elem_of_singleton. done.
Qed.

Lemma elem_of_scan_string (varList : list string) (ms : list string) (n : string) :
  n ∈ foldl (λ acc varStr, JsArray.addUniq acc (Subst.normalizeVar varStr)) varList ms
  ↔ n ∈ varList ∨ ∃ m, m ∈ ms ∧ n = Subst.normalizeVar m.
Proof.
  revert varList. induction ms as [|m ms IH]; intros varList; simpl.
  { split; [by left|]. intros [?|(m & Hm & _)]; [done|by apply elem_of_nil in Hm]. }
  rewrite IH, elem_of_addUniq. split.
  - intros [[?| ->]|(m' & Hm' & ->)]; [by left| |].
    + right. exists m. split; [apply list_elem_of_here|done].
    + right. exists m'. split; [by apply list_elem_of_further|done].
  - intros [?|(m' & Hm' & ->)]; [by left; left|].
    apply elem_of_cons in Hm' as [->|Hm']; [left; by right|].
    right. by exists m'.
Qed.

Lemma scanForVars_namesOk (input : Js.value) (varList : list string) :
  namesOk varList → namesOk (Subst.scanForVars input varList).
Proof.
  revert input varList. fix IH 1. intros input varList Hok.
  destruct input as [| | | |s| |l|props]; simpl; try exact Hok.
  - clear IH. assert (Hms : ∀ m, m ∈ Subst.getMatches s → isWord (Subst.normalizeVar m) = true).
    { intros m Hm. by destruct (getMatches_from_reference s 0 m Hm) as [w Hw];
        destruct (reference_normalized m w Hw) as [-> _]; apply Hw. }
    revert varList Hok Hms. generalize (Subst.getMatches s).
    induction l as [|m ms IHm]; intros varList Hok Hms; simpl; [done|].
    apply IHm.
    + destruct Hok as [Hnd Hw]. split; [by apply addUniq_NoDup|].
      apply Forall_forall. intros n Hn. apply elem_of_addUniq in Hn as [Hn| ->].
      * by eapply Forall_forall in Hw.
      * apply Hms, list_elem_of_here.
    + intros m' Hm'. apply Hms. by apply list_elem_of_further.
  - revert varList Hok. induction l as [|ele l IHl]; intros varList Hok; [done|].
    apply IHl. by apply IH.
  - revert varList Hok. induction props as [|[k v] props IHp]; intros varList Hok; [done|].
    apply IHp. by apply IH.
Qed.

Lemma elem_of_scanForVars (input : Js.value) (varList : list string) (n : string) :
  n ∈ Subst.scanForVars input varList ↔
  n ∈ varList ∨ ∃ s, s ∈ textsOf input ∧ referencedIn s n.
Proof.
  revert input varList. fix IH 1. intros input varList.
  assert (Hnone : (n ∈ varList ∨ ∃ s, s ∈ [] ∧ referencedIn s n) ↔ n ∈ varList).
  { split; [|by left]. intros [?|(s & Hs & _)]; [done|by apply elem_of_nil in Hs]. }
  destruct input as [| | | |s| |l|props]; simpl; try (by rewrite Hnone).
  - clear IH. rewrite elem_of_scan_string. split.
    + intros [?|Hm]; [by left|right]. exists s. split; [apply list_elem_of_here|exact Hm].
    + intros [?|(s' & Hs' & Hm)]; [by left|right].
      by apply list_elem_of_singleton in Hs' as ->.
  - clear Hnone. revert varList. induction l as [|ele l IHl]; intros varList; simpl.
    { split; [by left|]. intros [?|(s & Hs & _)]; [done|by apply elem_of_nil in Hs]. }
    rewrite IHl, IH. split.
    + intros [[?|(s & Hs & Hm)]|(s & Hs & Hm)]; [by left| |]; right; exists s;
        (split; [apply elem_of_app; auto|done]).
    + intros [?|(s & Hs & Hm)]; [by left; left|].
      apply elem_of_app in Hs as [Hs|Hs]; [left; right|right]; by exists s.
  - clear Hnone. revert varList. induction props as [|[k v] props IHp]; intros varList.
    { split; [by left|]. intros [?|(s & Hs & _)]; [done|by apply elem_of_nil in Hs]. }
    rewrite IHp, IH. split.
    + intros [[?|(s & Hs & Hm)]|(s & Hs & Hm)]; [by left| |]; right; exists s;
        (split; [apply elem_of_app; auto|done]).
    + intros [?|(s & Hs & Hm)]; [by left; left|].
      apply elem_of_app in Hs as [Hs|Hs]; [left; right|right]; by exists s.
Qed.

(** [getVarNames] lists every name once, every name is a word, and the
    names are those of the variables referenced in the strings that the
    input holds as values; a reference in a key of an object is not
    listed. *)
Theorem getVarNames_distinct_words (input : Js.value) :
  NoDup (Subst.getVarNames input) ∧
  Forall (λ n, isWord n = true) (Subst.getVarNames input) ∧
  (∀ n, n ∈ Subst.getVarNames input ↔ ∃ s, s ∈ textsOf input ∧ referencedIn s n) ∧
  Subst.getVarNames (Js.Obj [("$key", Js.Str "$value")]) = ["value"].
Proof.
  split; [|split; [|split]].
  - apply scanForVars_namesOk. split; constructor.
  - apply scanForVars_namesOk. split; constructor.
  - intros n. unfold Subst.getVarNames. rewrite elem_of_scanForVars. split; [|by right].
    intros [Hn|?]; [by apply elem_of_nil in Hn|done].
  - reflexivity.
Qed.

(** ** One pass of substitution and the names found by scanning *)

Lemma scanForVars_mono (input : Js.value) (varList : list string) (n : string) :
  n ∈ varList → n ∈ Subst.scanForVars input varList.
Proof.
  revert input varList. fix IH 1. intros input varList Hn.
  destruct input as [| | | |s| |l|props]; simpl; try exact Hn.
  - apply elem_of_scan_string. by left.
  - revert varList Hn. induction l as [|ele l IHl]; intros varList Hn; [done|].
    apply IHl. by apply IH.
  - revert varList Hn. induction props as [|[k v] props IHp]; intros varList Hn; [done|].
    apply IHp. by apply IH.
Qed.

Lemma resolveStr_loop_defined (vars : Js.env) (ms : list string) (str : string) :
  (∀ m, m ∈ ms → defined vars (Subst.normalizeVar m)) →
  ∃ s', Subst.resolveStr_loop vars ms str = Subst.Ok s'.
Proof.
  revert str. induction ms as [|m ms IH]; intros str Hd; cbn [Subst.resolveStr_loop];
    [by eexists|].
  destruct (Hd m (list_elem_of_here _ _)) as [Hu [txt Htxt]].
  assert (Hrest : ∀ m', m' ∈ ms → defined vars (Subst.normalizeVar m')).
  { intros m' Hm'. apply Hd. by apply list_elem_of_further. }
  destruct (Js.getVar vars (Subst.normalizeVar m)) eqn:Hg; try done;
    rewrite Htxt; by apply IH.
Qed.

Lemma resolveStr_loop_needs (vars : Js.env) (ms : list string) (str s' : string) :
  Subst.resolveStr_loop vars ms str = Subst.Ok s' →
  ∀ m, m ∈ ms → Js.getVar vars (Subst.normalizeVar m) ≠ Js.Undefined.
Proof.
  revert str. induction ms as [|m ms IH]; intros str H m' Hm';
    cbn [Subst.resolveStr_loop] in H.
  { by apply elem_of_nil in Hm'. }
  apply elem_of_cons in Hm' as [->|Hm'].
  - intros Hu. by rewrite Hu in H.
  - destruct (Js.getVar vars (Subst.normalizeVar m)); try discriminate;
      match type of H with
      | match ?t with _ => _ end = _ => destruct t; [by eapply IH|discriminate]
      end.
Qed.

Lemma resolve2_defined (vars : Js.env) (x : Js.value) (varList : list string) :
  keysPlain x = true →
  (∀ n, n ∈ Subst.scanForVars x varList → defined vars n) →
  ∃ y, Subst.resolve2 vars x = Subst.Ok y.
Proof.
  revert x varList. fix IH 1. intros x varList Hk Hd.
  destruct x as [| | | |s| |l|props]; try (by eexists).
  - simpl. destruct (bool_decide (s = "")); [by eexists|].
    destruct (resolveStr_loop_defined vars (Subst.getMatches s) s) as [s' Hs'].
    + intros m Hm. apply Hd. simpl. apply elem_of_scan_string. right. by exists m.
    + unfold Subst.resolveStr. rewrite Hs'. by eexists.
  - cbn [Subst.resolve2].
    match goal with
    | |- ∃ y, Subst.bind (?each l) _ = _ => assert (Hl : ∃ l', each l = Subst.Ok l')
    end.
    { simpl in Hk, Hd. revert varList Hk Hd.
      induction l as [|ele l IHl]; intros varList Hk Hd; [by eexists|].
      simpl in Hk. apply andb_true_iff in Hk as [Hk1 Hk2].
      destruct (IH ele varList Hk1) as [ele' Hele].
      { intros n Hn. apply Hd. simpl.
        clear -Hn. revert Hn. generalize (Subst.scanForVars ele varList).
        induction l as [|e l IHl]; intros vl Hn; [done|]. apply IHl.
        by apply scanForVars_mono. }
      destruct (IHl (Subst.scanForVars ele varList) Hk2) as [l' Hl'].
      { intros n Hn. apply Hd. exact Hn. }
      rewrite Hele. simpl. rewrite Hl'. by eexists. }
    destruct Hl as [l' ->]. by eexists.
  - cbn [Subst.resolve2].
    match goal with
    | |- ∃ y, Subst.bind (?each props []) _ = _ =>
        assert (Hl : ∀ obj, ∃ obj', each props obj = Subst.Ok obj')
    end.
    { simpl in Hk, Hd. revert varList Hk Hd.
      induction props as [|[key val] props IHp]; intros varList Hk Hd obj; [by eexists|].
      simpl in Hk. apply andb_true_iff in Hk as [Hk1 Hk2].
      destruct (Subst.getMatches key) eqn:Hkey; [|done].
      destruct (IH val varList Hk1) as [val' Hval].
      { intros n Hn. apply Hd. simpl.
        clear -Hn. revert Hn. generalize (Subst.scanForVars val varList).
        induction props as [|[k v] props IHp]; intros vl Hn; [done|]. apply IHp.
        by apply scanForVars_mono. }
      assert (Hkey' : (if bool_decide (key = "") then Subst.Ok key
                       else Subst.resolveStr vars key) = Subst.Ok key).
      { destruct (bool_decide (key = "")); [done|]. unfold Subst.resolveStr. by rewrite Hkey. }
      rewrite Hkey'. simpl. rewrite Hval. simpl.
      apply (IHp (Subst.scanForVars val varList) Hk2). intros n Hn. apply Hd. exact Hn. }
    destruct (Hl []) as [obj' ->]. by eexists.
Qed.

Lemma resolve2_needs (vars : Js.env) (x y : Js.value) (varList : list string) :
  Subst.resolve2 vars x = Subst.Ok y →
  ∀ n, n ∈ Subst.scanForVars x varList →
       n ∈ varList ∨ Js.getVar vars n ≠ Js.Undefined.
Proof.
  revert x y varList. fix IH 1. intros x y varList H n Hn.
  destruct x as [| | | |s| |l|props]; try (by left).
  - simpl in H, Hn. apply elem_of_scan_string in Hn as [Hn|(m & Hm & ->)]; [by left|right].
    destruct (bool_decide (s = "")) eqn:Hs.
    { apply bool_decide_eq_true in Hs as ->. by apply elem_of_nil in Hm. }
    unfold Subst.resolveStr in H.
    destruct (Subst.resolveStr_loop vars (Subst.getMatches s) s) as [s'| |] eqn:Hl;
      try discriminate.
    by eapply resolveStr_loop_needs.
  - cbn [Subst.resolve2] in H.
    match type of H with
    | Subst.bind (?each l) _ = _ => assert (Hl : ∃ l', each l = Subst.Ok l')
    end.
    { match type of H with
      | Subst.bind ?r _ = _ => destruct r; try discriminate; by eexists
      end. }
    clear H y. destruct Hl as [l' Hl]. simpl in Hn.
    revert varList l' Hl Hn. induction l as [|ele l IHl]; intros varList l' Hl Hn; [by left|].
    destruct (Subst.resolve2 vars ele) as [ele'| |] eqn:Hele; try discriminate.
    simpl in Hl.
    match type of Hl with
    | Subst.bind ?r _ = _ => destruct r as [l''| |] eqn:Hr; try discriminate
    end.
    destruct (IHl _ _ eq_refl Hn) as [Hin|?]; [|by right].
    exact (IH _ _ _ Hele n Hin).
  - cbn [Subst.resolve2] in H.
    match type of H with
    | Subst.bind (?each props []) _ = _ =>
        assert (Hl : ∃ obj', each props [] = Subst.Ok obj')
    end.
    { match type of H with
      | Subst.bind ?r _ = _ => destruct r; try discriminate; by eexists
      end. }
    clear H y. destruct Hl as [obj' Hl]. simpl in Hn.
    revert Hl. generalize (@nil (string * Js.value)). revert varList obj' Hn.
    induction props as [|[key val] props IHp]; intros varList obj' Hn obj Hl; [by left|].
    match type of Hl with
    | Subst.bind ?r _ = _ => destruct r as [key'| |]; try discriminate
    end.
    simpl in Hl.
    destruct (Subst.resolve2 vars val) as [val'| |] eqn:Hval; try discriminate.
    simpl in Hl.
    destruct (IHp _ _ Hn _ Hl) as [Hin|?]; [|by right].
    exact (IH _ _ _ Hval n Hin).
Qed.

(** One pass of substitution over a request and the names that scanning
    finds in it: the pass needs every one of them to be defined, and when
    they all are (no key of an object holding a reference) the pass
    succeeds. *)
Theorem resolve2_and_getVarNames (vars : Js.env) (x : Js.value) :
  (∀ y, Subst.resolve2 vars x = Subst.Ok y →
        ∀ n, n ∈ Subst.getVarNames x → Js.getVar vars n ≠ Js.Undefined) ∧
  (keysPlain x = true →
   (∀ n, n ∈ Subst.getVarNames x → defined vars n) →
   ∃ y, Subst.resolve2 vars x = Subst.Ok y).
Proof.
  split.
  - intros y H n Hn. destruct (resolve2_needs vars x y [] H n Hn) as [Hin|?]; [|done].
    by apply elem_of_nil in Hin.
  - intros Hk Hd. by apply (resolve2_defined vars x []).
Qed.

(** ** Scanning a descriptor with a [var_delete] action *)

Lemma scanActions_var_delete (toScan : Js.value) (path : option string) (st : Scan.State) :
  hasKeyDeep "var_delete" toScan = true →
  ∃ e, Scan.scanActions toScan path st = Scan.Throw e.
Proof.
  revert toScan path st. fix IH 1. intros toScan path st H.
  destruct toScan as [| | | | | |l|props]; try discriminate.
  - cbn [Scan.scanActions]. simpl in H. revert st.
    induction l as [|ele l IHl]; intros st; [discriminate|].
    simpl in H. apply orb_true_iff in H as [H|H].
    + destruct (IH ele (Scan.elementPath path) st H) as [e ->]. by eexists.
    + destruct (Scan.scanActions ele (Scan.elementPath path) st) as [st1|e];
        [|by eexists].
      simpl. by apply IHl.
  - cbn [Scan.scanActions]. simpl in H. revert st.
    induction props as [|[key x] props IHp]; intros st; [discriminate|].
    simpl in H. apply orb_true_iff in H as [H|H].
    + apply orb_true_iff in H as [H|H].
      * apply bool_decide_eq_true in H as ->. unfold Scan.scanKey. simpl. by eexists.
      * destruct (Scan.scanKey key x path st) as [st1|e]; [|by eexists].
        simpl. destruct (IH x (Scan.childPath path key) st1 H) as [e ->]. by eexists.
    + destruct (Scan.scanKey key x path st) as [st1|e]; [|by eexists].
      simpl. destruct (Scan.scanActions x (Scan.childPath path key) st1) as [st2|e];
        [|by eexists].
      simpl. by apply IHp.
Qed.

(** A descriptor with a [var_delete] action cannot be compiled: the
    constructor of [Api] throws for every test, and for every response
    body, that holds the key [var_delete] at any depth. *)
Theorem var_delete_always_throws (refs : list Js.value) (response test : Js.value)
    (bodyVars : option (list string)) :
  hasKeyDeep "var_delete" test = true
  ∨ hasKeyDeep "var_delete" (Js.getProp response "body") = true →
  ∃ e, Scan.construct refs response test bodyVars = Scan.Throw e.
Proof.
  intros H. unfold Scan.construct.
  set (st0 := Scan.Build_State _ _ _ _ _ _).
  destruct (Scan.scanActions (Js.getProp response "body") (Some "") st0) as [st1|e] eqn:H1;
    [|by eexists].
  simpl. destruct H as [H|H].
  - destruct (scanActions_var_delete test None st1 H) as [e ->]. by eexists.
  - destruct (scanActions_var_delete _ (Some "") st0 H) as [e He]. congruence.
Qed.

Lemma var_delete_always_throws_witness :
  let response :=
    Js.Obj [ ("description", Js.Str "The application was deleted");
             ("var_delete", Js.Str "appGuid") ] in
  let test :=
    Js.Obj [ ("name", Js.Str "service1/delete-app-204");
             ("request", Js.Obj [ ("method", Js.Str "DELETE");
                                  ("path", Js.Str "/v2/apps/$appGuid") ]);
             ("response", response) ] in
  ∃ e, Scan.construct [] response test (Some []) = Scan.Throw e.
Proof.
  intros response test. apply var_delete_always_throws. left. reflexivity.
Defined.

(** ** Scanning hooks *)

(** [scanHook] only adds to [hapi.referencedApis], and when it returns,
    every API that the hook names is referenced. *)
Theorem scanHook_registers (hook : Js.value) (refs refs' : list Js.value) :
  Scan.scanHook hook refs = Scan.Ok refs' →
  (∀ r, r ∈ refs → r ∈ refs') ∧
  (∀ s, s ∈ hookNames hook → Js.Str s ∈ refs').
Proof.
  revert hook refs refs'. fix IH 1. intros hook refs refs' H.
  destruct hook as [| |b|z|s|f|l|props]; simpl in H.
  1-4, 6: split; [|intros s Hs; by apply elem_of_nil in Hs].
  1-5: repeat case_match; simplify_eq; done.
  - destruct (bool_decide (s = "")) eqn:Hs; injection H as <-.
    + split; [done|]. simpl. rewrite Hs. intros s' Hs'. by apply elem_of_nil in Hs'.
    + simpl. rewrite Hs. unfold JsArray.addUniq.
      destruct (decide (Js.Str s ∈ refs)).
      * split; [done|]. intros s' Hs'. by apply list_elem_of_singleton in Hs' as ->.
      * split; [intros r Hr; apply elem_of_app; by left|].
        intros s' Hs'. apply list_elem_of_singleton in Hs' as ->.
        apply elem_of_app. right. apply list_elem_of_here.
  - revert refs H. induction l as [|h l IHl]; intros refs H.
    + injection H as <-. split; [done|]. intros s Hs. by apply elem_of_nil in Hs.
    + destruct (Scan.scanHook h refs) as [refs1|] eqn:Hh; [|discriminate].
      simpl in H. destruct (IH _ _ _ Hh) as [Hm1 Hn1].
      destruct (IHl _ H) as [Hm2 Hn2]. split; [by auto|].
      intros s Hs. simpl in Hs. apply elem_of_app in Hs as [Hs|Hs]; [|by apply Hn2].
      by apply Hm2, Hn1.
  - induction props as [|[k v] props IHp]; [discriminate|].
    destruct (decide (k = "hook")) as [->|Hk].
    + destruct (Js.truthy v); [|discriminate]. destruct (IH _ _ _ H) as [Hm Hn].
      split; [done|]. intros s Hs. apply Hn. simpl in Hs. exact Hs.
    + destruct (IHp H) as [Hm Hn]. split; [done|]. intros s Hs. apply Hn.
      simpl in Hs. rewrite decide_False in Hs by done. exact Hs.
Qed.

Lemma scanHook_registers_witness :
  let hook := Js.Arr [ Js.Obj [ ("hook", Js.Str "service1/get-app-200");
                                ("quit", Js.Arr [Js.Num 404]) ];
                       Js.Fun 0;
                       Js.Str "service1/delete-app-204" ] in
  ∃ refs', Scan.scanHook hook [Js.Str "service1/login-200"] = Scan.Ok refs' ∧
           Js.Str "service1/login-200" ∈ refs' ∧
           Js.Str "service1/get-app-200" ∈ refs' ∧
           Js.Str "service1/delete-app-204" ∈ refs'.
Proof.
  intros hook. eexists. split; [reflexivity|].
  destruct (scanHook_registers hook [Js.Str "service1/login-200"] _ eq_refl) as [Hm Hn].
  split; [apply Hm, list_elem_of_here|].
  split; apply Hn; apply (bool_decide_unpack _); vm_compute; exact I.
Defined.

(** ** A queue with any number of waiters *)

Lemma steps_app (s : Serial.State) (es1 es2 : list Serial.event) :
  Serial.steps s (es1 ++ es2) =
  match Serial.steps s es1 with
  | inl s' => Serial.steps s' es2
  | inr msg => inr msg
  end.
Proof.
  revert s. induction es1 as [|e es1 IH]; intros s; [done|].
  simpl. destruct (Serial.step s e); [apply IH|done].
Qed.

Lemma arrivals_wait (s : Serial.State) (k : string) (x : nat) (queue cs : list nat) :
  k ≠ "" →
  Serial.serialQueues s !! k = Some (x :: queue) →
  Serial.steps s (map (λ c, Serial.Arrive c (Some k)) cs)
  = inl {| Serial.serialQueues := <[k := x :: queue ++ cs]> (Serial.serialQueues s);
           Serial.running := Serial.running s;
           Serial.called := Serial.called s |}.
Proof.
  intros Hk. revert s queue. induction cs as [|c cs IH]; intros s queue Hq.
  { simpl. rewrite app_nil_r, insert_id by done. by destruct s. }
  cbn [map Serial.steps Serial.step]. rewrite (arrive_waits s c k x queue) by done.
  rewrite (IH _ (queue ++ [c])) by (simpl; apply lookup_insert_eq).
  simpl. by rewrite insert_insert_eq, <- app_assoc.
Qed.

(** The first context of a queue runs alone while the others wait in the
    order of their arrival; when it completes it leaves the queue and the
    next one is started.  That one, started with [proceed] set, does not
    leave the queue when it completes: it stays at the head, and none of
    the contexts behind it is ever started. *)
Theorem queue_hand_over_stops_after_one (k : string) (c0 c1 : nat) (cs : list nat) :
  k ≠ "" →
  let arrivals := map (λ c, Serial.Arrive c (Some k)) (c0 :: c1 :: cs) in
  Serial.steps Serial.init arrivals
  = inl {| Serial.serialQueues := {[k := c0 :: c1 :: cs]};
           Serial.running := {[c0 := Some k]};
           Serial.called := [] |} ∧
  Serial.steps Serial.init (arrivals ++ [Serial.Complete c0])
  = inl {| Serial.serialQueues := {[k := c1 :: cs]};
           Serial.running := {[c1 := None]};
           Serial.called := [c0] |} ∧
  Serial.steps Serial.init (arrivals ++ [Serial.Complete c0; Serial.Complete c1])
  = inl {| Serial.serialQueues := {[k := c1 :: cs]};
           Serial.running := ∅;
           Serial.called := [c0; c1] |}.
Proof.
  intros Hk arrivals.
  assert (H1 : Serial.steps Serial.init arrivals
    = inl {| Serial.serialQueues := {[k := c0 :: c1 :: cs]};
             Serial.running := {[c0 := Some k]};
             Serial.called := [] |}).
  { unfold arrivals.
    change (map ?f (c0 :: c1 :: cs)) with ([f c0] ++ map f (c1 :: cs)).
    rewrite steps_app. cbn [Serial.steps Serial.step].
    rewrite (arrive_runs Serial.init c0 k) by done.
    rewrite (arrivals_wait _ k c0 [] (c1 :: cs)) by (done || apply lookup_insert_eq).
    simpl. by rewrite insert_insert_eq. }
  assert (H2 : Serial.steps Serial.init (arrivals ++ [Serial.Complete c0])
    = inl {| Serial.serialQueues := {[k := c1 :: cs]};
             Serial.running := {[c1 := None]};
             Serial.called := [c0] |}).
  { rewrite steps_app, H1. cbn [Serial.steps Serial.step]. unfold Serial.finish. simpl.
    rewrite lookup_singleton_eq. simpl. rewrite lookup_singleton_eq. simpl.
    rewrite decide_True by done. simpl. rewrite andb_false_r. simpl.
    rewrite insert_singleton_eq, delete_singleton_eq. done. }
  split; [exact H1|]. split; [exact H2|].
  change [Serial.Complete c0; Serial.Complete c1]
    with ([Serial.Complete c0] ++ [Serial.Complete c1]).
  rewrite app_assoc, steps_app, H2. cbn [Serial.steps Serial.step].
  rewrite resumed_never_pops by (simpl; apply lookup_singleton_eq).
  simpl. by rewrite delete_singleton_eq.
Qed.

Lemma queue_hand_over_stops_after_one_witness :
  Serial.steps Serial.init
    (map (λ c, Serial.Arrive c (Some "appName=demo")) [1; 2; 3; 4]
     ++ [Serial.Complete 1; Serial.Complete 2])
  = inl {| Serial.serialQueues := {["appName=demo" := [2; 3; 4]]};
           Serial.running := ∅;
           Serial.called := [1; 2] |}.
Proof.
  apply (queue_hand_over_stops_after_one "appName=demo" 1 2 [3; 4]). discriminate.
Defined.

(** ** Merged descriptors, key by key *)

Lemma lookupProp_setProp (props : list (string * Js.value)) (k k' : string) (v : Js.value) :
  Js.lookupProp (Js.setProp props k v) k' =
  if decide (k = k') then Some v else Js.lookupProp props k'.
Proof.
  induction props as [|[k0 v0] props IH]; simpl.
  { destruct (decide (k = k')); [done|done]. }
  destruct (decide (k0 = k)) as [->|Hne]; simpl.
  - destruct (decide (k = k')); done.
  - destruct (decide (k0 = k')) as [->|Hne'].
    + by rewrite decide_False by done.
    + exact IH.
Qed.

Lemma lookupProp_None (props : list (string * Js.value)) (k : string) :
  Js.lookupProp props k = None ↔ k ∉ props.*1.
Proof.
  induction props as [|[k0 v0] props IH]; simpl.
  { split; [intros _ H; by apply elem_of_nil in H|done]. }
  destruct (decide (k0 = k)) as [->|Hne].
  - split; [done|]. intros H. exfalso. apply H. apply list_elem_of_here.
  - rewrite IH, not_elem_of_cons. split; [intros H; split; [by intros ->|done]|by intros [_ H]].
Qed.

(** The result of [merge] key by key, for objects whose keys are distinct:
    a key of one object only keeps its value; a key of both keeps the value
    of [obj1], or takes the value of [obj2] when [obj2HasPrecedence] is
    set, unless both values are objects: these are merged, always with
    precedence to [obj1]. *)
Theorem merge_lookup (obj2HasPrecedence : bool) (props1 props2 : list (string * Js.value))
    (r : Js.value) (k : string) :
  NoDup props2.*1 →
  Merge.merge obj2HasPrecedence (Js.Obj props1) (Js.Obj props2) = Some r →
  ∃ props, r = Js.Obj props ∧
    mergedAt obj2HasPrecedence (Js.lookupProp props1 k) (Js.lookupProp props2 k)
    = Some (Js.lookupProp props k).
Proof.
  cbn [Merge.merge]. intros Hnd H.
  match type of H with
  | Js.Obj <$> ?e = _ => destruct e as [props|] eqn:He; [|discriminate]
  end.
  injection H as <-. exists props. split; [done|].
  revert props1 He. induction props2 as [|[key val2] rest IH]; intros props1 He.
  { injection He as <-. simpl. by destruct (Js.lookupProp props1 k). }
  apply NoDup_cons in Hnd as [Hkey Hnd]. cbn [Js.lookupProp].
  assert (Hrest : Js.lookupProp rest key = None) by (by apply lookupProp_None).
  destruct (Js.lookupProp props1 key) as [val1|] eqn:H1.
  - destruct (Js.isObject val1 && Js.isObject val2) eqn:Hobj.
    + destruct (Merge.merge false val1 val2) as [merged|] eqn:Hm; [|discriminate].
      specialize (IH Hnd _ He). rewrite lookupProp_setProp in IH.
      destruct (decide (key = k)) as [->|Hne]; [|exact IH].
      rewrite Hrest in IH. simpl in IH. rewrite H1. simpl. rewrite Hobj, Hm. simpl.
      congruence.
    + destruct obj2HasPrecedence.
      * specialize (IH Hnd _ He). rewrite lookupProp_setProp in IH.
        destruct (decide (key = k)) as [->|Hne]; [|exact IH].
        rewrite Hrest in IH. simpl in IH. rewrite H1. simpl. rewrite Hobj. congruence.
      * specialize (IH Hnd _ He).
        destruct (decide (key = k)) as [->|Hne]; [|exact IH].
        rewrite Hrest, H1 in IH. simpl in IH. rewrite H1. simpl. rewrite Hobj. congruence.
  - specialize (IH Hnd _ He). rewrite lookupProp_setProp in IH.
    destruct (decide (key = k)) as [->|Hne]; [|exact IH].
    rewrite Hrest in IH. simpl in IH. rewrite H1. simpl. congruence.
Qed.

Lemma merge_lookup_witness :
  let testReq := [ ("method", Js.Str "POST");
                   ("headers", Js.Obj [ ("accept", Js.Str "text/plain") ]) ] in
  let req := [ ("method", Js.Str "GET"); ("path", Js.Str "/v2/apps");
               ("headers", Js.Obj [ ("accept", Js.Str "application/json");
                                    ("authorization", Js.Str "$authHdr") ]) ] in
  ∃ props, Merge.merge true (Js.Obj testReq) (Js.Obj req) = Some (Js.Obj props) ∧
    Js.lookupProp props "method" = Some (Js.Str "GET") ∧
    Js.lookupProp props "path" = Some (Js.Str "/v2/apps") ∧
    Js.lookupProp props "headers"
    = Some (Js.Obj [ ("accept", Js.Str "text/plain");
                     ("authorization", Js.Str "$authHdr") ]).
Proof.
  intros testReq req.
  assert (Hnd : NoDup req.*1) by (apply (bool_decide_unpack _); vm_compute; exact I).
  assert (Hm : Merge.merge true (Js.Obj testReq) (Js.Obj req)
               = Some (Js.Obj [ ("method", Js.Str "GET");
                                ("headers", Js.Obj [ ("accept", Js.Str "text/plain");
                                                     ("authorization", Js.Str "$authHdr") ]);
                                ("path", Js.Str "/v2/apps") ])) by reflexivity.
  eexists. split; [exact Hm|].
  destruct (merge_lookup true testReq req _ "method" Hnd Hm) as (p1 & [= <-] & H1).
  destruct (merge_lookup true testReq req _ "path" Hnd Hm) as (p2 & [= <-] & H2).
  destruct (merge_lookup true testReq req _ "headers" Hnd Hm) as (p3 & [= <-] & H3).
  split; [|split]; reflexivity.
Defined.

(** ** Paths of [getVal] *)

Lemma plainKey_cons c k :
  plainKey (String c k) = true →
  GetVal.isSep c = false ∧ (k = "" ∨ plainKey k = true).
Proof.
  simpl. destruct k as [|c' k'].
  - intros H. split; [by destruct (GetVal.isSep c)|by left].
  - intros H. apply andb_true_iff in H as [Hc Hk]. split; [by destruct (GetVal.isSep c)|by right].
Qed.

Lemma turns_plain (k : string) :
  plainKey k = true → GetVal.turns k = [(k, None)].
Proof.
  induction k as [|c k IH]; [discriminate|]. intros H.
  apply plainKey_cons in H as [Hc [->|Hk]]; simpl; rewrite Hc; [done|].
  by rewrite (IH Hk).
Qed.

Lemma turns_key (k : string) (c : ascii) (rest : string) :
  plainKey k = true → GetVal.isSep c = true →
  GetVal.turns (k +:+ String c rest) = (k, Some c) :: GetVal.turns rest.
Proof.
  intros Hk Hc. induction k as [|c0 k IH]; [discriminate|].
  apply plainKey_cons in Hk as [Hc0 [->|Hk]].
  - simpl. by rewrite Hc0, Hc.
  - change (String c0 k +:+ String c rest) with (String c0 (k +:+ String c rest)).
    cbn [GetVal.turns]. by rewrite Hc0, (IH Hk).
Qed.

Lemma plainKey_nonempty k : plainKey k = true → k ≠ "".
Proof. by destruct k. Qed.

(** A value comes out of the loop whatever [origObj] and [path] are: they
    only go into the errors. *)
Lemma loop_Ok_frame ts obj o1 o2 s p1 p2 v :
  GetVal.loop ts o1 obj s p1 = GetVal.Ok v → GetVal.loop ts o2 obj s p2 = GetVal.Ok v.
Proof.
  revert obj s p1 p2. induction ts as [|[part sep] rest IH]; intros obj s p1 p2; [done|].
  cbn [GetVal.loop]. cbv zeta.
  destruct (bool_decide (part = "")).
  - destruct (bool_decide (s = "[") && bool_decide (sep = Some "]"%char)).
    + destruct obj; try done;
        (destruct (GetVal.elements _) as [els|]; [|done]);
        destruct (GetVal.collect _) as [[| | | | | |[|x vs]|]|r]; done.
    + apply IH.
  - destruct obj; try done; (destruct (Js.truthy _); [apply IH|done]).
Qed.

Lemma loop_Ok_start ts obj o1 o2 s1 s2 p1 p2 v :
  s1 ≠ "[" → s2 ≠ "[" →
  GetVal.loop ts o1 obj s1 p1 = GetVal.Ok v → GetVal.loop ts o2 obj s2 p2 = GetVal.Ok v.
Proof.
  intros H1 H2. destruct ts as [|[part sep] rest]; [done|].
  cbn [GetVal.loop]. cbv zeta.
  rewrite !(bool_decide_false (s1 = "[")), !(bool_decide_false (s2 = "[")) by done.
  cbn [andb]. destruct (bool_decide (part = "")).
  - apply loop_Ok_frame.
  - destruct obj; try done; (destruct (Js.truthy _); [apply loop_Ok_frame|done]).
Qed.

(** [getVal] along a path of keys: the empty path gives the value itself;
    a key gives the member of that name when it is truthy; a key followed
    by a dot and more gives what the rest of the path gives from that
    member.  A member that is falsy (0, [false], the empty string, [null])
    is reported as not found, like a missing one. *)
Theorem getVal_key_path (obj : Js.value) (k rest : string) (v : Js.value) :
  plainKey k = true →
  GetVal.getVal obj "" = GetVal.Ok obj ∧
  (GetVal.getVal obj k = GetVal.Ok v ↔
   Js.truthy (GetVal.member obj k) = true ∧ v = GetVal.member obj k) ∧
  (GetVal.getVal obj (k +:+ "." +:+ rest) = GetVal.Ok v ↔
   Js.truthy (GetVal.member obj k) = true ∧
   GetVal.getVal (GetVal.member obj k) rest = GetVal.Ok v) ∧
  (∀ props, obj = Js.Obj props → Js.truthy (GetVal.member obj k) = false →
            GetVal.getVal obj k = GetVal.Throw (GetVal.NotFound k obj)).
Proof.
  intros Hk. pose proof (plainKey_nonempty k Hk) as Hne.
  split; [reflexivity|]. unfold GetVal.getVal.
  rewrite (turns_plain k Hk).
  change (k +:+ "." +:+ rest) with (k +:+ String "." rest).
  rewrite (turns_key k "." rest Hk eq_refl).
  cbn [GetVal.loop]. cbv zeta. rewrite (bool_decide_false (k = "")) by done.
  rewrite (bool_decide_false ("" = "[")) by done. cbn [String.append].
  split; [|split].
  - destruct obj; try (split; [done|by intros [? _]]);
      (destruct (Js.truthy _); [|split; [done|by intros [? _]]]);
      (split; [intros [= <-]; done|intros [_ ->]; done]).
  - destruct obj; try (split; [done|by intros [? _]]);
      (destruct (Js.truthy _); [|split; [done|by intros [? _]]]);
      (split; [intros H; split; [done|]; revert H; by apply loop_Ok_start
              |intros [_ H]; revert H; by apply loop_Ok_start]).
  - intros props -> Hf. by rewrite Hf.
Qed.

Lemma getVal_key_path_witness :
  let body := Js.Obj [ ("metadata", Js.Obj [ ("guid", Js.Str "abc"); ("count", Js.Num 0) ]) ] in
  GetVal.getVal body "metadata.guid" = GetVal.Ok (Js.Str "abc") ∧
  GetVal.getVal (Js.Obj [ ("guid", Js.Str "abc"); ("count", Js.Num 0) ]) "count"
  = GetVal.Throw (GetVal.NotFound "count"
                    (Js.Obj [ ("guid", Js.Str "abc"); ("count", Js.Num 0) ])).
Proof.
  intros body. split.
  - apply (getVal_key_path body "metadata" "guid" (Js.Str "abc") eq_refl).
    split; reflexivity.
  - eapply (getVal_key_path _ "count" "" Js.Undefined eq_refl); reflexivity.
Defined.

(** [getVal] through an array: a key followed by an empty pair of square
    brackets gives the array of what the rest of the path gives from each
    element; the first element for which it fails makes the whole fail, and
    an empty array is an error. *)
Theorem getVal_each_element (props : list (string * Js.value)) (k rest : string)
    (l : list Js.value) :
  plainKey k = true →
  Js.lookupProp props k = Some (Js.Arr l) →
  GetVal.getVal (Js.Obj props) (k +:+ "[]" +:+ rest)
  = match GetVal.collect (map (λ e, GetVal.getVal e rest) l) with
    | inl (Js.Arr []) => GetVal.Throw (GetVal.EmptyArray (k +:+ "[]") (Js.Obj props))
    | inl v => GetVal.Ok v
    | inr r => r
    end.
Proof.
  intros Hk Hl. pose proof (plainKey_nonempty k Hk) as Hne.
  unfold GetVal.getVal.
  change (k +:+ "[]" +:+ rest) with (k +:+ String "[" (String "]" rest)).
  rewrite (turns_key k "[" _ Hk eq_refl).
  change (GetVal.turns (String "]" rest)) with (("", Some "]"%char) :: GetVal.turns rest).
  cbn [GetVal.loop]. cbv zeta.
  rewrite (bool_decide_false (k = "")) by done.
  unfold GetVal.member. rewrite Hl. unfold default, from_option, id.
  cbn [Js.truthy GetVal.sepText].
  rewrite (bool_decide_true ("" = "")), (bool_decide_true ("[" = "[")) by done.
  rewrite (bool_decide_true (Some "]"%char = Some "]"%char)) by done.
  rewrite (bool_decide_false ("" = "[")) by done.
  cbn [andb GetVal.elements String.append].
  assert (Hp : (("" +:+ "" +:+ k) +:+ "[" +:+ "") +:+ "]" = k +:+ "[]").
  { change (("" +:+ "" +:+ k) +:+ "[" +:+ "") with (k +:+ "["). clear.
    induction k as [|c k IH]; [done|].
    change ((String c k +:+ "[") +:+ "]") with (String c ((k +:+ "[") +:+ "]")).
    by rewrite IH. }
  by rewrite Hp.
Qed.

Lemma getVal_each_element_witness :
  let resources := [ Js.Obj [("name", Js.Str "a")]; Js.Obj [("name", Js.Str "b")] ] in
  GetVal.getVal (Js.Obj [ ("resources", Js.Arr resources) ]) "resources[].name"
  = GetVal.Ok (Js.Arr [Js.Str "a"; Js.Str "b"]) ∧
  GetVal.getVal (Js.Obj [ ("resources", Js.Arr []) ]) "resources[].name"
  = GetVal.Throw (GetVal.EmptyArray "resources[]" (Js.Obj [ ("resources", Js.Arr []) ])).
Proof.
  intros resources. split.
  - refine (eq_trans (getVal_each_element [ ("resources", Js.Arr resources) ]
                        "resources" ".name" resources eq_refl eq_refl) _).
    reflexivity.
  - refine (eq_trans (getVal_each_element [ ("resources", Js.Arr []) ]
                        "resources" ".name" [] eq_refl eq_refl) _).
    reflexivity.
Defined.

(** ** Actions and the response *)

Lemma performActions_app ct body a1 a2 vars :
  Actions.performActions ct body (a1 ++ a2) vars =
  match Actions.performActions ct body a1 vars with
  | Actions.Ok vars' => Actions.performActions ct body a2 vars'
  | other => other
  end.
Proof.
  revert vars. induction a1 as [|a a1 IH]; intros vars; [done|].
  cbn [app Actions.performActions].
  destruct (Actions.performAction ct body vars a); [apply IH|done|done].
Qed.

(** The value of an action goes before its path: actions that have a
    value, renamings and deletions give the same variables for every
    response, JSON or not. *)
Theorem performActions_without_body (contentType contentType' : string)
    (body body' : Js.value) (actions : list Js.value) (vars : Js.env) :
  forallb needsNoBody actions = true →
  Actions.performActions contentType body actions vars
  = Actions.performActions contentType' body' actions vars.
Proof.
  revert vars. induction actions as [|action actions IH]; intros vars H; [done|].
  simpl in H. apply andb_true_iff in H as [Ha Hrest].
  cbn [Actions.performActions].
  assert (Hone : Actions.performAction contentType body vars action
                 = Actions.performAction contentType' body' vars action).
  { unfold Actions.performAction, needsNoBody in *. cbv zeta in *.
    destruct (Js.truthy (Js.getProp action "var_new") ||
              Js.truthy (Js.getProp action "var_set")); [|done].
    unfold Actions.actionValue. by rewrite Ha. }
  rewrite Hone. destruct (Actions.performAction contentType' body' vars action); try done.
  by apply IH.
Qed.

Lemma performActions_without_body_witness :
  let actions :=
    [ Js.Obj [ ("var_set", Js.Obj [ ("name", Js.Str "appUrl");
                                    ("value", Js.Str "$host/v2/apps/$appGuid") ]) ];
      Js.Obj [ ("var_rename", Js.Obj [ ("from", Js.Str "appGuid");
                                       ("to", Js.Str "oldAppGuid") ]) ] ] in
  let vars : Js.env := <["host" := Js.Str "http://h"]> (<["appGuid" := Js.Str "g1"]> ∅) in
  Actions.performActions "text/html" (Js.Str "<html>") actions vars
  = Actions.performActions "" Js.Undefined actions vars.
Proof.
  intros actions vars. by apply performActions_without_body.
Defined.

(** An action that reads its [path] needs a JSON response: on another
    content type the error of [checkForJsonResponse] is thrown, the
    variables are as the actions before it left them, and the actions after
    it are not performed. *)
Theorem performActions_path_needs_json (contentType : string) (body : Js.value)
    (before : list Js.value) (action : Js.value) (rest : list Js.value)
    (vars vars' : Js.env) (e : Actions.error) :
  readsPath action = true →
  Actions.checkForJsonResponse contentType = Some e →
  Actions.performActions contentType body before vars = Actions.Ok vars' →
  Actions.performActions contentType body (before ++ action :: rest) vars
  = Actions.Throw e vars'.
Proof.
  intros Hread Hct Hbefore. rewrite performActions_app, Hbefore.
  cbn [Actions.performActions]. unfold readsPath in Hread. cbv zeta in Hread.
  apply andb_true_iff in Hread as [Hread Hpath].
  apply andb_true_iff in Hread as [Hact Hval]. apply negb_true_iff in Hval.
  unfold Actions.performAction. cbv zeta. rewrite Hact.
  unfold Actions.actionValue. by rewrite Hval, Hpath, Hct.
Qed.

Lemma performActions_path_needs_json_witness :
  let setUrl := Js.Obj [ ("var_set", Js.Obj [ ("name", Js.Str "org");
                                              ("value", Js.Str "acme") ]) ] in
  let readGuid := Js.Obj [ ("var_new", Js.Obj [ ("name", Js.Str "appGuid");
                                                ("path", Js.Str "metadata.guid") ]) ] in
  Actions.performActions "text/html" (Js.Str "<html>") ([setUrl] ++ readGuid :: []) ∅
  = Actions.Throw (Actions.NotJson "text/html") (<["org" := Js.Str "acme"]> ∅).
Proof.
  intros setUrl readGuid.
  apply (performActions_path_needs_json "text/html" (Js.Str "<html>") [setUrl] readGuid []
           ∅ (<["org" := Js.Str "acme"]> ∅)); reflexivity.
Defined.

(** Renaming a variable and renaming it back gives the variables as they
    were, when the new name was free. *)
Theorem renameVar_round_trip (vars : Js.env) (from to : string) (v : Js.value) :
  vars !! from = Some v → vars !! to = None →
  Actions.renameVar (Actions.renameVar vars from to) to from = vars.
Proof.
  intros Hfrom Hto. assert (Hne : from ≠ to) by congruence.
  unfold Actions.renameVar, Js.getVar.
  rewrite lookup_insert_eq, Hfrom. simpl.
  rewrite delete_insert_eq. rewrite (delete_id (delete from vars) to)
    by (by rewrite lookup_delete_ne).
  by apply insert_delete_id.
Qed.

Lemma renameVar_round_trip_witness :
  let vars : Js.env := <["appGuid" := Js.Str "g1"]> (<["org" := Js.Str "acme"]> ∅) in
  Actions.renameVar (Actions.renameVar vars "appGuid" "oldAppGuid") "oldAppGuid" "appGuid"
  = vars.
Proof.
  intros vars. by apply (renameVar_round_trip vars "appGuid" "oldAppGuid" (Js.Str "g1")).
Defined.

(** ** More on the planner *)

Section PlannerMore.
Import Node Plan Hosting Satellites.

#[local] Arguments newNode : simpl never.
#[local] Arguments linkChild : simpl never.
#[local] Arguments findChild : simpl never.
#[local] Arguments isPostRunOf : simpl never.
#[local] Arguments chain : simpl never.
#[local] Arguments getUndefinedVars : simpl never.
#[local] Arguments usesApi : simpl never.
#[local] Arguments isInserting : simpl never.

(** ** The planner: what the exceptions of [insertApi] say *)

Lemma findApi_None h name :
  Hapi.findApi h name = None → ∀ a, a ∈ Hapi.apis h → Api.name a ≠ name.
Proof.
  unfold Hapi.findApi. induction (Hapi.apis h) as [|b l IH]; simpl; intros H a Ha.
  { by apply elem_of_nil in Ha. }
  destruct (decide (Api.name b = name)) as [|Hne]; [discriminate|].
  apply elem_of_cons in Ha as [->|Ha]; [done|by apply IH].
Qed.

Lemma addChild_throws fuel h st self a e st' :
  addChild fuel h st self a = Throw e st' → errorSound h e.
Proof.
  revert st self a e st'. induction fuel as [|fuel IH]; intros st self a e st' H;
    [discriminate|].
  rewrite addChild_S in H.
  destruct (findChild st self a); [discriminate|].
  destruct (isPostRunOf st self a); [discriminate|].
  destruct (newNode st (Some a) (Some self)) as [node st1]. cbv beta iota zeta in H.
  destruct (Api.var_new a) as [vn|]; [|discriminate].
  destruct (Hapi.findApi h (Api.get vn)) as [getApi|] eqn:Hget.
  2: { injection H as <- _. simpl. by apply findApi_None. }
  destruct (Hapi.findApi h (Api.delete vn)) as [deleteApi|] eqn:Hdel.
  2: { injection H as <- _. simpl. by apply findApi_None. }
  destruct (newNode st1 (Some getApi) (Some node)) as [pre st2]. cbv beta iota zeta in H.
  destruct (addChild fuel h _ pre deleteApi) as [c st4|e4 st4|] eqn:Hadd; [| |discriminate].
  - destruct (newNode st4 (Some deleteApi) (Some node)) as [post st5].
    cbv beta iota zeta in H. discriminate.
  - injection H as <- _. by eapply IH.
Qed.

Lemma forChildren_throws h (body : Store → nat → result unit) k vs self i found st e st' :
  (∀ s n e s', body s n = Throw e s' → errorSound h e) →
  forChildren body k vs self i found st = Throw e st' → errorSound h e.
Proof.
  intros Hbody. revert i found st. induction k as [|k IH]; intros i found st H;
    [discriminate|].
  simpl in H. destruct (childrenOf st self !! i) as [child|]; [|discriminate].
  destruct (producesVar st child vs); [|by eapply IH].
  destruct (body st child) as [u st1|e1 st1|] eqn:Hb; [by eapply IH| |discriminate].
  injection H as <- _. by eapply Hbody.
Qed.

Lemma forProducers_throws h (body : Store → Api.t → result unit) producers st e st' :
  (∀ s p e s', body s p = Throw e s' → errorSound h e) →
  forProducers body producers st = Throw e st' → errorSound h e.
Proof.
  intros Hbody. revert st. induction producers as [|p producers IH]; intros st H;
    [discriminate|].
  simpl in H. destruct (body st p) as [u st1|e1 st1|] eqn:Hb; [by eapply IH| |discriminate].
  injection H as <- _. by eapply Hbody.
Qed.

Lemma getApiProducers_nil h varName :
  Hapi.getApiProducers h varName = [] → ∀ a, a ∈ Hapi.apis h → varName ∉ Api.produces a.
Proof.
  intros Hnil a Ha Hv.
  assert (Hin : a ∈ Hapi.getApiProducers h varName) by (by apply getApiProducers_spec).
  rewrite Hnil in Hin. by apply elem_of_nil in Hin.
Qed.

(** An exception that [insertApi] throws, at whatever node of whatever
    heap, is right about the corpus: "There are no producers of the ...
    variable" names a variable that no API of the corpus produces, and
    "findAPI: ... was NOT found" a name that no API of the corpus has.
    These exceptions are what [compile] records as the error of the API it
    was inserting; the only other one it can catch there is the
    [RangeError] of an insertion that has exhausted the call stack. *)
Theorem insertApi_errors_sound fuel h st self a e st' :
  insertApi fuel h st self a = Throw e st' → errorSound h e.
Proof.
  revert st self a e st'. induction fuel as [|fuel IH]; intros st self a e st' H;
    [discriminate|].
  rewrite insertApi_S in H.
  destruct (isInserting st self (Api.name a)); [discriminate|]. cbv zeta in H.
  destruct (negb (Hapi.isInsertableApi h a)); [discriminate|].
  destruct (usesApi _ self a); [discriminate|].
  destruct (getUndefinedVars h _ self a) as [|varName rest].
  { destruct (addChild fuel h _ self a) as [c st1|e1 st1|] eqn:Hadd; try discriminate.
    injection H as <- _. by eapply addChild_throws. }
  destruct (forChildren _ fuel (varName :: rest) self 0 false _)
    as [found st1|e1 st1|] eqn:Hloop; [| |discriminate].
  2: { injection H as <- _. eapply forChildren_throws; [|exact Hloop].
       intros s n e' s'. apply IH. }
  destruct found; [discriminate|].
  destruct (Hapi.getApiProducers h varName) as [|p producers] eqn:Hprod.
  { injection H as <- _. simpl. by apply getApiProducers_nil. }
  destruct (forProducers _ (p :: producers) st1) as [u st2|e2 st2|] eqn:Hfp;
    [| |discriminate].
  - by eapply IH.
  - injection H as <- _. eapply forProducers_throws; [|exact Hfp].
    intros s q e' s'. apply IH.
Qed.

Lemma insertApi_errors_sound_witness :
  let h := {| Hapi.apis := [useX]; Hapi.referencedApis := []; Hapi.vars := [] |} in
  ∃ st', insertApi 5 h emptyTree root useX = Throw (NoProducers "x") st' ∧
         errorSound h (NoProducers "x").
Proof.
  intros h. eexists. split; [vm_compute; reflexivity|].
  eapply (insertApi_errors_sound 5 h emptyTree root useX). vm_compute. reflexivity.
Defined.

(** ** The planner: what a node of the plan may host *)

Lemma usesApi_grows st st' n a :
  wf st → grows st st' → n < length st → usesApi st' n a = usesApi st n a.
Proof.
  intros Hwf Hg Hn. unfold usesApi. rewrite (chain_grows st st') by done.
  assert (Hle : ∀ m, m ∈ chain st n → m < length st).
  { intros m Hm. pose proof (chain_fuel_le _ _ _ _ Hwf Hm). lia. }
  revert Hle. induction (chain st n) as [|m l IH]; intros Hle; [done|].
  simpl. destruct Hg as [_ Hg]. destruct (Hg m) as (-> & _).
  { apply Hle. apply list_elem_of_here. }
  rewrite IH; [done|]. intros m' Hm'. apply Hle. by apply list_elem_of_further.
Qed.

Lemma hostsAdmitted_grows h st st' :
  planOk h st → hostsAdmitted h st → grows st st' →
  (∀ p c, inTree st' p → c ∈ childrenOf st' p →
     (inTree st p ∧ c ∈ childrenOf st p) ∨
     ∃ a, apiOf st' c = Some a ∧ parentOf st' c = Some p ∧ admitted h st' p a) →
  hostsAdmitted h st'.
Proof.
  intros [Hwf _] Hok Hg Hnew p c Hp Hc.
  destruct (Hnew p c Hp Hc) as [[Hp0 Hc0]|Hn]; [|exact Hn].
  destruct (Hok p c Hp0 Hc0) as (a & Ha & Hpar & Hins & Hu). exists a.
  assert (Hclt : c < length st) by (by eapply Hwf).
  assert (Hplt : p < length st) by (by eapply inTree_lt).
  pose proof Hg as [Hl Hg']. destruct (Hg' c Hclt) as (-> & -> & _).
  split; [done|]. split; [done|]. split; [done|].
  by rewrite (usesApi_grows st st').
Qed.

Lemma hostsAdmitted_sameShape h st st' :
  sameShape st st' → planOk h st → hostsAdmitted h st → hostsAdmitted h st'.
Proof.
  intros Hs Hok Hh. apply (hostsAdmitted_grows h st); [done|done|by apply sameShape_grows|].
  intros p c Hp Hc. left. split; [by eapply inTree_sameShape|].
  destruct Hs as [_ Hs]. by destruct (Hs p) as (_ & _ & <-).
Qed.

Lemma addChild_hostsAdmitted fuel h st self a r st' :
  addChild fuel h st self a = r → store_of r = Some st' →
  planOk h st → hostsAdmitted h st → inTree st self → admitted h st self a →
  hostsAdmitted h st'.
Proof.
  intros Hr Hst Hok Hh Hself [Hins Hu].
  assert (Hslt : self < length st) by (eapply inTree_lt; [apply Hok|done]).
  destruct (addChild_spec _ _ _ _ _ _ _ Hr Hst (proj1 Hok) Hslt)
    as (Hwf' & Hg & Hsame & Happ).
  assert (Htree : ∀ p, inTree st' p →
            inTree st p ∨
            (childrenOf st' p = [] ∧ childrenOf st' self = childrenOf st self ++ [p] ∧
             apiOf st' p = Some a ∧ parentOf st' p = Some self)).
  { induction 1 as [|q c Hq IH Hin]; [left; constructor|].
    destruct IH as [IH|(Hnil & _)]; [|rewrite Hnil in Hin; by apply elem_of_nil in Hin].
    assert (Hqlt : q < length st) by (eapply inTree_lt; [apply Hok|done]).
    destruct (decide (q = self)) as [->|Hne].
    - destruct Happ as [Heq|(c0 & Heq & Hc0 & Ha0 & Hp0 & Hn0)]; rewrite Heq in Hin.
      + left. by eapply inTree_child.
      + apply elem_of_app in Hin as [Hin|Hin]; [left; by eapply inTree_child|].
        apply list_elem_of_singleton in Hin as ->. right. done.
    - rewrite Hsame in Hin by done. left. by eapply inTree_child. }
  apply (hostsAdmitted_grows h st); [done|done|done|].
  intros p c Hp Hc. destruct (Htree p Hp) as [Hp0|(Hnil & _)];
    [|rewrite Hnil in Hc; by apply elem_of_nil in Hc].
  assert (Hplt : p < length st) by (eapply inTree_lt; [apply Hok|done]).
  destruct (decide (p = self)) as [->|Hne].
  - destruct Happ as [Heq|(c0 & Heq & Hc0 & Ha0 & Hp0' & Hn0)]; rewrite Heq in Hc.
    + by left.
    + apply elem_of_app in Hc as [Hc|Hc]; [by left|].
      apply list_elem_of_singleton in Hc as ->. right. exists a.
      split; [done|]. split; [done|]. split; [done|].
      rewrite (usesApi_grows st st') by (done || apply Hok). exact Hu.
  - rewrite Hsame in Hc by done. by left.
Qed.

Lemma forChildren_hostsAdmitted h body k undefinedVars self i found st r st' :
  (∀ s n r s', body s n = r → store_of r = Some s' →
               planOk h s → hostsAdmitted h s → inTree s n →
               planOk h s' ∧ grows s s' ∧ hostsAdmitted h s') →
  forChildren body k undefinedVars self i found st = r → store_of r = Some st' →
  planOk h st → hostsAdmitted h st → inTree st self →
  planOk h st' ∧ grows st st' ∧ hostsAdmitted h st'.
Proof.
  intros Hbody. revert i found st r.
  induction k as [|k IH]; intros i found st r Hr Hst Hok Hh Hself.
  { simpl in Hr. subst r. discriminate. }
  simpl in Hr. destruct (childrenOf st self !! i) as [child|] eqn:Hchild.
  2: { subst r. injection Hst as <-. split; [done|]. split; [apply grows_refl|done]. }
  destruct (producesVar st child undefinedVars); [|by eapply IH].
  assert (Hin : inTree st child).
  { eapply inTree_child; [exact Hself|]. by eapply list_elem_of_lookup_2. }
  destruct (body st child) as [u st1|e st1|] eqn:Hb.
  - destruct (Hbody _ _ _ st1 Hb eq_refl Hok Hh Hin) as (Hok1 & Hg1 & Hh1).
    destruct (IH _ _ _ _ Hr Hst Hok1 Hh1) as (Hok' & Hg' & Hh').
    { eapply inTree_grows; [apply Hok|done|done]. }
    split; [done|]. split; [by eapply grows_trans|done].
  - subst r. injection Hst as <-. by eapply Hbody.
  - subst r. discriminate.
Qed.

Lemma forProducers_hostsAdmitted h (body : Store → Api.t → result unit) self producers
    st r st' :
  (∀ s p r s', body s p = r → store_of r = Some s' →
               planOk h s → hostsAdmitted h s → inTree s self →
               planOk h s' ∧ grows s s' ∧ hostsAdmitted h s') →
  forProducers body producers st = r → store_of r = Some st' →
  planOk h st → hostsAdmitted h st → inTree st self →
  planOk h st' ∧ grows st st' ∧ hostsAdmitted h st'.
Proof.
  intros Hbody. revert st r.
  induction producers as [|p producers IH]; intros st r Hr Hst Hok Hh Hself; simpl in Hr.
  { subst r. injection Hst as <-. split; [done|]. split; [apply grows_refl|done]. }
  destruct (body st p) as [u st1|e st1|] eqn:Hb.
  - destruct (Hbody _ _ _ st1 Hb eq_refl Hok Hh Hself) as (Hok1 & Hg1 & Hh1).
    destruct (IH _ _ Hr Hst Hok1 Hh1) as (Hok' & Hg' & Hh').
    { eapply inTree_grows; [apply Hok|done|done]. }
    split; [done|]. split; [by eapply grows_trans|done].
  - subst r. injection Hst as <-. by eapply Hbody.
  - subst r. discriminate.
Qed.

Lemma insertApi_hostsAdmitted fuel h st self a r st' :
  insertApi fuel h st self a = r → store_of r = Some st' →
  planOk h st → hostsAdmitted h st → inTree st self →
  planOk h st' ∧ grows st st' ∧ hostsAdmitted h st'.
Proof.
  revert st self a r st'.
  induction fuel as [|fuel IH]; intros st self a r st' Hr Hst Hok Hh Hself.
  { simpl in Hr. subst r. discriminate. }
  rewrite insertApi_S in Hr.
  destruct (isInserting st self (Api.name a)).
  { subst r. injection Hst as <-. split; [done|]. split; [apply grows_refl|done]. }
  cbv zeta in Hr.
  set (st1 := alter (set_inserting (Api.name a) true) self st) in *.
  pose proof (sameShape_alter (set_inserting (Api.name a) true) self st
                (keepsShape_set_inserting _ _)) as Hs1. fold st1 in Hs1.
  pose proof (planOk_sameShape h _ _ Hs1 Hok) as Hok1.
  pose proof (hostsAdmitted_sameShape h _ _ Hs1 Hok Hh) as Hh1.
  pose proof (sameShape_grows _ _ Hs1) as Hg1.
  assert (Hself1 : inTree st1 self) by (eapply inTree_grows; [apply Hok|done|done]).
  destruct (Hapi.isInsertableApi h a) eqn:Hins; cbn [negb] in Hr.
  2: { subst r. by injection Hst as <-. }
  destruct (usesApi st1 self a) eqn:Huse.
  { subst r. by injection Hst as <-. }
  destruct (getUndefinedVars h st1 self a) as [|varName rest] eqn:Hu.
  { destruct (addChild fuel h st1 self a) as [c st2|e st2|] eqn:Hadd;
      [| |subst r; discriminate].
    all: subst r; injection Hst as <-.
    all: destruct (addChild_planOk _ _ _ _ _ _ st2 Hadd eq_refl Hok1 Hself1 Hu) as [Hok2 Hg2].
    all: pose proof (addChild_hostsAdmitted _ _ _ _ _ _ st2 Hadd eq_refl Hok1 Hh1 Hself1
                       (conj Hins Huse)) as Hh2.
    all: split; [done|]; split; [by eapply grows_trans|done]. }
  destruct (forChildren _ fuel (varName :: rest) self 0 false st1)
    as [found st2|e st2|] eqn:Hloop; [| |subst r; discriminate].
  all: destruct (forChildren_hostsAdmitted h _ _ _ _ _ _ _ _ st2
                   (λ s n r s', IH s n a r s') Hloop eq_refl Hok1 Hh1 Hself1)
         as (Hok2 & Hg2 & Hh2).
  2: { subst r. injection Hst as <-. split; [done|]. split; [by eapply grows_trans|done]. }
  assert (Hg02 : grows st st2) by (by eapply grows_trans).
  destruct found.
  { subst r. by injection Hst as <-. }
  assert (Hself2 : inTree st2 self) by (eapply inTree_grows; [apply Hok1|done|done]).
  destruct (Hapi.getApiProducers h varName) as [|p producers].
  { subst r. by injection Hst as <-. }
  destruct (forProducers _ (p :: producers) st2) as [u st3|e st3|] eqn:Hprod;
    [| |subst r; discriminate].
  all: destruct (forProducers_hostsAdmitted h _ self _ _ _ st3
                   (λ s p r s', IH s self p r s') Hprod eq_refl Hok2 Hh2 Hself2)
         as (Hok3 & Hg3 & Hh3).
  2: { subst r. injection Hst as <-. split; [done|]. split; [by eapply grows_trans|done]. }
  set (st4 := alter (set_inserting (Api.name a) false) self st3) in *.
  pose proof (sameShape_alter (set_inserting (Api.name a) false) self st3
                (keepsShape_set_inserting _ _)) as Hs4. fold st4 in Hs4.
  pose proof (planOk_sameShape h _ _ Hs4 Hok3) as Hok4.
  pose proof (hostsAdmitted_sameShape h _ _ Hs4 Hok3 Hh3) as Hh4.
  pose proof (sameShape_grows _ _ Hs4) as Hg4.
  assert (Hself3 : inTree st3 self) by (eapply inTree_grows; [apply Hok2|done|done]).
  assert (Hself4 : inTree st4 self) by (eapply inTree_grows; [apply Hok3|done|done]).
  destruct (IH _ _ _ _ _ Hr Hst Hok4 Hh4 Hself4) as (Hok' & Hg' & Hh').
  split; [done|]. split; [|done].
  eapply grows_trans; [exact Hg02|]. eapply grows_trans; [exact Hg3|].
  by eapply grows_trans.
Qed.

Lemma compileLoop_hostsAdmitted fuel h apisToInsert st errors st' errors' :
  compileLoop fuel h apisToInsert st errors = Some (st', errors') →
  planOk h st → hostsAdmitted h st →
  planOk h st' ∧ grows st st' ∧ hostsAdmitted h st' ∧ errors `prefix_of` errors'.
Proof.
  revert st errors. induction apisToInsert as [|a rest IH]; intros st errors H Hok Hh;
    simpl in H.
  { injection H as <- <-. split; [done|]. split; [apply grows_refl|done]. }
  assert (Hroot : inTree st root) by constructor.
  destruct (insertApi fuel h st root a) as [u st1|e st1|] eqn:Hi; [| |discriminate].
  all: destruct (insertApi_hostsAdmitted _ _ _ _ _ _ st1 Hi eq_refl Hok Hh Hroot)
         as (Hok1 & Hg1 & Hh1).
  all: destruct (IH _ _ H Hok1 Hh1) as (Hok' & Hg' & Hh' & Hpre).
  all: split; [done|]; split; [by eapply grows_trans|]; split; [done|].
  - done.
  - etrans; [|exact Hpre]. by apply prefix_app_r.
Qed.

Lemma hostsAdmitted_emptyTree h : hostsAdmitted h emptyTree.
Proof.
  intros p c Hp Hc. exfalso.
  assert (Hnil : ∀ q, childrenOf emptyTree q = []) by (by intros [|[|q]]).
  rewrite Hnil in Hc. by apply elem_of_nil in Hc.
Qed.

Lemma ancestor_in_chain_fuel st fuel n m :
  wf st → ancestorOrSelf st n m → n < fuel → m ∈ chain_fuel fuel st n.
Proof.
  intros Hwf Ha. revert fuel. induction Ha as [n|n p m Hp _ IH]; intros fuel Hn.
  - destruct fuel; [lia|]. simpl. apply list_elem_of_here.
  - destruct fuel; [lia|]. simpl. rewrite Hp. apply list_elem_of_further, IH.
    destruct Hwf as (_ & _ & Hlt & _). specialize (Hlt _ _ Hp). lia.
Qed.

Lemma usesApi_false st p a m :
  wf st → usesApi st p a = false → ancestorOrSelf st p m → apiOf st m ≠ Some a.
Proof.
  intros Hwf Hu Ha Hm.
  assert (Hin : m ∈ chain st p) by (apply ancestor_in_chain_fuel; [done|done|lia]).
  unfold usesApi in Hu. revert Hu Hin. induction (chain st p) as [|x l IH]; intros Hu Hin.
  { by apply elem_of_nil in Hin. }
  simpl in Hu. apply orb_false_iff in Hu as [Hx Hl].
  apply elem_of_cons in Hin as [->|Hin]; [|by apply IH].
  by apply bool_decide_eq_false in Hx.
Qed.

(** The nodes of a plan host only insertable APIs: an API whose name starts
    with the name of a referenced API is hosted by no node that is
    reachable from the root through [children]. *)
Theorem plan_hosts_insertable_apis fuel h apisToInsert st errs :
  compile fuel h apisToInsert = Some (st, errs) →
  ∀ n a, inTree st n → apiOf st n = Some a → Hapi.isInsertableApi h a = true.
Proof.
  intros Hc n a Hn Ha.
  destruct (compileLoop_hostsAdmitted _ _ _ _ _ _ _ Hc (planOk_emptyTree h)
              (hostsAdmitted_emptyTree h)) as (Hok & _ & Hh & _).
  destruct Hn as [|p c Hp Hin].
  - destruct Hok as [(_ & Hroot & _) _]. congruence.
  - destruct (Hh p c Hp Hin) as (a' & Ha' & _ & Hins & _). congruence.
Qed.

Lemma plan_hosts_insertable_apis_witness :
  inTree appPlan 1 ∧ apiOf appPlan 1 = Some createApp ∧
  Hapi.isInsertableApi appCorpus createApp = true ∧
  childrenOf appPlan root = [1] ∧ childrenOf appPlan 1 = [].
Proof.
  assert (Hc : compile 10 appCorpus [createApp; getApp; delApp] = Some (appPlan, []))
    by (vm_compute; reflexivity).
  assert (Hn : inTree appPlan 1).
  { apply (inTree_child _ 0); [apply inTree_root|].
    apply (bool_decide_unpack _); vm_compute; exact I. }
  assert (Ha : apiOf appPlan 1 = Some createApp) by (vm_compute; reflexivity).
  split; [exact Hn|]. split; [exact Ha|]. split.
  - exact (plan_hosts_insertable_apis 10 appCorpus [createApp; getApp; delApp] appPlan []
             Hc 1 createApp Hn Ha).
  - split; vm_compute; reflexivity.
Defined.

(** No API is hosted twice on a path from the root: the API of a node of a
    plan is hosted by none of its ancestors. *)
Theorem plan_paths_do_not_repeat fuel h apisToInsert st errs :
  compile fuel h apisToInsert = Some (st, errs) →
  ∀ n p m a, inTree st n → parentOf st n = Some p → ancestorOrSelf st p m →
             apiOf st n = Some a → apiOf st m ≠ Some a.
Proof.
  intros Hc n p m a Hn Hp Hm Ha.
  destruct (compileLoop_hostsAdmitted _ _ _ _ _ _ _ Hc (planOk_emptyTree h)
              (hostsAdmitted_emptyTree h)) as (Hok & _ & Hh & _).
  destruct Hn as [|p' c Hp' Hin].
  - destruct Hok as [(_ & _ & Hlt & _) _]. apply Hlt in Hp. unfold root in Hp. lia.
  - destruct (Hh p' c Hp' Hin) as (a' & Ha' & Hpar & _ & Hu).
    assert (p' = p) as -> by congruence. assert (a' = a) as -> by congruence.
    eapply usesApi_false; [apply Hok|exact Hu|exact Hm].
Qed.

Lemma plan_paths_do_not_repeat_witness :
  inTree seededPlan 2 ∧ apiOf seededPlan 2 = Some useX ∧
  apiOf seededPlan 1 ≠ Some useX ∧ apiOf seededPlan 0 ≠ Some useX.
Proof.
  assert (Hc : compile 10 corpus [useX] = Some (seededPlan, [])) by (vm_compute; reflexivity).
  assert (Hn : inTree seededPlan 2).
  { apply (inTree_child _ 1); [apply (inTree_child _ 0); [apply inTree_root|]|];
      apply (bool_decide_unpack _); vm_compute; exact I. }
  assert (Hp : parentOf seededPlan 2 = Some 1) by (vm_compute; reflexivity).
  assert (Ha : apiOf seededPlan 2 = Some useX) by (vm_compute; reflexivity).
  assert (H10 : parentOf seededPlan 1 = Some 0) by (vm_compute; reflexivity).
  split; [exact Hn|]. split; [exact Ha|]. split.
  - apply (plan_paths_do_not_repeat 10 corpus [useX] seededPlan [] Hc 2 1 1 useX Hn Hp);
      [constructor|exact Ha].
  - apply (plan_paths_do_not_repeat 10 corpus [useX] seededPlan [] Hc 2 1 0 useX Hn Hp);
      [|exact Ha].
    eapply ancestorOrSelf_parent; [exact H10|constructor].
Defined.

Lemma compileLoop_app fuel h l1 l2 st errors :
  compileLoop fuel h (l1 ++ l2) st errors =
  match compileLoop fuel h l1 st errors with
  | Some (st1, errors1) => compileLoop fuel h l2 st1 errors1
  | None => None
  end.
Proof.
  revert st errors. induction l1 as [|a l1 IH]; intros st errors; [done|].
  simpl. by destruct (insertApi fuel h st root a).
Qed.

(** Inserting further APIs only extends a plan: the plan for a list of
    APIs followed by more APIs has the nodes of the plan for the list alone,
    with their APIs and parents, and their children in the same order,
    perhaps followed by new ones; the errors collected for the list come
    first. *)
Theorem compile_extends fuel h l1 l2 st errs :
  compile fuel h (l1 ++ l2) = Some (st, errs) →
  ∃ st1 errs1, compile fuel h l1 = Some (st1, errs1) ∧
               grows st1 st ∧ errs1 `prefix_of` errs.
Proof.
  unfold compile. rewrite compileLoop_app.
  destruct (compileLoop fuel h l1 emptyTree []) as [[st1 errs1]|] eqn:H1; [|discriminate].
  intros H2. exists st1, errs1. split; [done|].
  destruct (compileLoop_hostsAdmitted _ _ _ _ _ _ _ H1 (planOk_emptyTree h)
              (hostsAdmitted_emptyTree h)) as (Hok1 & _ & Hh1 & _).
  destruct (compileLoop_hostsAdmitted _ _ _ _ _ _ _ H2 Hok1 Hh1) as (_ & Hg & _ & Hpre).
  done.
Qed.

Lemma compile_extends_witness :
  ∃ st1 errs1, compile 10 corpus ([makeX] ++ [useX]) = Some (seededPlan, []) ∧
               compile 10 corpus [makeX] = Some (st1, errs1) ∧
               grows st1 seededPlan ∧ errs1 `prefix_of` [].
Proof.
  assert (Hc : compile 10 corpus ([makeX] ++ [useX]) = Some (seededPlan, []))
    by (vm_compute; reflexivity).
  destruct (compile_extends 10 corpus [makeX] [useX] seededPlan [] Hc)
    as (st1 & errs1 & H1 & Hg & Hp).
  exists st1, errs1. done.
Defined.

Lemma length_linkChild st self node : length (linkChild st self node) = length st.
Proof.
  unfold linkChild.
  set (st1 := alter (set_children (λ cs, cs ++ [node])) self st).
  pose proof (sameShape_foldl_alter
                (λ s (tmpNode : nat), set_subTreeProduces
                   (λ x, JsArray.addAllUniq x (subTreeProducesOf s node)))
                (chain st1 self) st1
                (λ s x, keepsShape_set_subTreeProduces _)) as [Hl _].
  rewrite Hl. apply length_alter.
Qed.

(** A new node of [addChild] is the node at the end of the old heap. *)
Lemma addChild_new fuel h st self a c st' :
  addChild fuel h st self a = Ok c st' →
  findChild st self a = None → isPostRunOf st self a = None →
  c = length st ∧ ∃ stX, st' = linkChild stX self c.
Proof.
  destruct fuel as [|fuel]; [discriminate|]. rewrite addChild_S. intros H Hf Hp.
  rewrite Hf, Hp in H.
  destruct (newNode st (Some a) (Some self)) as [node st1] eqn:Hn1.
  cbv beta iota zeta in H.
  apply newNode_spec in Hn1 as (-> & _).
  destruct (Api.var_new a) as [vn|].
  2: { injection H as <- <-. split; [done|by eexists]. }
  destruct (Hapi.findApi h (Api.get vn)) as [getApi|]; [|discriminate].
  destruct (Hapi.findApi h (Api.delete vn)) as [deleteApi|]; [|discriminate].
  destruct (newNode st1 (Some getApi) (Some (length st))) as [pre st2].
  cbv beta iota zeta in H.
  destruct (addChild fuel h _ pre deleteApi) as [c4 st4|e4 st4|]; try discriminate.
  destruct (newNode st4 (Some deleteApi) (Some (length st))) as [post st5].
  cbv beta iota zeta in H. injection H as <- <-. split; [done|by eexists].
Qed.


Lemma findChild_None st self a :
  findChild st self a = None → ∀ c, c ∈ childrenOf st self → apiOf st c ≠ Some a.
Proof.
  unfold findChild. destruct (list_find _ _) as [[i x]|] eqn:Hf; [discriminate|].
  intros _ c Hc. apply list_find_None in Hf. by eapply Forall_forall in Hf.
Qed.

Lemma findChild_last st self a cs c :
  childrenOf st self = cs ++ [c] →
  (∀ c', c' ∈ cs → apiOf st c' ≠ Some a) → apiOf st c = Some a →
  findChild st self a = Some c.
Proof.
  intros Hcs Hold Hc. unfold findChild. rewrite Hcs.
  destruct (list_find (λ c0, apiOf st c0 = Some a) (cs ++ [c])) as [[i x]|] eqn:Hf.
  - apply list_find_Some in Hf as (Hi & Hx & Hbefore). simpl. f_equal.
    destruct (decide (i < length cs)) as [Hlt|Hge].
    + rewrite lookup_app_l in Hi by done. exfalso. apply (Hold x); [|done].
      by eapply list_elem_of_lookup_2.
    + rewrite lookup_app_r in Hi by lia.
      destruct (i - length cs) as [|k]; simpl in Hi; [congruence|discriminate].
  - apply list_find_None in Hf. apply Forall_app in Hf as [_ Hf].
    exfalso. eapply Forall_forall in Hf; [by apply Hf|apply list_elem_of_here].
Qed.

(** Adding the API that a child hosts adds nothing: after [addChild] has
    returned a node for [a] at [self], a second [addChild] of [a] at [self]
    returns the same node and leaves the heap as it is. *)
Theorem addChild_twice fuel fuel' h st self a c st' :
  wf st → self < length st →
  addChild fuel h st self a = Ok c st' →
  addChild (S fuel') h st' self a = Ok c st'.
Proof.
  intros Hwf Hself H.
  destruct (addChild_spec _ _ _ _ _ _ st' H eq_refl Hwf Hself) as (Hwf' & Hg & _ & Happ).
  destruct fuel as [|fuel]; [discriminate|].
  rewrite addChild_S.
  destruct (findChild st self a) as [c0|] eqn:Hfind.
  { rewrite addChild_S, Hfind in H. injection H as <- <-. by rewrite Hfind. }
  destruct (isPostRunOf st self a) as [p|] eqn:Hpost.
  { rewrite addChild_S, Hfind, Hpost in H. injection H as <- <-.
    by rewrite Hfind, Hpost. }
  destruct (addChild_new _ _ _ _ _ _ _ H Hfind Hpost) as (-> & stX & HstX).
  assert (Hlen : length stX = length st') by (by rewrite HstX, length_linkChild).
  assert (Hle : length st ≤ length st') by apply Hg.
  destruct (linkChild_spec stX self (length st) ltac:(lia)) as [_ Hs].
  destruct (Hs self) as (_ & _ & Hch). rewrite decide_True in Hch by done.
  rewrite <- HstX in Hch.
  assert (Hchildren : childrenOf st' self = childrenOf st self ++ [length st] ∧
                      apiOf st' (length st) = Some a).
  { destruct Happ as [Heq|(c0 & Heq & Hc0 & Ha0 & _)].
    - exfalso. assert (Hin : length st ∈ childrenOf st self).
      { rewrite <- Heq, Hch. apply elem_of_app. right. apply list_elem_of_here. }
      destruct Hwf as (_ & _ & _ & Hc). specialize (Hc _ _ Hin). lia.
    - rewrite Heq in Hch. apply app_inj_tail in Hch as [_ ->]. done. }
  destruct Hchildren as [Hcs Ha].
  rewrite (findChild_last st' self a (childrenOf st self) (length st)); [done|done| |done].
  intros c' Hc'. assert (Hlt : c' < length st) by (by eapply Hwf).
  destruct Hg as [_ Hg]. destruct (Hg c' Hlt) as (-> & _).
  by apply (findChild_None st self a).
Qed.

Lemma addChild_twice_witness :
  ∃ c st', addChild 3 appCorpus emptyTree root createApp = Ok c st' ∧
           addChild 1 appCorpus st' root createApp = Ok c st'.
Proof.
  eexists _, _. split; [vm_compute; reflexivity|].
  apply (addChild_twice 3 0 appCorpus emptyTree root createApp).
  - apply planOk_emptyTree. exact appCorpus.
  - vm_compute. lia.
  - vm_compute. reflexivity.
Defined.

(** ** The satellites of a constructor *)

Lemma sameSatellites_refl st : sameSatellites st st.
Proof. done. Qed.

Lemma sameSatellites_trans st1 st2 st3 :
  sameSatellites st1 st2 → sameSatellites st2 st3 → sameSatellites st1 st3.
Proof.
  intros H1 H2 n. destruct (H1 n) as [? ?], (H2 n) as [? ?]. split; congruence.
Qed.

Lemma sameSatellites_alter f i st : keepsSatellites f → sameSatellites st (alter f i st).
Proof.
  intros Hf n. unfold preRunOf, postRunOf.
  destruct (decide (i = n)) as [->|Hne].
  - rewrite list_lookup_alter_eq. destruct (st !! n) as [x|]; [|done]. simpl.
    by destruct (Hf x) as [-> ->].
  - by rewrite list_lookup_alter_ne.
Qed.

Lemma sameSatellites_foldl_alter (f : Store → nat → t → t) (l : list nat) st :
  (∀ s x, keepsSatellites (f s x)) →
  sameSatellites st (foldl (λ s x, alter (f s x) x s) st l).
Proof.
  intros Hf. revert st. induction l as [|x l IH]; intros st; [apply sameSatellites_refl|].
  simpl. eapply sameSatellites_trans; [|apply IH]. by apply sameSatellites_alter.
Qed.

Lemma sameSatellites_addProduces_walk st ns varNames :
  sameSatellites st (addProduces_walk st ns varNames).
Proof.
  revert st varNames. induction ns as [|n ns IH]; intros st varNames;
    [apply sameSatellites_refl|].
  simpl. eapply sameSatellites_trans; [|apply IH]. by apply sameSatellites_alter.
Qed.

Lemma sameSatellites_linkChild st self node : sameSatellites st (linkChild st self node).
Proof.
  unfold linkChild. eapply sameSatellites_trans.
  - by apply (sameSatellites_alter (set_children (λ cs, cs ++ [node])) self).
  - by apply (sameSatellites_foldl_alter
                (λ s (tmpNode : nat), set_subTreeProduces
                   (λ x, JsArray.addAllUniq x (subTreeProducesOf s node)))).
Qed.

(** [new Node]: the new node has no satellites, the old nodes keep
    theirs. *)
Lemma newNode_satellites st a p id st' :
  newNode st a p = (id, st') →
  preRunOf st' id = None ∧ postRunOf st' id = None ∧
  ∀ n, n < length st → preRunOf st' n = preRunOf st n ∧ postRunOf st' n = postRunOf st n.
Proof.
  unfold newNode. set (x := Build_t _ _ _ _ _ _ _ _). set (st1 := st ++ [x]).
  intros H.
  assert (Hs : sameSatellites st1 st' ∧ id = length st).
  { destruct a as [a'|]; injection H as <- <-; split; try done.
    eapply sameSatellites_trans; [apply sameSatellites_addProduces_walk|].
    by apply sameSatellites_alter. }
  destruct Hs as [Hs ->]. split; [|split].
  - destruct (Hs (length st)) as [-> _]. unfold preRunOf, st1.
    by rewrite list_lookup_middle.
  - destruct (Hs (length st)) as [_ ->]. unfold postRunOf, st1.
    by rewrite list_lookup_middle.
  - intros n Hn. destruct (Hs n) as [-> ->]. unfold preRunOf, postRunOf, st1.
    by rewrite lookup_app_l.
Qed.

Lemma set_preRun_spec st i p :
  i < length st →
  preRunOf (alter (set_preRun p) i st) i = Some p ∧
  (∀ n, n ≠ i → preRunOf (alter (set_preRun p) i st) n = preRunOf st n) ∧
  (∀ n, postRunOf (alter (set_preRun p) i st) n = postRunOf st n).
Proof.
  intros Hi. unfold preRunOf, postRunOf. split; [|split].
  - rewrite list_lookup_alter_eq. by destruct (lookup_lt_is_Some_2 st i Hi) as [x ->].
  - intros n Hn. by rewrite list_lookup_alter_ne.
  - intros n. destruct (decide (i = n)) as [->|Hne].
    + rewrite list_lookup_alter_eq. by destruct (st !! n).
    + by rewrite list_lookup_alter_ne.
Qed.

Lemma set_postRun_spec st i p :
  i < length st →
  postRunOf (alter (set_postRun p) i st) i = Some p ∧
  (∀ n, n ≠ i → postRunOf (alter (set_postRun p) i st) n = postRunOf st n) ∧
  (∀ n, preRunOf (alter (set_postRun p) i st) n = preRunOf st n).
Proof.
  intros Hi. unfold preRunOf, postRunOf. split; [|split].
  - rewrite list_lookup_alter_eq. by destruct (lookup_lt_is_Some_2 st i Hi) as [x ->].
  - intros n Hn. by rewrite list_lookup_alter_ne.
  - intros n. destruct (decide (i = n)) as [->|Hne].
    + rewrite list_lookup_alter_eq. by destruct (st !! n).
    + by rewrite list_lookup_alter_ne.
Qed.

Lemma newNode_shape st a p id st' :
  newNode st a p = (id, st') →
  id = length st ∧ length st' = S (length st) ∧
  (∀ n, n < length st → shapeOf st' n = shapeOf st n) ∧
  shapeOf st' id = (a, p, []).
Proof.
  intros H. apply newNode_spec in H as (-> & Hl & Hold & Ha & Hp & Hc).
  split; [done|]. split; [done|]. unfold shapeOf. split.
  - intros n Hn. by destruct (Hold n Hn) as (-> & -> & ->).
  - by rewrite Ha, Hp, Hc.
Qed.

Lemma alter_shape f i st n : keepsShape f → shapeOf (alter f i st) n = shapeOf st n.
Proof.
  intros Hf. destruct (sameShape_alter f i st Hf) as [_ Hs]. unfold shapeOf.
  by destruct (Hs n) as (-> & -> & ->).
Qed.

Lemma linkChild_shape st self node n :
  self < length st →
  shapeOf (linkChild st self node) n =
  if decide (n = self) then (apiOf st n, parentOf st n, childrenOf st n ++ [node])
  else shapeOf st n.
Proof.
  intros Hself. destruct (linkChild_spec st self node Hself) as [_ Hs]. unfold shapeOf.
  destruct (Hs n) as (-> & -> & ->). by destruct (decide (n = self)) as [->|].
Qed.

(** Adding a constructor API [a] at [self]: the new node [K] becomes the
    last child of [self] and has no children; its [preRun] hosts the
    getter, whose only child hosts the destructor; its [postRun] hosts the
    destructor.  No variable of the getter or of the destructor is looked
    at. *)
Theorem addChild_constructor fuel h st self a vn getApi deleteApi :
  wf st → self < length st →
  findChild st self a = None → isPostRunOf st self a = None →
  Api.var_new a = Some vn →
  Hapi.findApi h (Api.get vn) = Some getApi →
  Hapi.findApi h (Api.delete vn) = Some deleteApi →
  Api.var_new deleteApi = None →
  let K := length st in
  ∃ st', addChild (S (S fuel)) h st self a = Ok K st' ∧
    shapeOf st' self = (apiOf st self, parentOf st self, childrenOf st self ++ [K]) ∧
    shapeOf st' K = (Some a, Some self, []) ∧
    preRunOf st' K = Some (K + 1) ∧
    shapeOf st' (K + 1) = (Some getApi, Some K, [K + 2]) ∧
    shapeOf st' (K + 2) = (Some deleteApi, Some (K + 1), []) ∧
    postRunOf st' K = Some (K + 3) ∧
    shapeOf st' (K + 3) = (Some deleteApi, Some K, []).
Proof.
  intros Hwf Hself Hfind Hpost Hvn Hget Hdel Hvd K. subst K.
  remember (length st) as K eqn:HK.
  remember (S fuel) as fuel1 eqn:Hfuel1.
  rewrite addChild_S, Hfind, Hpost.
  destruct (newNode st (Some a) (Some self)) as [node st1] eqn:Hn1.
  cbv beta iota zeta. rewrite Hvn, Hget, Hdel.
  pose proof (newNode_satellites _ _ _ _ _ Hn1) as (Hpre1 & Hpost1 & _).
  apply newNode_shape in Hn1 as (Hnode & Hl1 & Hold1 & Hnew1).
  rewrite <- HK in Hnode, Hl1, Hold1. subst node.
  destruct (newNode st1 (Some getApi) (Some K)) as [pre st2] eqn:Hn2.
  cbv beta iota zeta.
  pose proof (newNode_satellites _ _ _ _ _ Hn2) as (Hpre2 & Hpost2 & Hsat2).
  apply newNode_shape in Hn2 as (-> & Hl2 & Hold2 & Hnew2).
  rewrite ?Hl1 in Hnew2, Hpre2, Hpost2, Hold2, Hl2, Hsat2 |- *.
  set (st3 := alter (set_preRun (S K)) K st2).
  assert (Hl3 : length st3 = S (S K)) by (unfold st3; rewrite length_alter; lia).
  assert (Hs3 : ∀ n, shapeOf st3 n = shapeOf st2 n)
    by (intros n; apply alter_shape, keepsShape_set_preRun).
  destruct (set_preRun_spec st2 K (S K) ltac:(lia)) as (Hpre3 & Hpre3' & Hpost3).
  fold st3 in Hpre3, Hpre3', Hpost3.
  subst fuel1. rewrite addChild_S.
  assert (Hfind3 : findChild st3 (S K) deleteApi = None).
  { unfold findChild. pose proof (Hs3 (S K)) as H. rewrite Hnew2 in H.
    injection H as _ _ ->. done. }
  assert (Hpost3' : isPostRunOf st3 (S K) deleteApi = None).
  { unfold isPostRunOf. fold (postRunOf st3 (S K)). by rewrite Hpost3, Hpost2. }
  rewrite Hfind3, Hpost3'.
  destruct (newNode st3 (Some deleteApi) (Some (S K))) as [c st3'] eqn:Hn4.
  cbv beta iota zeta. rewrite Hvd.
  pose proof (newNode_satellites _ _ _ _ _ Hn4) as (_ & _ & Hsat4).
  apply newNode_shape in Hn4 as (-> & Hl4 & Hold4 & Hnew4).
  rewrite ?Hl3 in Hl4, Hold4, Hnew4, Hsat4 |- *.
  set (st4 := linkChild st3' (S K) (S (S K))).
  assert (Hl4' : length st4 = S (S (S K))) by (unfold st4; by rewrite length_linkChild).
  assert (Hs4 : ∀ n, shapeOf st4 n =
            if decide (n = S K)
            then (apiOf st3' n, parentOf st3' n, childrenOf st3' n ++ [S (S K)])
            else shapeOf st3' n)
    by (intros n; apply linkChild_shape; lia).
  pose proof (sameSatellites_linkChild st3' (S K) (S (S K))) as Hsat4'. fold st4 in Hsat4'.
  destruct (newNode st4 (Some deleteApi) (Some K)) as [post st5] eqn:Hn5.
  cbv beta iota zeta.
  pose proof (newNode_satellites _ _ _ _ _ Hn5) as (_ & _ & Hsat5).
  apply newNode_shape in Hn5 as (-> & Hl5 & Hold5 & Hnew5).
  rewrite ?Hl4' in Hl5, Hold5, Hnew5, Hsat5 |- *.
  set (st6 := alter (set_postRun (S (S (S K)))) K st5).
  assert (Hl6 : length st6 = S (S (S (S K)))) by (unfold st6; rewrite length_alter; lia).
  assert (Hs6 : ∀ n, shapeOf st6 n = shapeOf st5 n)
    by (intros n; apply alter_shape, keepsShape_set_postRun).
  destruct (set_postRun_spec st5 K (S (S (S K))) ltac:(lia)) as (Hpost6 & _ & Hpre6).
  fold st6 in Hpost6, Hpre6.
  set (st7 := linkChild st6 self K).
  assert (Hs7 : ∀ n, shapeOf st7 n =
            if decide (n = self)
            then (apiOf st6 n, parentOf st6 n, childrenOf st6 n ++ [K])
            else shapeOf st6 n)
    by (intros n; apply linkChild_shape; lia).
  pose proof (sameSatellites_linkChild st6 self K) as Hsat7. fold st7 in Hsat7.
  exists st7. split; [done|].
  assert (Hfrom : ∀ n, n < K → n ≠ self ∨ True → shapeOf st6 n = shapeOf st n).
  { intros n Hn _. rewrite Hs6, Hold5 by lia. rewrite Hs4, decide_False by lia.
    rewrite Hold4 by lia. rewrite Hs3, Hold2 by lia. by apply Hold1. }
  assert (H2K : shapeOf st3' (S K) = (Some getApi, Some K, [])).
  { rewrite Hold4 by lia. by rewrite Hs3. }
  replace (K + 1) with (S K) by lia. replace (K + 2) with (S (S K)) by lia.
  replace (K + 3) with (S (S (S K))) by lia.
  repeat split.
  - pose proof (Hs7 self) as H. rewrite decide_True in H by done.
    pose proof (Hfrom self Hself (or_intror I)) as H'. unfold shapeOf in H'.
    injection H' as E1 E2 E3. by rewrite H, E1, E2, E3.
  - rewrite Hs7, decide_False by lia.
    rewrite Hs6, Hold5 by lia. rewrite Hs4, decide_False by lia.
    rewrite Hold4 by lia. rewrite Hs3, Hold2 by lia. exact Hnew1.
  - destruct (Hsat7 K) as [-> _]. rewrite Hpre6.
    destruct (Hsat5 K ltac:(lia)) as [-> _]. destruct (Hsat4' K) as [-> _].
    destruct (Hsat4 K ltac:(lia)) as [-> _]. exact Hpre3.
  - rewrite Hs7, decide_False by lia.
    rewrite Hs6, Hold5 by lia. rewrite Hs4, decide_True by done.
    unfold shapeOf in H2K. injection H2K as -> -> ->. done.
  - rewrite Hs7, decide_False by lia.
    rewrite Hs6, Hold5 by lia. rewrite Hs4, decide_False by lia. exact Hnew4.
  - destruct (Hsat7 K) as [_ ->]. exact Hpost6.
  - rewrite Hs7, decide_False by lia. rewrite Hs6. exact Hnew5.
Qed.

Lemma addChild_constructor_witness :
  ∃ st', addChild 2 appCorpus emptyTree root createApp = Ok 1 st' ∧
         shapeOf st' 1 = (Some createApp, Some root, []) ∧
         preRunOf st' 1 = Some 2 ∧ shapeOf st' 2 = (Some getApp, Some 1, [3]) ∧
         shapeOf st' 3 = (Some delApp, Some 2, []) ∧
         postRunOf st' 1 = Some 4 ∧ shapeOf st' 4 = (Some delApp, Some 1, []).
Proof.
  destruct (addChild_constructor 0 appCorpus emptyTree root createApp
              {| Api.get := "getApp"; Api.delete := "delApp" |} getApp delApp)
    as (st' & Hadd & _ & H1 & H2 & H3 & H4 & H5 & H6);
    try reflexivity.
  - apply planOk_emptyTree. exact appCorpus.
  - vm_compute. lia.
  - exists st'. repeat split; assumption.
Defined.

End PlannerMore.

(* ===================================================================== *)
(** * Part V: producer seeding                                            *)
(* ===================================================================== *)

Section PlannerSeeding.
Import Node Plan Hosting Satellites Seeding.

#[local] Arguments newNode : simpl never.
#[local] Arguments linkChild : simpl never.
#[local] Arguments findChild : simpl never.
#[local] Arguments isPostRunOf : simpl never.
#[local] Arguments chain : simpl never.
#[local] Arguments getUndefinedVars : simpl never.
#[local] Arguments usesApi : simpl never.
#[local] Arguments isInserting : simpl never.

(** ** What [addChild] does to the heap *)


Lemma updated_refl x : updated x x.
Proof. done. Qed.
































Lemma isInserting_cleared name (self : nat) (st : Store) :
  isInserting (alter (set_inserting name false) self st) self name = false.
Proof.
  unfold isInserting. rewrite lookup_set_inserting, decide_True by done.
  destruct (st !! self) as [x|]; [|done]. simpl. by rewrite lookup_insert_eq.
Qed.



Lemma forChildren_none_any body k undefinedVars self i found st :
  existsb (λ c, producesVar st c undefinedVars) (childrenOf st self) = false →
  forChildren body k undefinedVars self i found st = OutOfFuel ∨
  forChildren body k undefinedVars self i found st = Ok found st.
Proof.
  intros Hnone. revert i. induction k as [|k IH]; intros i; [by left|].
  cbn [forChildren]. destruct (childrenOf st self !! i) as [child|] eqn:Hi; [|by right].
  assert (Hchild : producesVar st child undefinedVars = false).
  { destruct (producesVar st child undefinedVars) eqn:Hp; [|done].
    assert (existsb (λ c, producesVar st c undefinedVars) (childrenOf st self) = true)
      as Hex; [|congruence].
    apply existsb_exists. exists child. split; [|done].
    apply list_elem_of_In. by eapply list_elem_of_lookup_2. }
  rewrite Hchild. apply IH.
Qed.

Lemma existsb_producesVar_flags (st st' : Store) self vs :
  sameShape st st' → (∀ n, subTreeProducesOf st' n = subTreeProducesOf st n) →
  existsb (λ c, producesVar st' c vs) (childrenOf st' self)
  = existsb (λ c, producesVar st c vs) (childrenOf st self).
Proof.
  intros [_ Hs] Hsub. destruct (Hs self) as (_ & _ & ->).
  induction (childrenOf st self) as [|c l IH]; [done|].
  cbn [existsb]. rewrite IH. f_equal. unfold producesVar. by rewrite Hsub.
Qed.












(** ** An insertion that never ends *)

Lemma insertApi_notInsertable fuel h st self p :
  Hapi.isInsertableApi h p = false →
  ∃ st', insertApi (S fuel) h st self p = Ok tt st' ∧ sameShape st st' ∧
         ∀ n, subTreeProducesOf st' n = subTreeProducesOf st n.
Proof.
  intros Hp. rewrite insertApi_S. destruct (isInserting st self (Api.name p)).
  { by exists st. }
  cbv zeta. rewrite Hp. cbn [negb]. eexists. split; [done|]. split.
  - apply sameShape_alter, keepsShape_set_inserting.
  - intros n. apply subTreeProducesOf_set_inserting.
Qed.

Lemma forProducers_notInsertable fuel h self producers st :
  (∀ p, p ∈ producers → Hapi.isInsertableApi h p = false) →
  forProducers (λ s p, insertApi fuel h s self p) producers st = OutOfFuel ∨
  ∃ st', forProducers (λ s p, insertApi fuel h s self p) producers st = Ok tt st' ∧
         sameShape st st' ∧ ∀ n, subTreeProducesOf st' n = subTreeProducesOf st n.
Proof.
  intros Hps. revert st. induction producers as [|p producers IH]; intros st.
  { right. by exists st. }
  destruct fuel as [|fuel]; [by left|]. cbn [forProducers].
  destruct (insertApi_notInsertable fuel h st self p) as (st1 & -> & Hs1 & Hsub1).
  { apply Hps, list_elem_of_here. }
  destruct (IH (λ q Hq, Hps q (list_elem_of_further _ _ _ Hq)) st1)
    as [->|(st2 & -> & Hs2 & Hsub2)]; [by left|right].
  exists st2. split; [done|]. split; [by eapply sameShape_trans|].
  intros n. by rewrite Hsub2.
Qed.

(** When the first undefined variable of [a] at [self] is produced only by
    APIs that are not insertable (referenced APIs), and by no child subtree,
    [insertApi] neither returns nor throws: it inserts the producers, which
    changes nothing but their flags, clears the flag of [a] and calls itself
    in the same situation, without end.  (The program exhausts the call
    stack; [compile] records the [RangeError] as the error of the API.) *)
Theorem insertApi_referenced_producers_overflow h st self a varName rest :
  isInserting st self (Api.name a) = false →
  Hapi.isInsertableApi h a = true →
  usesApi st self a = false →
  getUndefinedVars h st self a = varName :: rest →
  existsb (λ c, producesVar st c (varName :: rest)) (childrenOf st self) = false →
  Hapi.getApiProducers h varName ≠ [] →
  (∀ p, p ∈ Hapi.getApiProducers h varName → Hapi.isInsertableApi h p = false) →
  ∀ fuel, insertApi fuel h st self a = OutOfFuel.
Proof.
  intros Hins Hable Huse Hundef Hnone Hsome Href fuel. revert st Hins Huse Hundef Hnone.
  induction fuel as [|fuel IH]; intros st Hins Huse Hundef Hnone; [done|].
  rewrite insertApi_S, Hins. cbv zeta.
  set (st1 := alter (set_inserting (Api.name a) true) self st).
  assert (Hs1 : sameShape st st1) by apply sameShape_alter, keepsShape_set_inserting.
  assert (Hsub1 : ∀ n, subTreeProducesOf st1 n = subTreeProducesOf st n)
    by (intros n; apply subTreeProducesOf_set_inserting).
  rewrite Hable. cbn [negb]. rewrite (usesApi_sameShape _ _ _ _ Hs1), Huse.
  rewrite (getUndefinedVars_sameShape _ _ _ _ _ Hs1), Hundef.
  destruct (forChildren_none_any (λ s child, insertApi fuel h s child a) fuel
              (varName :: rest) self 0 false st1) as [->| ->]; [|done|].
  { by rewrite (existsb_producesVar_flags st st1). }
  destruct (Hapi.getApiProducers h varName) as [|p producers] eqn:Hprod; [done|].
  destruct (forProducers_notInsertable fuel h self (p :: producers) st1 Href)
    as [->|(st2 & -> & Hs2 & Hsub2)]; [done|].
  set (st3 := alter (set_inserting (Api.name a) false) self st2).
  assert (Hs3 : sameShape st st3).
  { eapply sameShape_trans; [exact Hs1|]. eapply sameShape_trans; [exact Hs2|].
    apply sameShape_alter, keepsShape_set_inserting. }
  apply IH.
  - apply isInserting_cleared.
  - by rewrite (usesApi_sameShape _ _ _ _ Hs3).
  - by rewrite (getUndefinedVars_sameShape _ _ _ _ _ Hs3).
  - rewrite (existsb_producesVar_flags st st3); [done|done|].
    intros n. unfold st3. by rewrite subTreeProducesOf_set_inserting, Hsub2, Hsub1.
Qed.

Lemma insertApi_referenced_producers_overflow_witness :
  Hapi.getApiProducers referencedCorpus "x" = [makeX] ∧
  Hapi.isInsertableApi referencedCorpus makeX = false ∧
  insertApi 1000 referencedCorpus emptyTree root useX = OutOfFuel.
Proof.
  split; [reflexivity|]. split; [reflexivity|].
  apply (insertApi_referenced_producers_overflow referencedCorpus emptyTree root useX
           "x" []); try reflexivity.
  - discriminate.
  - intros p Hp. change (p ∈ [makeX]) in Hp.
    by apply list_elem_of_singleton in Hp as ->.
Defined.

End PlannerSeeding.
